(** * Sudoku solver: a shallow embedding of [controllers/sudoku-solver.js]

    The JavaScript class [SudokuSolver] validates, checks, solves and
    generates 9x9 Sudoku puzzles held in flat 81-character strings.  This
    file embeds its functions as Rocq functions and proves the properties
    of the specification against them.

    Conventions of the embedding.
    - A JavaScript string is a [list ascii]; the array obtained by
      spreading a string ([[...puzzleString]]) is the list of its
      one-character strings, again a [list ascii], and [join("")] is the
      identity.  Where the source treats a string and an array differently
      (the row check builds a comma-joined text from array slices) the two
      paths are embedded as two functions.
    - JavaScript numbers that are integers are [Z]; loop counters and array
      positions are [nat].  [undefined] read from an index out of range is
      [None].
    - A function that can throw, or whose recursion is bounded here by
      fuel, returns an [outcome]. *)

From Stdlib Require Import String Ascii List ZArith QArith Qround Lia Lqa ZifyNat
  Bool Arith DecimalString.
Import ListNotations.

Local Open Scope nat_scope.

(** ** Outcomes of running a piece of the program *)

Inductive outcome (A : Type) : Type :=
| Returns (a : A)      (* normal completion *)
| Throws               (* a TypeError is thrown *)
| OutOfFuel.           (* the recursion budget of the model is used up *)

Arguments Returns {A} a.
Arguments Throws {A}.
Arguments OutOfFuel {A}.

Definition bind {A B} (m : outcome A) (k : A -> outcome B) : outcome B :=
  match m with
  | Returns a => k a
  | Throws => Throws
  | OutOfFuel => OutOfFuel
  end.

Notation "x <- m ;; k" := (bind m (fun x => k))
  (at level 61, m at next level, right associativity).

Definition ofOption {A} (o : option A) : outcome A :=
  match o with
  | Some a => Returns a
  | None => Throws
  end.

(** ** JavaScript strings and arrays *)

Definition jsstring := list ascii.

(** A string literal of the source as a [jsstring]. *)
Definition lit (s : string) : jsstring := list_ascii_of_string s.

Fixpoint str_eqb (s t : jsstring) : bool :=
  match s, t with
  | [], [] => true
  | a :: s', b :: t' => Ascii.eqb a b && str_eqb s' t'
  | _, _ => false
  end.

(** [s[k]] for an integer [k]: the element, or [undefined]. *)
Definition getZ {A} (s : list A) (k : Z) : option A :=
  if (k <? 0)%Z then None else nth_error s (Z.to_nat k).

(** [e === t] where [e] is an element read from a string or from an array
    of one-character strings (or [undefined]) and [t] a string. *)
Definition strictEq (e : option ascii) (t : jsstring) : bool :=
  match e with
  | Some c => str_eqb [c] t
  | None => false
  end.

(** [String.prototype.slice(a, b)] and [Array.prototype.slice(a, b)]: a
    negative bound counts from the end, both bounds are clamped. *)
Definition relIndex (len k : Z) : Z :=
  if (k <? 0)%Z then Z.max (len + k) 0 else Z.min k len.

Definition slice {A} (s : list A) (a b : Z) : list A :=
  let len := Z.of_nat (length s) in
  let from := relIndex len a in
  let to := relIndex len b in
  firstn (Z.to_nat (to - from)) (skipn (Z.to_nat from) s).

(** [s.slice(a)]: to the end. *)
Definition sliceFrom {A} (s : list A) (a : Z) : list A :=
  skipn (Z.to_nat (relIndex (Z.of_nat (length s)) a)) s.

Fixpoint prefixb (needle s : jsstring) : bool :=
  match needle, s with
  | [], _ => true
  | _ :: _, [] => false
  | a :: needle', b :: s' => Ascii.eqb a b && prefixb needle' s'
  end.

(** [String.prototype.includes]: substring test. *)
Fixpoint includes (s needle : jsstring) : bool :=
  prefixb needle s ||
  match s with
  | [] => false
  | _ :: s' => includes s' needle
  end.

(** [String.prototype.indexOf]: first position of the substring, or -1. *)
Fixpoint indexOfFrom (s needle : jsstring) (pos : Z) : Z :=
  if prefixb needle s then pos
  else match s with
       | [] => (-1)%Z
       | _ :: s' => indexOfFrom s' needle (pos + 1)%Z
       end.

Definition indexOf (s needle : jsstring) : Z := indexOfFrom s needle 0%Z.

(** [Array.prototype.includes] on an array whose elements are one-character
    strings or [undefined], searched for a string. *)
Definition arrIncludes (arr : list (option ascii)) (t : jsstring) : bool :=
  existsb (fun e => strictEq e t) arr.

(** [Array.prototype.indexOf] on an array of one-character strings. *)
Fixpoint arrIndexOfFrom (arr : list ascii) (t : jsstring) (pos : Z) : Z :=
  match arr with
  | [] => (-1)%Z
  | c :: arr' => if str_eqb [c] t then pos else arrIndexOfFrom arr' t (pos + 1)%Z
  end.

Definition arrIndexOf (arr : list ascii) (t : jsstring) : Z :=
  arrIndexOfFrom arr t 0%Z.

(** The text of an array of one-character strings inside a template
    literal: its elements joined with commas. *)
Fixpoint arrToString (arr : list ascii) : jsstring :=
  match arr with
  | [] => []
  | [c] => [c]
  | c :: arr' => c :: ","%char :: arrToString arr'
  end.

(** [`${n}`] for an integer [n]: its decimal text. *)
Definition numText (n : Z) : jsstring :=
  lit (NilEmpty.string_of_int (Z.to_int n)).

(** The one character of [`${v}`] for a digit [v] of 0..9. *)
Definition digitChar (v : Z) : ascii := ascii_of_nat (48 + Z.to_nat v).

(** [arr[index] = value] on an array.  An index past the end, where
    JavaScript would extend the array, is not met by the program: the
    solver writes at the index of a cell it has just found in the array
    ([firstEmpty_in_range]) and the generator at a cursor position of the
    completed array ([generateLoop_hidden]); the embedding leaves the array
    as it is there. *)
Fixpoint setNth {A} (i : nat) (v : A) (l : list A) : list A :=
  match l, i with
  | [], _ => []
  | _ :: t, O => v :: t
  | h :: t, S i' => h :: setNth i' v t
  end.

(** ** Grid model *)

Definition rowLetters : jsstring := lit "ABCDEFGHI".

Definition charCode (c : ascii) : Z := Z.of_nat (nat_of_ascii c).

(** [toBaseZeroCoordinate(rowLetter, colNumber)]: [[x, y, cell]], or
    [false] (here [None]) when out of range. *)
Definition toBaseZeroCoordinate (rowLetter : ascii) (colNumber : Z)
  : option (Z * Z * Z) :=
  let capitalACode := charCode "A" in
  let rowCoord := (charCode rowLetter - capitalACode)%Z in
  let colCoord := (colNumber - 1)%Z in
  if (rowCoord <? 0)%Z || (rowCoord >? 8)%Z
     || (colCoord <? 0)%Z || (colCoord >? 8)%Z
  then None
  else Some (colCoord, rowCoord, (9 * rowCoord + colCoord)%Z).

(** [toLetterNumberCoordinate(cellNumber)]: the row letter (or [undefined])
    and the column number. *)
Definition toLetterNumberCoordinate (cellNumber : Z) : option ascii * Z :=
  (getZ rowLetters (cellNumber / 9)%Z, (Z.rem cellNumber 9 + 1)%Z).

(** ** Validator *)

(** [{ ok: true }] or [{ ok: false, error }]. *)
Inductive ValidateResult :=
| ValidateOk
| ValidateErr (error : string).

Definition ok (r : ValidateResult) : bool :=
  match r with
  | ValidateOk => true
  | ValidateErr _ => false
  end.

Definition EmptyInput : string := "No puzzle string given.".
Definition WrongLength : string := "Expected puzzle to be 81 characters long".
Definition InvalidCharacters : string := "Invalid characters in puzzle".
Definition PuzzleNotSolved : string := "Puzzle is not solved".
Definition PuzzleUnsolvable : string := "Puzzle cannot be solved".

Definition isDecimalDigit (c : ascii) : bool :=
  (48 <=? nat_of_ascii c) && (nat_of_ascii c <=? 57).

(** One character of the class [[\.\d]]. *)
Definition isPuzzleChar (c : ascii) : bool :=
  Ascii.eqb c "."%char || isDecimalDigit c.

(** [/^[\.\d]{81}$/.test(s)]: exactly 81 characters, all of the class. *)
Definition validPuzzleRegex_test (s : jsstring) : bool :=
  (length s =? 81) && forallb isPuzzleChar s.

Definition validate (puzzleString : jsstring) : ValidateResult :=
  match puzzleString with
  | [] => ValidateErr EmptyInput          (* [!puzzleString] *)
  | _ =>
    if negb (length puzzleString =? 81)
    then ValidateErr WrongLength
    else if negb (validPuzzleRegex_test puzzleString)
    then ValidateErr InvalidCharacters
    else ValidateOk
  end.

(** ** Placement checker

    The three checks use [value] only through its text [`${value}`]; the
    embedding takes that text.  [valid] is the field of the result. *)

Record CheckResult := mkCheck { valid : bool }.

(** [checkRowPlacement] on a puzzle string. *)
Definition checkRowPlacement (puzzleString : jsstring) (row : ascii)
    (column : Z) (value : jsstring) : CheckResult :=
  match toBaseZeroCoordinate row column with
  | None =>
    (* [coord] is [false]: [rowStart] is NaN, the slice is empty and
       [puzzleString[undefined]] is [undefined] *)
    mkCheck (negb (includes [] value))
  | Some (_, y, cell) =>
    let rowStart := (9 * y)%Z in
    let rowString := slice puzzleString rowStart (rowStart + 9)%Z in
    let rowString :=
      if strictEq (getZ puzzleString cell) value then
        let valueIndex := indexOf rowString value in
        slice rowString 0%Z valueIndex ++ sliceFrom rowString (valueIndex + 1)%Z
      else rowString in
    mkCheck (negb (includes rowString value))
  end.

(** [checkRowPlacement] on an array of one-character strings, as the
    solver calls it: the slices are arrays, and the template literal joins
    each of them with commas. *)
Definition checkRowPlacementArr (puzzleString : list ascii) (row : ascii)
    (column : Z) (value : jsstring) : CheckResult :=
  match toBaseZeroCoordinate row column with
  | None => mkCheck true
  | Some (_, y, cell) =>
    let rowStart := (9 * y)%Z in
    let rowString := slice puzzleString rowStart (rowStart + 9)%Z in
    if strictEq (getZ puzzleString cell) value then
      let valueIndex := arrIndexOf rowString value in
      let rowText :=
        arrToString (slice rowString 0%Z valueIndex)
        ++ arrToString (sliceFrom rowString (valueIndex + 1)%Z) in
      mkCheck (negb (includes rowText value))
    else mkCheck (negb (arrIncludes (map Some rowString) value))
  end.

Definition nine : list Z := [0; 1; 2; 3; 4; 5; 6; 7; 8]%Z.
Definition three : list Z := [0; 1; 2]%Z.

Definition checkColPlacement (puzzleString : jsstring) (row : ascii)
    (column : Z) (value : jsstring) : CheckResult :=
  match toBaseZeroCoordinate row column with
  | None =>
    (* every index is NaN: nine [undefined] are collected *)
    mkCheck true
  | Some (x, _, cell) =>
    let colStart := x in
    let colArray :=
      flat_map (fun i =>
        if (cell =? colStart + i * 9)%Z
           && strictEq (getZ puzzleString cell) value
        then []
        else [getZ puzzleString (colStart + i * 9)%Z]) nine in
    mkCheck (negb (arrIncludes colArray value))
  end.

Definition checkRegionPlacement (puzzleString : jsstring) (row : ascii)
    (column : Z) (value : jsstring) : outcome CheckResult :=
  match toBaseZeroCoordinate row column with
  | None => Throws     (* [false] is not iterable *)
  | Some (x, y, cell) =>
    let regionTopLeft := (x / 3 * 3, y / 3 * 3)%Z in
    let regionArray :=
      flat_map (fun i =>
        flat_map (fun j =>
          let regionCell :=
            (9 * (snd regionTopLeft + i) + (fst regionTopLeft + j))%Z in
          if (cell =? regionCell)%Z
             && strictEq (getZ puzzleString regionCell) value
          then []
          else [getZ puzzleString regionCell]) three) three in
    Returns (mkCheck (negb (arrIncludes regionArray value)))
  end.

(** The conjunction of [checkPlacement], evaluated left to right. *)
Definition checkAll (cr cc : CheckResult) (cg : outcome CheckResult)
  : outcome CheckResult :=
  if negb (valid cr) then Returns (mkCheck false)
  else if negb (valid cc) then Returns (mkCheck false)
  else r <- cg ;; Returns (mkCheck (valid r)).

Definition checkPlacement (puzzleString : jsstring) (row : ascii)
    (column : Z) (value : jsstring) : outcome CheckResult :=
  checkAll (checkRowPlacement puzzleString row column value)
           (checkColPlacement puzzleString row column value)
           (checkRegionPlacement puzzleString row column value).

Definition checkPlacementArr (puzzleString : list ascii) (row : ascii)
    (column : Z) (value : jsstring) : outcome CheckResult :=
  checkAll (checkRowPlacementArr puzzleString row column value)
           (checkColPlacement puzzleString row column value)
           (checkRegionPlacement puzzleString row column value).

(** ** Solver *)

Record EmptyCell := mkEmptyCell {
  row : ascii;
  col : Z;
  index : nat;
  possible : list ascii     (* one-character strings *)
}.

Definition oneToNine : list Z := [1; 2; 3; 4; 5; 6; 7; 8; 9]%Z.

(** The loop [for (let v = 1; v <= 9; ++v)] of [getNextEmptyCell]. *)
Fixpoint possibleValues (puzzleString : list ascii) (row : ascii) (col : Z)
    (vs : list Z) : outcome (list ascii) :=
  match vs with
  | [] => Returns []
  | v :: vs' =>
    r <- checkPlacementArr puzzleString row col (numText v) ;;
    rest <- possibleValues puzzleString row col vs' ;;
    Returns (if valid r then digitChar v :: rest else rest)
  end.

(** The scan of [getNextEmptyCell] from position [i], [rest] being the
    cells from [i] on.  [None] is the result [false]. *)
Fixpoint getNextEmptyCellFrom (puzzleString : list ascii) (i : nat)
    (rest : list ascii) : outcome (option EmptyCell) :=
  match rest with
  | [] => Returns None
  | c :: rest' =>
    if Ascii.eqb c "."%char then
      let '(orow, col) := toLetterNumberCoordinate (Z.of_nat i) in
      row <- ofOption orow ;;     (* [undefined.charCodeAt()] throws *)
      possibleValues <- possibleValues puzzleString row col oneToNine ;;
      Returns (Some (mkEmptyCell row col i possibleValues))
    else getNextEmptyCellFrom puzzleString (S i) rest'
  end.

Definition getNextEmptyCell (puzzleString : list ascii)
  : outcome (option EmptyCell) :=
  getNextEmptyCellFrom puzzleString 0 puzzleString.

(** [{ solution }] or [{ error }]. *)
Inductive SolveResult :=
| Solution (solution : jsstring)
| Error (error : string).

(** The loop [for (const value of possible)] of [solve]: [rec] is the
    recursive call [this.solve(puzzleString, false)], whose result is
    dropped and whose effect on the shared array is kept. *)
Fixpoint solveLoop (rec : list ascii -> outcome (SolveResult * list ascii))
    (row : ascii) (col : Z) (index : nat) (values : list ascii)
    (puzzleString : list ascii) : outcome (list ascii) :=
  match values with
  | [] => Returns puzzleString
  | value :: values' =>
    r <- checkPlacementArr puzzleString row col [value] ;;
    if valid r then
      res <- rec (setNth index value puzzleString) ;;
      solveLoop rec row col index values' (snd res)
    else solveLoop rec row col index values' puzzleString
  end.

(** [solve(puzzleString, false)] on an array: the result and the array as
    the call leaves it. *)
Fixpoint solveArr (fuel : nat) (puzzleString : list ascii)
  : outcome (SolveResult * list ascii) :=
  match fuel with
  | O => OutOfFuel
  | S fuel' =>
    nextEmptyCell <- getNextEmptyCell puzzleString ;;
    match nextEmptyCell with
    | None => Returns (Solution puzzleString, puzzleString)
    | Some (mkEmptyCell row col index possible) =>
      arr <- match possible with
             | [value] =>
               res <- solveArr fuel' (setNth index value puzzleString) ;;
               Returns (snd res)
             | _ => solveLoop (solveArr fuel') row col index possible
                              puzzleString
             end ;;
      next <- getNextEmptyCell arr ;;
      let arr := match next with
                 | Some _ => setNth index "."%char arr
                 | None => arr
                 end in
      if arrIncludes (map Some arr) (lit ".")
      then Returns (Error PuzzleUnsolvable, arr)
      else Returns (Solution arr, arr)
    end
  end.

(** The depth of the recursion is at most the number of empty cells plus
    one; 82 is enough for every validated puzzle ([solve_returns]). *)
Definition solveFuel : nat := 82.

(** [solve(puzzleString)] on a string, [validateFirst] being [true]. *)
Definition solve (puzzleString : jsstring) : outcome SolveResult :=
  match validate puzzleString with
  | ValidateErr e => Returns (Error e)
  | ValidateOk =>
    res <- solveArr solveFuel puzzleString ;;
    Returns (fst res)
  end.

(** ** Completed-puzzle checker *)

Record CheckSolvedResult := mkCheckSolved {
  solved : bool;
  serror : option string;
  conflict : option (list string)
}.

(** A JavaScript number that is an integer, or NaN. *)
Inductive jsnum :=
| Num (n : Z)
| NaN.

Definition isWhiteSpace (c : ascii) : bool :=
  existsb (Nat.eqb (nat_of_ascii c)) [9; 10; 11; 12; 13; 32; 160].

(** Unary [+] on a one-character string: a digit gives its value, white
    space gives 0, anything else NaN. *)
Definition unaryPlus (c : ascii) : jsnum :=
  if isDecimalDigit c then Num (charCode c - 48)%Z
  else if isWhiteSpace c then Num 0%Z
  else NaN.

(** [`${n}`] for a number. *)
Definition jsnumText (n : jsnum) : jsstring :=
  match n with
  | Num z => numText z
  | NaN => lit "NaN"
  end.

Definition conflictMessage (row : ascii) (col : Z) : string :=
  ("Cell '" ++ String row (string_of_list_ascii (numText col))
   ++ "' contains conflicts.")%string.

(** The loop of [checkSolve] from position [i], [rest] being the
    characters from [i] on. *)
Fixpoint checkSolveFrom (puzzle : jsstring) (i : nat) (rest : jsstring)
  : outcome CheckSolvedResult :=
  match rest with
  | [] => Returns (mkCheckSolved true None None)
  | c :: rest' =>
    if Ascii.eqb c "."%char
    then Returns (mkCheckSolved false (Some PuzzleNotSolved) None)
    else
      let '(orow, col) := toLetterNumberCoordinate (Z.of_nat i) in
      row <- ofOption orow ;;
      let value := jsnumText (unaryPlus c) in
      let cr := checkRowPlacement puzzle row col value in
      let cc := checkColPlacement puzzle row col value in
      cg <- checkRegionPlacement puzzle row col value ;;
      let conflicts :=
        (if valid cr then [] else ["row"%string])
        ++ (if valid cc then [] else ["column"%string])
        ++ (if valid cg then [] else ["region"%string]) in
      if 0 <? length conflicts
      then Returns (mkCheckSolved false (Some (conflictMessage row col))
                                  (Some conflicts))
      else checkSolveFrom puzzle (S i) rest'
  end.

Definition checkSolve (puzzle : jsstring) : outcome CheckSolvedResult :=
  match validate puzzle with
  | ValidateErr e => Returns (mkCheckSolved false (Some e) None)
  | ValidateOk => checkSolveFrom puzzle 0 puzzle
  end.

(** ** Generator

    [Math.random()] is an oracle: the [n]-th call returns [rnd n], a
    rational of the interval [0, 1); the position in the stream is
    threaded through the loops.

    [getRandomValue] is the formula of the source in exact arithmetic.
    The source computes it in double precision, where the product and the
    sum are rounded: that computation is [getRandomValueDouble] below.  The
    generator calls the function with the bounds 0 and [digits.length - 1]
    for a pool of 1 to 9 digits, and with the bounds 1 and 1000; with these
    bounds every value of the computation in doubles is in range, so it is
    the value of the exact formula for some rational of [0, 1), and a run
    of the generator on doubles ([generateDouble]) is a run of the loops
    below on a stream of rationals. *)

Definition getRandomValue (r : Q) (min max : Z) : Z :=
  Qfloor (r * inject_Z (max - min + 1) + inject_Z min).

(** *** The same computation in doubles

    A finite double is a whole number of units of [2^-1074], the spacing
    of the smallest doubles; a double is held as that number of units.
    Overflow to infinity is not modelled: the numbers stay below
    [2^1024]. *)
Definition doubleUnit : Z := (2 ^ 1074)%Z.

(** [n / 2^s] rounded to the nearest integer, a tie to the even one. *)
Definition roundHalfEven (n s : Z) : Z :=
  let q := (n / 2 ^ s)%Z in
  let r := (n mod 2 ^ s)%Z in
  if (2 * r <? 2 ^ s)%Z then q
  else if (2 ^ s <? 2 * r)%Z then (q + 1)%Z
  else if Z.even q then q else (q + 1)%Z.

(** The double nearest to [n] units: 53 significant bits are kept, and
    nothing below one unit. *)
Definition roundDouble (n : Z) : Z :=
  let a := Z.abs n in
  let s := Z.max (Z.log2 a - 52) 0 in
  (Z.sgn n * (roundHalfEven a s * 2 ^ s))%Z.

(** [n] units are a double. *)
Definition isDouble (n : Z) : Prop := roundDouble n = n.

(** The double nearest to the integer [k], as an integer. *)
Definition roundInteger (k : Z) : Z :=
  (roundDouble (k * doubleUnit) / doubleUnit)%Z.

(** [Math.floor(Math.random() * (max - min + 1) + min)] where
    [Math.random()] returned the double of [random] units; [min] and [max]
    are integers that doubles hold. *)
Definition getRandomValueDouble (random : Z) (min max : Z) : Z :=
  let range := roundInteger (roundInteger (max - min) + 1) in
  let product := roundDouble (random * range) in
  let sum := roundDouble (product + min * doubleUnit) in
  (sum / doubleUnit)%Z.

(** The largest double below 1, [1 - 2^-53]. *)
Definition largestBelowOne : Z := (2 ^ 1074 - 2 ^ 1021)%Z.

(** An element of the array [puzzle]: a digit pushed as a number, the
    string ["."], or [undefined]. *)
Inductive jsval :=
| JNum (n : Z)
| JStr (s : jsstring)
| JUndefined.

(** [`${v}`]. *)
Definition templateText (v : jsval) : jsstring :=
  match v with
  | JNum n => numText n
  | JStr s => s
  | JUndefined => lit "undefined"
  end.

(** [puzzle.join("")]: [undefined] contributes the empty text. *)
Definition join (puzzle : list jsval) : jsstring :=
  flat_map (fun v => match v with
                     | JUndefined => []
                     | _ => templateText v
                     end) puzzle.

(** [digits.splice(randomIndex, 1)]. *)
Definition spliceOne {A} (l : list A) (start : Z) : list A :=
  let from := Z.to_nat (relIndex (Z.of_nat (length l)) start) in
  firstn from l ++ skipn (S from) l.

Record DrawResult := mkDraw {
  solvable : bool;
  puzzleAfter : list jsval;
  hiddenAfter : list nat;
  posAfter : nat
}.

(** The inner loop [while (true)] of [generate]; every turn that does not
    leave the loop removes one digit, so [fuel] is the number of digits. *)
Fixpoint drawLoop (fuel : nat) (rnd : nat -> Q) (pos : nat) (digits : list Z)
    (puzzle : list jsval) (hidden : list nat) (cursor : nat)
    (row : ascii) (col : Z) : outcome DrawResult :=
  match fuel with
  | O => OutOfFuel
  | S fuel' =>
    let randomIndex :=
      getRandomValue (rnd pos) 0 (Z.of_nat (length digits) - 1) in
    let digit := match getZ digits randomIndex with
                 | Some d => JNum d
                 | None => JUndefined
                 end in
    r <- checkPlacement (join puzzle) row col (templateText digit) ;;
    if valid r then
      let puzzle := puzzle ++ [digit] in
      let shouldBeHidden :=
        (getRandomValue (rnd (S pos)) 1 1000 >=? 500)%Z in
      let hidden := if shouldBeHidden then hidden ++ [cursor] else hidden in
      Returns (mkDraw true puzzle hidden (S (S pos)))
    else
      let digits := spliceOne digits randomIndex in
      if length digits =? 0
      then Returns (mkDraw false puzzle hidden (S pos))
      else drawLoop fuel' rnd (S pos) digits puzzle hidden cursor row col
  end.

(** The outer loop [while (cursor < 81)]; it may restart for ever, so it
    is bounded by [fuel]. *)
Fixpoint generateLoop (fuel : nat) (rnd : nat -> Q) (pos : nat)
    (puzzle : list jsval) (hidden : list nat) (cursor : nat)
  : outcome (list jsval * list nat) :=
  if 81 <=? cursor then Returns (puzzle, hidden)
  else
    match fuel with
    | O => OutOfFuel
    | S fuel' =>
      let '(orow, col) := toLetterNumberCoordinate (Z.of_nat cursor) in
      row <- ofOption orow ;;
      let digits := oneToNine in
      d <- drawLoop (length digits) rnd pos digits puzzle hidden cursor
                    row col ;;
      if negb (solvable d)
      then generateLoop fuel' rnd (posAfter d) [] [] 0
      else generateLoop fuel' rnd (posAfter d) (puzzleAfter d)
                        (hiddenAfter d) (S cursor)
    end.

(** The loop [puzzle[hidden[i]] = "."]. *)
Definition hide (puzzle : list jsval) (hidden : list nat) : list jsval :=
  fold_left (fun p h => setNth h (JStr (lit ".")) p) hidden puzzle.

Definition generate (fuel : nat) (rnd : nat -> Q) : outcome jsstring :=
  res <- generateLoop fuel rnd 0 [] [] 0 ;;
  Returns (join (hide (fst res) (snd res))).

(** *** The generator on doubles

    The loops of [generate] once more, with [getRandomValue] computed in
    doubles: the [n]-th call of [Math.random()] returns the double of
    [rnd n] units. *)
Fixpoint drawLoopDouble (fuel : nat) (rnd : nat -> Z) (pos : nat)
    (digits : list Z) (puzzle : list jsval) (hidden : list nat)
    (cursor : nat) (row : ascii) (col : Z) : outcome DrawResult :=
  match fuel with
  | O => OutOfFuel
  | S fuel' =>
    let randomIndex :=
      getRandomValueDouble (rnd pos) 0 (Z.of_nat (length digits) - 1) in
    let digit := match getZ digits randomIndex with
                 | Some d => JNum d
                 | None => JUndefined
                 end in
    r <- checkPlacement (join puzzle) row col (templateText digit) ;;
    if valid r then
      let puzzle := puzzle ++ [digit] in
      let shouldBeHidden :=
        (getRandomValueDouble (rnd (S pos)) 1 1000 >=? 500)%Z in
      let hidden := if shouldBeHidden then hidden ++ [cursor] else hidden in
      Returns (mkDraw true puzzle hidden (S (S pos)))
    else
      let digits := spliceOne digits randomIndex in
      if length digits =? 0
      then Returns (mkDraw false puzzle hidden (S pos))
      else drawLoopDouble fuel' rnd (S pos) digits puzzle hidden cursor row col
  end.

Fixpoint generateLoopDouble (fuel : nat) (rnd : nat -> Z) (pos : nat)
    (puzzle : list jsval) (hidden : list nat) (cursor : nat)
  : outcome (list jsval * list nat) :=
  if 81 <=? cursor then Returns (puzzle, hidden)
  else
    match fuel with
    | O => OutOfFuel
    | S fuel' =>
      let '(orow, col) := toLetterNumberCoordinate (Z.of_nat cursor) in
      row <- ofOption orow ;;
      let digits := oneToNine in
      d <- drawLoopDouble (length digits) rnd pos digits puzzle hidden cursor
                          row col ;;
      if negb (solvable d)
      then generateLoopDouble fuel' rnd (posAfter d) [] [] 0
      else generateLoopDouble fuel' rnd (posAfter d) (puzzleAfter d)
                              (hiddenAfter d) (S cursor)
    end.

Definition generateDouble (fuel : nat) (rnd : nat -> Z) : outcome jsstring :=
  res <- generateLoopDouble fuel rnd 0 [] [] 0 ;;
  Returns (join (hide (fst res) (snd res))).

(** Every outcome of [Math.random()] is a double of the interval [0, 1). *)
Definition doubleStream (rnd : nat -> Z) : Prop :=
  forall n, isDouble (rnd n) /\ (0 <= rnd n < doubleUnit)%Z.

Definition testPuzzle : jsstring :=
  lit "..9..5.1.85.4....2432......1...69.83.9.....6.62.71...9......1945....4.37.4.3..6..".
Definition testSolution : jsstring :=
  lit "769235418851496372432178956174569283395842761628713549283657194516924837947381625".

(** A stream of random outcomes that draws [testSolution] cell by cell
    and hides every other cell. *)
Definition testRandom (n : nat) : Q :=
  if Nat.even n
  then match nth_error testSolution (n / 2) with
       | Some c => (charCode c - 49) # 9
       | None => 0
       end
  else if Nat.even (n / 2) then 1 # 2 else 0.

(** The double nearest to [(k + 1/2) / 9], which draws the index [k] of a
    pool of nine digits. *)
Definition ninthDouble (k : Z) : Z :=
  roundDouble ((2 * k + 1) * doubleUnit / 18).

(** The stream of [testRandom], in doubles. *)
Definition testRandomDouble (n : nat) : Z :=
  if Nat.even n
  then match nth_error testSolution (n / 2) with
       | Some c => ninthDouble (Z.max 0 (Z.min 8 (charCode c - 49)))
       | None => 0%Z
       end
  else if Nat.even (n / 2) then (2 ^ 1073)%Z else 0%Z.

(** ** Vocabulary of the properties

    Positions are the linear indices 0..80; [peerb i j] says that cells
    [i] and [j] share a row, a column or a region. *)

Definition sameRowb (i j : nat) : bool := i / 9 =? j / 9.
Definition sameColb (i j : nat) : bool := i mod 9 =? j mod 9.
Definition sameRegionb (i j : nat) : bool :=
  (i / 27 =? j / 27) && (i mod 9 / 3 =? j mod 9 / 3).

Definition peerb (i j : nat) : bool :=
  sameRowb i j || sameColb i j || sameRegionb i j.

Definition holdsb (p : list ascii) (j : nat) (c : ascii) : bool :=
  match nth_error p j with
  | Some d => Ascii.eqb d c
  | None => false
  end.

(** No cell other than [i] among those sharing a unit with [i]
    holds [c], for the unit selected by [rel]. *)
Definition freeInb (rel : nat -> nat -> bool) (p : list ascii) (i : nat)
    (c : ascii) : bool :=
  forallb (fun j => (j =? i) || negb (rel i j) || negb (holdsb p j c))
          (seq 0 81).

Definition freeAtb (p : list ascii) (i : nat) (c : ascii) : bool :=
  freeInb sameRowb p i c && freeInb sameColb p i c
  && freeInb sameRegionb p i c.

Definition emptyMarker : ascii := "."%char.

Definition isEmptyb (c : ascii) : bool := Ascii.eqb c emptyMarker.

(** The digits 1..9, the values the solver and the generator place. *)
Definition isPlacedDigit (c : ascii) : bool :=
  (49 <=? nat_of_ascii c) && (nat_of_ascii c <=? 57).

(** The number of empty cells. *)
Definition countEmpty (p : list ascii) : nat :=
  length (filter isEmptyb p).

Definition fullb (p : list ascii) : bool := forallb (fun c => negb (isEmptyb c)) p.

(** Every filled cell of [p] is free of conflicts: no other cell of its
    row, column or region holds the same character. *)
Definition conflictFreeb (p : list ascii) : bool :=
  forallb (fun i => match nth_error p i with
                    | Some c => isEmptyb c || freeAtb p i c
                    | None => true
                    end) (seq 0 81).

(** The position of the first empty cell. *)
Fixpoint firstEmptyFrom (i : nat) (rest : list ascii) : option nat :=
  match rest with
  | [] => None
  | c :: rest' => if isEmptyb c then Some i else firstEmptyFrom (S i) rest'
  end.

Definition firstEmpty (p : list ascii) : option nat := firstEmptyFrom 0 p.

(** [q] keeps every filled cell of [p]. *)
Definition keepsGivens (p q : list ascii) : Prop :=
  forall i c, nth_error p i = Some c -> c <> emptyMarker ->
              nth_error q i = Some c.

(** [q] is [p] with every empty cell filled by a digit of 1..9 that no
    other cell of its row, column and region holds in [q]. *)
Definition fills (p q : list ascii) : Prop :=
  length q = length p /\
  fullb q = true /\
  keepsGivens p q /\
  forall i c, nth_error p i = Some emptyMarker -> nth_error q i = Some c ->
              isPlacedDigit c = true /\ freeAtb q i c = true.

(** [g] is a completed grid of digits 1..9 without conflicts that keeps
    the filled cells of [p]. *)
Definition completion (p g : list ascii) : Prop :=
  length g = 81 /\ length p = 81 /\
  forallb isPlacedDigit g = true /\
  conflictFreeb g = true /\
  keepsGivens p g.

(** Every random outcome lies in the interval [0, 1). *)
Definition unitInterval (rnd : nat -> Q) : Prop :=
  forall n, (0 <= rnd n)%Q /\ (rnd n < 1)%Q.

(** The row letter and the column number of a linear index. *)
Definition rowLetterAt (i : nat) : ascii :=
  match nth_error rowLetters (i / 9) with
  | Some r => r
  | None => "A"%char
  end.

Definition columnAt (i : nat) : Z := Z.of_nat (i mod 9 + 1).

Definition digits19 : list ascii := map digitChar oneToNine.

(** The candidate set of cell [i]: the digits no other cell of its row,
    column and region holds. *)
Definition candidates (p : list ascii) (i : nat) : list ascii :=
  filter (freeAtb p i) digits19.

Definition cellAt (p : list ascii) (i : nat) : EmptyCell :=
  mkEmptyCell (rowLetterAt i) (columnAt i) i (candidates p i).

(** What a call [solve(arr, false)] does to the array [p]: it fails and
    leaves [p] as it was, or it succeeds and the array is a filling of
    [p]. *)
Definition solveOutcome (p : list ascii) (res : SolveResult)
    (q : list ascii) : Prop :=
  (res = Error PuzzleUnsolvable /\ q = p /\ fullb p = false) \/
  (res = Solution q /\ fills p q).

(** The array between two turns of the loop over the candidates of cell
    [i] of [p]: not complete and equal to [p] except at [i], or a filling
    of [p]. *)
Definition loopState (p : list ascii) (i : nat) (arr : list ascii) : Prop :=
  (fullb arr = false /\ exists w, arr = setNth i w p) \/ fills p arr.

(** Every cell before position [k] is free of conflicts. *)
Definition prefixFreeb (p : list ascii) (k : nat) : bool :=
  forallb (fun i => match nth_error p i with
                    | Some c => freeAtb p i c
                    | None => true
                    end) (seq 0 k).

Definition solvedResult : CheckSolvedResult := mkCheckSolved true None None.

Definition notSolvedResult : CheckSolvedResult :=
  mkCheckSolved false (Some PuzzleNotSolved) None.

(** The conflict list [checkSolve] builds for cell [i] holding [c]. *)
Definition conflictsAt (p : list ascii) (i : nat) (c : ascii) : list string :=
  (if freeInb sameRowb p i c then [] else ["row"%string])
  ++ (if freeInb sameColb p i c then [] else ["column"%string])
  ++ (if freeInb sameRegionb p i c then [] else ["region"%string]).

(** Concrete puzzles used as examples. *)
Definition allOnes : jsstring := repeat "1"%char 81.

Definition twoOnes : jsstring := "1"%char :: "1"%char :: repeat "."%char 79.

Definition unsolvablePuzzle : jsstring :=
  setNth 0 "1"%char (setNth 1 "1"%char testPuzzle).

Definition almostSolved : jsstring := setNth 40 "."%char testSolution.

Definition allZeros : jsstring := repeat "0"%char 81.

(** The array [puzzle] of the generator when [cursor] cells are drawn:
    [cursor] digits of 1..9, no two of them in conflict. *)
Definition genState (puzzle : list jsval) (cursor : nat) : Prop :=
  exists zs : list Z,
    puzzle = map JNum zs /\
    Forall (fun z => 1 <= z <= 9)%Z zs /\
    length zs = cursor /\
    conflictFreeb (map digitChar zs) = true.

(** The character an element of the generator's array contributes to the
    joined string. *)
Definition cellChar (v : jsval) : ascii :=
  match v with
  | JNum z => digitChar z
  | _ => emptyMarker
  end.

(** The puzzle [generate] returns under [testRandom]. *)
Definition generatedPuzzle : jsstring :=
  lit ".6.2.5.1.8.1.9.3.2.3.1.8.5.1.4.6.2.3.9.8.2.6.6.8.1.5.9.8.6.7.9.5.6.2.8.7.4.3.1.2.".

(** Hiding cells: every element stays the drawn digit or becomes the
    empty marker. *)
Definition hiddenFrom (zs : list Z) (a : list jsval) : Prop :=
  length a = length zs /\
  forall k z, nth_error zs k = Some z ->
    nth_error a k = Some (JNum z) \/ nth_error a k = Some (JStr (lit ".")).

(** The nine cells of the row of cell [i]. *)
Definition rowCells (p : list ascii) (i : nat) : list ascii :=
  firstn 9 (skipn (9 * (i / 9)) p).

(** The grid of the placement scenarios: a 1 at A1, nothing else. *)
Definition oneAtA1 : jsstring := "1"%char :: repeat "."%char 80.

(** ** API routes ([routes/api.js])

    A field of the request body is absent (or null), a string, a number
    or an array of strings.  A number is a double whose value is an
    integer, and is held as that integer.  Fractions, booleans, objects
    and arrays of other values are not modelled: the properties of the
    handlers speak of the requests made of these four kinds of field. *)

Inductive jsfield :=
| FMissing
| FStr (s : jsstring)
| FNum (n : Z)
| FArr (a : list jsstring).

(** [!field]: absent, the empty string, or the number 0; an array is
    never falsy. *)
Definition falsy (f : jsfield) : bool :=
  match f with
  | FMissing => true
  | FStr [] => true
  | FStr _ => false
  | FNum n => (n =? 0)%Z
  | FArr _ => false
  end.

(** [String(a)] on an array of strings: the elements, separated by
    commas. *)
Fixpoint arrayText (a : list jsstring) : jsstring :=
  match a with
  | [] => []
  | [s] => s
  | s :: a' => s ++ ","%char :: arrayText a'
  end.

(** The value of a character as a digit of a radix up to 36. *)
Definition digitValue (c : ascii) : option Z :=
  let n := nat_of_ascii c in
  if (48 <=? n) && (n <=? 57) then Some (Z.of_nat n - 48)%Z
  else if (97 <=? n) && (n <=? 122) then Some (Z.of_nat n - 87)%Z
  else if (65 <=? n) && (n <=? 90) then Some (Z.of_nat n - 55)%Z
  else None.

Fixpoint trimStart (s : jsstring) : jsstring :=
  match s with
  | c :: s' => if isWhiteSpace c then trimStart s' else s
  | [] => []
  end.

(** The longest prefix of digits of the radix, read as a number; NaN when
    it is empty. *)
Fixpoint parseDigits (radix acc : Z) (seen : bool) (s : jsstring) : jsnum :=
  match s with
  | c :: s' =>
    match digitValue c with
    | Some d =>
      if (d <? radix)%Z then parseDigits radix (acc * radix + d)%Z true s'
      else if seen then Num acc else NaN
    | None => if seen then Num acc else NaN
    end
  | [] => if seen then Num acc else NaN
  end.

(** [parseInt(s)] on a string, without a radix: leading white space, a
    sign, a prefix [0x] or [0X] that selects radix 16, then digits.  The
    result is kept exact; the program only compares it with 0 and 9. *)
Definition parseInt (s : jsstring) : jsnum :=
  let s := trimStart s in
  let '(sign, s) :=
    match s with
    | "-"%char :: s' => ((-1)%Z, s')
    | "+"%char :: s' => (1%Z, s')
    | _ => (1%Z, s)
    end in
  let '(radix, s) :=
    match s with
    | "0"%char :: "x"%char :: s' => (16%Z, s')
    | "0"%char :: "X"%char :: s' => (16%Z, s')
    | _ => (10%Z, s)
    end in
  match parseDigits radix 0 false s with
  | Num n => Num (sign * n)
  | NaN => NaN
  end.

(** The number of decimal digits of [x], counted from [n] up. *)
Fixpoint decimalLength (fuel : nat) (x n : Z) : Z :=
  match fuel with
  | O => n
  | S fuel' => if (x <? 10 ^ n)%Z then n else decimalLength fuel' x (n + 1)%Z
  end.

(** The text of a number [x] of [n] decimal digits, from [10^21] on, is
    in exponential notation: its digits are the shortest decimal [s], of
    [k] digits, for which [s * 10^(n - k)] reads back as the double [x],
    with a point after the first digit and the exponent after an [e].
    This is the first digit of that text; [s] is sought among the two
    decimals of [k] digits next to [x], for [k] from 1 up (17 digits
    always read back). *)
Fixpoint exponentLeadFrom (fuel : nat) (x n k : Z) : Z :=
  match fuel with
  | O => (x / 10 ^ (n - 1))%Z
  | S fuel' =>
    let e := (n - k)%Z in
    let s := (x / 10 ^ e)%Z in
    if (roundInteger (s * 10 ^ e) =? x)%Z then (s / 10 ^ (k - 1))%Z
    else if (roundInteger ((s + 1) * 10 ^ e) =? x)%Z
    then (if (s + 1 =? 10 ^ k)%Z then 1%Z else ((s + 1) / 10 ^ (k - 1))%Z)
    else exponentLeadFrom fuel' x n (k + 1)%Z
  end.

Definition exponentLead (x : Z) : Z :=
  exponentLeadFrom 17 x (decimalLength 310 x 22) 1.

(** [parseInt(value)] on a field of the body: [parseInt] reads the text
    of the field.  The text of a number below [10^21] in magnitude is a
    decimal integer that reads back as the number; from [10^21] on the
    text is in exponential notation and [parseInt], which stops at the
    point or at the [e], reads its sign and its first digit. *)
Definition parseIntField (f : jsfield) : jsnum :=
  match f with
  | FMissing => NaN                 (* the text "undefined" *)
  | FStr s => parseInt s
  | FNum n =>
    if (Z.abs n <? 10 ^ 21)%Z then Num n
    else Num (Z.sgn n * exponentLead (Z.abs n))
  | FArr a => parseInt (arrayText a)
  end.

(** [/^[A-I][1-9]$/.test(coordinate)]. *)
Definition coordinateRegex_test (coordinate : jsstring) : bool :=
  match coordinate with
  | [r; c] =>
    (65 <=? nat_of_ascii r) && (nat_of_ascii r <=? 73)
    && (49 <=? nat_of_ascii c) && (nat_of_ascii c <=? 57)
  | _ => false
  end.

(** The body of a response of [/api/check]: [{ error }], or [{ valid }]
    with the conflict list when not valid. *)
Inductive CheckResponse :=
| CheckError (error : string)
| CheckVerdict (valid : bool) (conflict : option (list string)).

Definition RequiredFieldsMissing : string := "Required field(s) missing".
Definition PuzzleMustBeString : string := "Puzzle must be a string".
Definition CoordinateMustBeString : string := "Coordinate must be a string".
Definition InvalidValue : string := "Invalid value".
Definition InvalidCoordinate : string := "Invalid coordinate".
Definition RequiredFieldMissing : string := "Required field missing".

(** The handler of [POST /api/check]. *)
Definition checkRoute (puzzle coordinate value : jsfield)
  : outcome CheckResponse :=
  if falsy puzzle || falsy coordinate || falsy value
  then Returns (CheckError RequiredFieldsMissing)
  else
    match puzzle with
    | FStr puzzle =>
      match coordinate with
      | FStr coordinate =>
        match parseIntField value with
        | NaN => Returns (CheckError InvalidValue)
        | Num value =>
          if (value <? 0)%Z || (value >? 9)%Z
          then Returns (CheckError InvalidValue)
          else
            match validate puzzle with
            | ValidateErr e => Returns (CheckError e)
            | ValidateOk =>
              if negb (coordinateRegex_test coordinate)
              then Returns (CheckError InvalidCoordinate)
              else
                match coordinate with
                | rowLetter :: c1 :: _ =>
                  (* [+coordinate[1]] on a digit *)
                  let columnNumber := (charCode c1 - 48)%Z in
                  let value := numText value in
                  let rowCheck :=
                    checkRowPlacement puzzle rowLetter columnNumber value in
                  let columnCheck :=
                    checkColPlacement puzzle rowLetter columnNumber value in
                  regionCheck <-
                    checkRegionPlacement puzzle rowLetter columnNumber value ;;
                  let conflicts :=
                    (if valid rowCheck then [] else ["row"%string])
                    ++ (if valid columnCheck then [] else ["column"%string])
                    ++ (if valid regionCheck then [] else ["region"%string]) in
                  let responseValid := length conflicts =? 0 in
                  Returns (CheckVerdict responseValid
                             (if responseValid then None else Some conflicts))
                | _ => Throws     (* excluded by the test above *)
                end
            end
        end
      | _ => Returns (CheckError CoordinateMustBeString)
      end
    | _ => Returns (CheckError PuzzleMustBeString)
    end.

(** The handler of [POST /api/solve]: the response is the result of
    [solve].  On a number, [validate] finds no length of 81; on an array
    it compares the number of elements with 81 and then tests the text of
    the array. *)
Definition solveRoute (puzzle : jsfield) : outcome SolveResult :=
  if falsy puzzle then Returns (Error RequiredFieldMissing)
  else
    match puzzle with
    | FStr puzzle => solve puzzle
    | FNum _ => Returns (Error WrongLength)
    | FArr a =>
      if negb (length a =? 81) then Returns (Error WrongLength)
      else if negb (validPuzzleRegex_test (arrayText a))
      then Returns (Error InvalidCharacters)
      else Throws   (* not reached: the text of 81 elements holds commas *)
    | FMissing => Returns (Error RequiredFieldMissing)
    end.

(** Every cell of [p] is empty or holds a digit of 1..9. *)
Definition digitsOrEmptyb (p : list ascii) : bool :=
  forallb (fun c => isEmptyb c || isPlacedDigit c) p.

(** An array of 82 cells whose only empty cell is the last one. *)
Definition tooLong : list ascii := repeat "1"%char 81 ++ ["."%char].

(** * Properties *)

(** ** Strings and arrays *)

Lemma str_eqb_single (a b : ascii) : str_eqb [a] [b] = Ascii.eqb a b.
Proof. simpl. apply andb_true_r. Qed.

Lemma strictEq_single (e : option ascii) (c : ascii) :
  strictEq e [c] = true <-> e = Some c.
Proof.
  destruct e as [d|]; simpl.
  - rewrite andb_true_r, Ascii.eqb_eq. split; congruence.
  - split; discriminate.
Qed.

Lemma getZ_of_nat {A} (s : list A) (n : nat) :
  getZ s (Z.of_nat n) = nth_error s n.
Proof.
  unfold getZ. destruct (Z.ltb_spec (Z.of_nat n) 0); [lia|].
  now rewrite Nat2Z.id.
Qed.

Lemma includes_single (s : jsstring) (c : ascii) :
  includes s [c] = true <-> In c s.
Proof.
  induction s as [|d s IH]; simpl.
  - split; [discriminate | tauto].
  - rewrite orb_true_iff, IH.
    assert (H : ((c =? d)%char && true) = true <-> d = c).
    { rewrite andb_true_r, Ascii.eqb_eq. split; congruence. }
    destruct s; simpl in *; tauto.
Qed.

Lemma slice_of_nat {A} (s : list A) (a b : nat) :
  slice s (Z.of_nat a) (Z.of_nat b) = firstn (b - a) (skipn a s).
Proof.
  unfold slice, relIndex.
  destruct (Z.ltb_spec (Z.of_nat a) 0); [lia|].
  destruct (Z.ltb_spec (Z.of_nat b) 0); [lia|].
  destruct (Nat.le_gt_cases a (length s)) as [Ha|Ha].
  - rewrite (Z.min_l (Z.of_nat a)) by lia. rewrite Nat2Z.id.
    destruct (Nat.le_gt_cases b (length s)) as [Hb|Hb].
    + rewrite Z.min_l by lia. f_equal. lia.
    + rewrite Z.min_r by lia.
      rewrite !firstn_all2; trivial; rewrite length_skipn; lia.
  - rewrite (Z.min_r (Z.of_nat a)) by lia. rewrite Nat2Z.id.
    rewrite !(skipn_all2 s) by lia. now rewrite !firstn_nil.
Qed.

Lemma sliceFrom_of_nat {A} (s : list A) (a : nat) :
  sliceFrom s (Z.of_nat a) = skipn a s.
Proof.
  unfold sliceFrom, relIndex.
  destruct (Z.ltb_spec (Z.of_nat a) 0); [lia|].
  destruct (Nat.le_gt_cases a (length s)) as [Ha|Ha].
  - rewrite Z.min_l by lia. now rewrite Nat2Z.id.
  - rewrite Z.min_r by lia. rewrite Nat2Z.id.
    now rewrite !skipn_all2 by lia.
Qed.

(** Removing the element at position [k] leaves the elements at the other
    positions. *)
Lemma In_remove_nth {A} (l : list A) (k : nat) (c : A) :
  In c (firstn k l ++ skipn (S k) l) <->
  exists j, j <> k /\ nth_error l j = Some c.
Proof.
  revert k; induction l as [|h l IH]; intros k.
  - rewrite firstn_nil, skipn_nil. simpl. split; [tauto|].
    intros (j & _ & Hj). now destruct j.
  - destruct k as [|k].
    + simpl. rewrite In_iff_nth_error. split.
      * intros (n & Hn). exists (S n). split; [lia|exact Hn].
      * intros (j & Hj & Hn). destruct j; [lia|]. eauto.
    + change (In c (h :: (firstn k l ++ skipn (S k) l)) <->
              exists j, j <> S k /\ nth_error (h :: l) j = Some c).
      simpl In. rewrite IH. split.
      * intros [->|(j & Hj & Hn)].
        -- exists 0. split; [lia|reflexivity].
        -- exists (S j). split; [lia|exact Hn].
      * intros (j & Hj & Hn). destruct j as [|j].
        -- left. simpl in Hn. congruence.
        -- right. exists j. split; [lia|exact Hn].
Qed.

Lemma indexOfFrom_single (s : jsstring) (c : ascii) (pos : Z) :
  In c s ->
  exists k, indexOfFrom s [c] pos = (pos + Z.of_nat k)%Z /\ nth_error s k = Some c.
Proof.
  revert pos; induction s as [|d s IH]; intros pos Hin; [destruct Hin|].
  simpl. destruct (Ascii.eqb_spec c d) as [->|Hne]; simpl.
  - exists 0. split; [lia|reflexivity].
  - destruct Hin as [->|Hin]; [congruence|].
    destruct (IH (pos + 1)%Z Hin) as (k & Hk & Hn).
    exists (S k). split; [lia|exact Hn].
Qed.

Lemma arrIndexOfFrom_single (s : list ascii) (c : ascii) (pos : Z) :
  arrIndexOfFrom s [c] pos = indexOfFrom s [c] pos.
Proof.
  revert pos; induction s as [|d s IH]; intros pos; simpl; [reflexivity|].
  rewrite andb_true_r, (eqb_sym d c).
  destruct (c =? d)%char; simpl; [reflexivity|apply IH].
Qed.

Lemma In_arrToString (s : list ascii) (c : ascii) :
  c <> ","%char -> (In c (arrToString s) <-> In c s).
Proof.
  intros Hc. induction s as [|d s IH]; [reflexivity|].
  destruct s as [|e s]; [reflexivity|].
  change (arrToString (d :: e :: s))
    with (d :: ","%char :: arrToString (e :: s)).
  simpl In at 1. rewrite IH. simpl. split; intuition congruence.
Qed.

Lemma arrIncludes_map_Some (s : list ascii) (c : ascii) :
  arrIncludes (map Some s) [c] = true <-> In c s.
Proof.
  unfold arrIncludes. rewrite existsb_exists. split.
  - intros (e & He & Heq). apply strictEq_single in Heq. subst e.
    apply in_map_iff in He. destruct He as (d & Hd & Hin). congruence.
  - intros Hin. exists (Some c). split; [now apply in_map|].
    now apply strictEq_single.
Qed.

(** ** Coordinates of a linear index *)

Lemma rowLetter_of_row (y : nat) :
  y < 9 ->
  exists r, nth_error rowLetters y = Some r /\
            charCode r = (65 + Z.of_nat y)%Z.
Proof.
  intros Hy.
  do 9 (destruct y as [|y]; [eexists; split; reflexivity|]).
  lia.
Qed.

Lemma toBaseZeroCoordinate_in_range (r : ascii) (c : Z) :
  (65 <= charCode r <= 73)%Z -> (1 <= c <= 9)%Z ->
  toBaseZeroCoordinate r c
  = Some (c - 1, charCode r - 65, 9 * (charCode r - 65) + (c - 1))%Z.
Proof.
  intros Hr Hc. unfold toBaseZeroCoordinate.
  change (charCode "A") with 65%Z.
  destruct (Z.ltb_spec (charCode r - 65) 0); [lia|].
  destruct (Z.gtb_spec (charCode r - 65) 8); [lia|].
  destruct (Z.ltb_spec (c - 1) 0); [lia|].
  destruct (Z.gtb_spec (c - 1) 8); [lia|].
  reflexivity.
Qed.

Lemma coord_of_index (i : nat) :
  i < 81 ->
  exists r,
    toLetterNumberCoordinate (Z.of_nat i) = (Some r, Z.of_nat (i mod 9 + 1)) /\
    toBaseZeroCoordinate r (Z.of_nat (i mod 9 + 1))
    = Some (Z.of_nat (i mod 9), Z.of_nat (i / 9), Z.of_nat i).
Proof.
  intros Hi.
  destruct (rowLetter_of_row (i / 9)) as (r & Hr & Hcode); [lia|].
  exists r. split.
  - unfold toLetterNumberCoordinate. f_equal.
    + replace (Z.of_nat i / 9)%Z with (Z.of_nat (i / 9)) by lia.
      now rewrite getZ_of_nat.
    + rewrite Z.rem_mod_nonneg by lia. lia.
  - rewrite toBaseZeroCoordinate_in_range by lia.
    repeat f_equal; lia.
Qed.

Lemma freeInb_spec (rel : nat -> nat -> bool) (p : list ascii) (i : nat)
    (c : ascii) :
  freeInb rel p i c = true <->
  forall j, j < 81 -> j <> i -> rel i j = true -> nth_error p j <> Some c.
Proof.
  unfold freeInb. rewrite forallb_forall. split.
  - intros H j Hj Hne Hrel Hnth.
    assert (Hin : In j (seq 0 81)) by (apply in_seq; lia).
    specialize (H j Hin). unfold holdsb in H. rewrite Hnth, Hrel in H.
    rewrite Ascii.eqb_refl in H.
    destruct (Nat.eqb_spec j i); [contradiction|discriminate H].
  - intros H j Hin. apply in_seq in Hin.
    destruct (Nat.eqb_spec j i) as [|Hne]; [reflexivity|].
    destruct (rel i j) eqn:Hrel; [|reflexivity].
    simpl. unfold holdsb.
    destruct (nth_error p j) as [d|] eqn:Hnth; [|reflexivity].
    destruct (Ascii.eqb_spec d c) as [->|]; [|reflexivity].
    exfalso. apply (H j); auto. lia.
Qed.

Lemma nth_error_row (p : list ascii) (y k : nat) :
  nth_error (firstn 9 (skipn (9 * y) p)) k
  = if k <? 9 then nth_error p (9 * y + k) else None.
Proof. now rewrite nth_error_firstn, nth_error_skipn. Qed.

(** ** The placement checks, characterised *)

Lemma In_nine (k : Z) : In k nine <-> (0 <= k < 9)%Z.
Proof. unfold nine. simpl. lia. Qed.

Lemma In_three (k : Z) : In k three <-> (0 <= k < 3)%Z.
Proof. unfold three. simpl. lia. Qed.

Section Checks.

Variables (p : list ascii) (i : nat) (r : ascii) (column : Z) (c : ascii).
Hypothesis Hi : i < 81.
Hypothesis Hcoord :
  toBaseZeroCoordinate r column
  = Some (Z.of_nat (i mod 9), Z.of_nat (i / 9), Z.of_nat i).

Lemma rowCells_nth (k : nat) (d : ascii) :
  nth_error (rowCells p i) k = Some d <-> k < 9 /\ nth_error p (9 * (i / 9) + k) = Some d.
Proof.
  unfold rowCells. rewrite nth_error_row.
  destruct (Nat.ltb_spec k 9); split; intros; try tauto; try discriminate.
  lia.
Qed.

Lemma rowFree_iff :
  (forall j, j < 81 -> j <> i -> sameRowb i j = true -> nth_error p j <> Some c)
  <-> (forall k, k <> i mod 9 -> nth_error (rowCells p i) k <> Some c).
Proof.
  unfold sameRowb. split.
  - intros H k Hk Hnth. apply rowCells_nth in Hnth as [Hk9 Hnth].
    apply (H (9 * (i / 9) + k)); trivial; try lia.
    apply Nat.eqb_eq. lia.
  - intros H j Hj Hne Hrow Hnth. apply Nat.eqb_eq in Hrow.
    apply (H (j mod 9)); [lia|].
    apply rowCells_nth. split; [lia|].
    now replace (9 * (i / 9) + j mod 9) with j by lia.
Qed.

Lemma checkRowPlacement_spec :
  valid (checkRowPlacement p r column [c]) = freeInb sameRowb p i c.
Proof.
  apply eq_iff_eq_true. rewrite freeInb_spec, rowFree_iff.
  unfold checkRowPlacement. rewrite Hcoord.
  replace (9 * Z.of_nat (i / 9))%Z with (Z.of_nat (9 * (i / 9))) by lia.
  replace (Z.of_nat (9 * (i / 9)) + 9)%Z with (Z.of_nat (9 * (i / 9) + 9)) by lia.
  rewrite slice_of_nat, getZ_of_nat.
  replace (9 * (i / 9) + 9 - 9 * (i / 9)) with 9 by lia.
  fold (rowCells p i).
  destruct (strictEq (nth_error p i) [c]) eqn:Hcell; cbn [valid].
  - apply strictEq_single in Hcell.
    assert (Hx : nth_error (rowCells p i) (i mod 9) = Some c).
    { apply rowCells_nth. split; [lia|].
      now replace (9 * (i / 9) + i mod 9) with i by lia. }
    destruct (indexOfFrom_single (rowCells p i) c 0 (nth_error_In _ _ Hx))
      as (k0 & Hk0 & Hk0c).
    unfold indexOf. rewrite Hk0. rewrite Z.add_0_l.
    change 0%Z with (Z.of_nat 0).
    replace (Z.of_nat k0 + 1)%Z with (Z.of_nat (S k0)) by lia.
    rewrite slice_of_nat, sliceFrom_of_nat, Nat.sub_0_r.
    change (skipn 0 (rowCells p i)) with (rowCells p i).
    rewrite negb_true_iff, <- not_true_iff_false, includes_single, In_remove_nth.
    split.
    + intros H k Hk Hnth. apply H.
      destruct (Nat.eq_dec k k0) as [->|Hkk]; eauto.
    + intros H (j & Hj & Hnth).
      destruct (Nat.eq_dec j (i mod 9)) as [->|Hjx].
      * apply (H k0); auto.
      * apply (H j); auto.
  - rewrite negb_true_iff, <- not_true_iff_false, includes_single.
    rewrite In_iff_nth_error. split.
    + intros H k _ Hnth. apply H. eauto.
    + intros H (k & Hnth).
      destruct (Nat.eq_dec k (i mod 9)) as [->|Hkx]; [|now apply (H k)].
      apply rowCells_nth in Hnth as [_ Hnth].
      replace (9 * (i / 9) + i mod 9) with i in Hnth by lia.
      apply strictEq_single in Hnth. congruence.
Qed.


Lemma checkColPlacement_spec :
  valid (checkColPlacement p r column [c]) = freeInb sameColb p i c.
Proof.
  apply eq_iff_eq_true. rewrite freeInb_spec.
  unfold checkColPlacement. rewrite Hcoord. cbn [valid].
  rewrite negb_true_iff, <- not_true_iff_false.
  unfold arrIncludes. rewrite existsb_exists. unfold sameColb. split.
  - intros H j Hj Hne Hcol Hnth. apply Nat.eqb_eq in Hcol. apply H.
    exists (Some c). split; [|now apply strictEq_single].
    apply in_flat_map. exists (Z.of_nat (j / 9)). split.
    + apply In_nine. lia.
    + replace (Z.of_nat (i mod 9) + Z.of_nat (j / 9) * 9)%Z
        with (Z.of_nat j) by lia.
      destruct (Z.eqb_spec (Z.of_nat i) (Z.of_nat j)); [lia|].
      cbn [andb]. rewrite getZ_of_nat, Hnth. now left.
  - intros H (e & Hin & He). apply strictEq_single in He. subst e.
    apply in_flat_map in Hin. destruct Hin as (k & Hk & Hin).
    apply In_nine in Hk.
    replace (Z.of_nat (i mod 9) + k * 9)%Z
      with (Z.of_nat (i mod 9 + Z.to_nat k * 9)) in Hin by lia.
    rewrite !getZ_of_nat in Hin.
    destruct (Z.eqb_spec (Z.of_nat i) (Z.of_nat (i mod 9 + Z.to_nat k * 9)))
      as [Heq|Hne]; cbn [andb] in Hin.
    + apply Nat2Z.inj in Heq. rewrite <- Heq in Hin.
      destruct (strictEq (nth_error p i) [c]) eqn:Hs; [destruct Hin|].
      destruct Hin as [Hin|[]]. apply strictEq_single in Hin. congruence.
    + destruct Hin as [Hin|[]].
      apply (H (i mod 9 + Z.to_nat k * 9)); auto; try lia.
      apply Nat.eqb_eq. lia.
Qed.

Lemma checkRegionPlacement_spec :
  checkRegionPlacement p r column [c]
  = Returns (mkCheck (freeInb sameRegionb p i c)).
Proof.
  unfold checkRegionPlacement. rewrite Hcoord. do 2 f_equal.
  apply eq_iff_eq_true. rewrite freeInb_spec.
  rewrite negb_true_iff, <- not_true_iff_false.
  unfold arrIncludes. rewrite existsb_exists. unfold sameRegionb.
  cbn [fst snd]. split.
  - intros H j Hj Hne Hreg Hnth. apply andb_prop in Hreg as [H1 H2].
    apply Nat.eqb_eq in H1, H2. apply H.
    exists (Some c). split; [|now apply strictEq_single].
    apply in_flat_map. exists (Z.of_nat (j / 9 mod 3)). split.
    { apply In_three. lia. }
    apply in_flat_map. exists (Z.of_nat (j mod 3)). split.
    { apply In_three. lia. }
    replace (9 * (Z.of_nat (i / 9) / 3 * 3 + Z.of_nat (j / 9 mod 3))
             + (Z.of_nat (i mod 9) / 3 * 3 + Z.of_nat (j mod 3)))%Z
      with (Z.of_nat j) by lia.
    destruct (Z.eqb_spec (Z.of_nat i) (Z.of_nat j)); [lia|].
    cbn [andb]. rewrite getZ_of_nat, Hnth. now left.
  - intros H (e & Hin & He). apply strictEq_single in He. subst e.
    apply in_flat_map in Hin. destruct Hin as (a & Ha & Hin).
    apply in_flat_map in Hin. destruct Hin as (b & Hb & Hin).
    apply In_three in Ha, Hb.
    set (j := 9 * (i / 9 / 3 * 3 + Z.to_nat a)
              + (i mod 9 / 3 * 3 + Z.to_nat b)).
    replace (9 * (Z.of_nat (i / 9) / 3 * 3 + a)
             + (Z.of_nat (i mod 9) / 3 * 3 + b))%Z
      with (Z.of_nat j) in Hin by lia.
    rewrite !getZ_of_nat in Hin.
    destruct (Z.eqb_spec (Z.of_nat i) (Z.of_nat j)) as [Heq|Hne];
      cbn [andb] in Hin.
    + apply Nat2Z.inj in Heq. rewrite <- Heq in Hin.
      destruct (strictEq (nth_error p i) [c]) eqn:Hs; [destruct Hin|].
      destruct Hin as [Hin|[]]. apply strictEq_single in Hin. congruence.
    + destruct Hin as [Hin|[]].
      apply (H j); auto; try lia.
      apply andb_true_intro. split; apply Nat.eqb_eq; lia.
Qed.

Lemma checkPlacement_spec :
  checkPlacement p r column [c] = Returns (mkCheck (freeAtb p i c)).
Proof.
  unfold checkPlacement, checkAll, freeAtb.
  rewrite checkRowPlacement_spec, checkColPlacement_spec,
    checkRegionPlacement_spec.
  destruct (freeInb sameRowb p i c), (freeInb sameColb p i c); reflexivity.
Qed.

End Checks.

Lemma checkRowPlacementArr_string (p : list ascii) (r : ascii) (column : Z)
    (c : ascii) :
  c <> ","%char ->
  checkRowPlacementArr p r column [c] = checkRowPlacement p r column [c].
Proof.
  intros Hc. unfold checkRowPlacementArr, checkRowPlacement.
  destruct (toBaseZeroCoordinate r column) as [[[x y] cell]|]; [|reflexivity].
  destruct (strictEq (getZ p cell) [c]); do 2 f_equal; apply eq_iff_eq_true.
  - unfold arrIndexOf, indexOf. rewrite arrIndexOfFrom_single.
    rewrite !includes_single, !in_app_iff, !In_arrToString by assumption.
    reflexivity.
  - now rewrite arrIncludes_map_Some, includes_single.
Qed.

Lemma checkPlacementArr_string (p : list ascii) (r : ascii) (column : Z)
    (c : ascii) :
  c <> ","%char ->
  checkPlacementArr p r column [c] = checkPlacement p r column [c].
Proof.
  intros Hc. unfold checkPlacementArr, checkPlacement.
  now rewrite checkRowPlacementArr_string.
Qed.

(** ** The scan for the next empty cell *)

Lemma coord_at (i : nat) :
  i < 81 ->
  toLetterNumberCoordinate (Z.of_nat i) = (Some (rowLetterAt i), columnAt i) /\
  toBaseZeroCoordinate (rowLetterAt i) (columnAt i)
  = Some (Z.of_nat (i mod 9), Z.of_nat (i / 9), Z.of_nat i).
Proof.
  intros Hi. destruct (coord_of_index i Hi) as (r & H1 & H2).
  assert (Hr : rowLetterAt i = r).
  { unfold rowLetterAt. unfold toLetterNumberCoordinate in H1.
    injection H1 as H1 _.
    replace (Z.of_nat i / 9)%Z with (Z.of_nat (i / 9)) in H1 by lia.
    rewrite getZ_of_nat in H1. now rewrite H1. }
  unfold columnAt. rewrite Hr. auto.
Qed.

Lemma numText_digit (v : Z) :
  (0 <= v <= 9)%Z -> numText v = [digitChar v].
Proof.
  intros Hv.
  assert (H : (v = 0 \/ v = 1 \/ v = 2 \/ v = 3 \/ v = 4 \/ v = 5 \/ v = 6
               \/ v = 7 \/ v = 8 \/ v = 9)%Z) by lia.
  repeat (destruct H as [->|H]; [reflexivity|]). now subst v.
Qed.

Lemma digitChar_not_comma (v : Z) :
  (0 <= v <= 9)%Z -> digitChar v <> ","%char.
Proof.
  intros Hv.
  assert (H : (v = 0 \/ v = 1 \/ v = 2 \/ v = 3 \/ v = 4 \/ v = 5 \/ v = 6
               \/ v = 7 \/ v = 8 \/ v = 9)%Z) by lia.
  repeat (destruct H as [->|H]; [discriminate|]). now subst v.
Qed.

Lemma possibleValues_spec (p : list ascii) (i : nat) (vs : list Z) :
  i < 81 ->
  Forall (fun v => 0 <= v <= 9)%Z vs ->
  possibleValues p (rowLetterAt i) (columnAt i) vs
  = Returns (filter (freeAtb p i) (map digitChar vs)).
Proof.
  intros Hi Hvs. destruct (coord_at i Hi) as [_ Hc].
  induction Hvs as [|v vs Hv Hvs IH]; [reflexivity|].
  cbn [possibleValues map filter]. rewrite IH, (numText_digit v Hv).
  rewrite checkPlacementArr_string by now apply digitChar_not_comma.
  rewrite (checkPlacement_spec p i _ _ _ Hi Hc). reflexivity.
Qed.

Lemma oneToNine_range : Forall (fun v => 0 <= v <= 9)%Z oneToNine.
Proof. unfold oneToNine. repeat constructor; lia. Qed.

Lemma getNextEmptyCellFrom_spec (p : list ascii) (k : nat) (rest : list ascii) :
  k + length rest <= 81 ->
  getNextEmptyCellFrom p k rest
  = Returns (option_map (cellAt p) (firstEmptyFrom k rest)).
Proof.
  revert k; induction rest as [|c rest IH]; intros k Hk; [reflexivity|].
  cbn [getNextEmptyCellFrom firstEmptyFrom]. unfold isEmptyb, emptyMarker.
  simpl in Hk.
  destruct (Ascii.eqb c "."); [|apply IH; lia].
  destruct (coord_at k) as [Hl _]; [lia|]. rewrite Hl. cbn [ofOption bind].
  rewrite possibleValues_spec by (try lia; apply oneToNine_range).
  reflexivity.
Qed.

Lemma getNextEmptyCell_spec (p : list ascii) :
  length p <= 81 ->
  getNextEmptyCell p = Returns (option_map (cellAt p) (firstEmpty p)).
Proof. intros Hp. now apply getNextEmptyCellFrom_spec. Qed.

Lemma firstEmptyFrom_Some (k : nat) (rest : list ascii) (i : nat) :
  firstEmptyFrom k rest = Some i ->
  k <= i /\ nth_error rest (i - k) = Some emptyMarker /\
  forall j, j < i - k -> nth_error rest j <> Some emptyMarker.
Proof.
  revert k; induction rest as [|c rest IH]; intros k H; [discriminate|].
  cbn [firstEmptyFrom] in H. unfold isEmptyb in H.
  destruct (Ascii.eqb_spec c emptyMarker) as [->|Hc].
  - injection H as <-. rewrite Nat.sub_diag. repeat split; trivial.
    intros j Hj. lia.
  - apply IH in H as (Hle & Hnth & Hbefore).
    replace (i - k) with (S (i - S k)) by lia. repeat split; try lia; trivial.
    intros [|j] Hj; simpl; [congruence|]. apply Hbefore. lia.
Qed.

Lemma firstEmptyFrom_None (k : nat) (rest : list ascii) :
  firstEmptyFrom k rest = None <-> fullb rest = true.
Proof.
  revert k; induction rest as [|c rest IH]; intros k; [easy|].
  cbn [firstEmptyFrom fullb forallb].
  destruct (isEmptyb c); simpl; [easy|apply IH].
Qed.

Lemma firstEmpty_Some (p : list ascii) (i : nat) :
  firstEmpty p = Some i ->
  nth_error p i = Some emptyMarker /\ i < length p /\ fullb p = false.
Proof.
  intros H. pose proof H as H'.
  apply firstEmptyFrom_Some in H as (_ & Hnth & _).
  rewrite Nat.sub_0_r in Hnth. repeat split; trivial.
  - apply nth_error_Some. congruence.
  - apply not_true_iff_false. intros Hf.
    apply (firstEmptyFrom_None 0) in Hf. unfold firstEmpty in H'. congruence.
Qed.

Lemma firstEmpty_None (p : list ascii) :
  firstEmpty p = None <-> fullb p = true.
Proof. apply firstEmptyFrom_None. Qed.

(** ** Arrays updated in place *)

Lemma length_setNth {A} (i : nat) (v : A) (l : list A) :
  length (setNth i v l) = length l.
Proof.
  revert i; induction l as [|h l IH]; intros [|i]; simpl; auto.
Qed.

Lemma nth_error_setNth_eq {A} (i : nat) (v : A) (l : list A) :
  i < length l -> nth_error (setNth i v l) i = Some v.
Proof.
  revert i; induction l as [|h l IH]; intros [|i] Hi; simpl in *;
    try lia; auto. apply IH. lia.
Qed.

Lemma nth_error_setNth_neq {A} (i j : nat) (v : A) (l : list A) :
  j <> i -> nth_error (setNth i v l) j = nth_error l j.
Proof.
  revert i j; induction l as [|h l IH]; intros [|i] [|j] Hne; simpl;
    try lia; auto.
Qed.

Lemma setNth_setNth {A} (i : nat) (v w : A) (l : list A) :
  setNth i v (setNth i w l) = setNth i v l.
Proof.
  revert i; induction l as [|h l IH]; intros [|i]; simpl; auto.
  now rewrite IH.
Qed.

Lemma setNth_same {A} (i : nat) (v : A) (l : list A) :
  nth_error l i = Some v -> setNth i v l = l.
Proof.
  revert i; induction l as [|h l IH]; intros [|i] H; simpl in *; auto.
  - congruence.
  - now rewrite IH.
Qed.

Lemma nth_error_eq {A} (l l' : list A) :
  (forall k, nth_error l k = nth_error l' k) -> l = l'.
Proof.
  revert l'; induction l as [|h l IH]; intros [|h' l'] H; trivial.
  - specialize (H 0). discriminate.
  - specialize (H 0). discriminate.
  - f_equal.
    + specialize (H 0). simpl in H. congruence.
    + apply IH. intros k. apply (H (S k)).
Qed.

(** ** Complete arrays *)

Lemma fullb_spec (p : list ascii) :
  fullb p = true <->
  forall k c, nth_error p k = Some c -> c <> emptyMarker.
Proof.
  unfold fullb. rewrite forallb_forall. split.
  - intros H k c Hk. apply nth_error_In in Hk. specialize (H c Hk).
    unfold isEmptyb in H. intros ->. now rewrite Ascii.eqb_refl in H.
  - intros H c Hin. apply In_nth_error in Hin as (k & Hk).
    unfold isEmptyb. apply negb_true_iff, Ascii.eqb_neq. eauto.
Qed.

Lemma fullb_setNth (p : list ascii) (i : nat) (v : ascii) :
  fullb p = true -> v <> emptyMarker -> fullb (setNth i v p) = true.
Proof.
  rewrite !fullb_spec. intros H Hv k c Hk.
  destruct (Nat.eq_dec k i) as [->|Hne].
  - destruct (Nat.lt_ge_cases i (length p)) as [Hi|Hi].
    + rewrite nth_error_setNth_eq in Hk by exact Hi. congruence.
    + apply nth_error_None in Hi.
      assert (Hn : nth_error (setNth i v p) i = None).
      { apply nth_error_None. rewrite length_setNth.
        now apply nth_error_None. }
      congruence.
  - rewrite nth_error_setNth_neq in Hk by exact Hne. eauto.
Qed.

Lemma arrIncludes_empty (p : list ascii) :
  arrIncludes (map Some p) (lit ".") = negb (fullb p).
Proof.
  induction p as [|c p IH]; [reflexivity|].
  cbn [map arrIncludes existsb fullb forallb].
  fold (arrIncludes (map Some p) (lit ".")). fold (fullb p).
  rewrite IH, negb_andb, negb_involutive.
  f_equal. change (lit ".") with [emptyMarker].
  unfold strictEq. rewrite str_eqb_single. reflexivity.
Qed.

Lemma placed_not_empty (c : ascii) :
  isPlacedDigit c = true -> c <> emptyMarker.
Proof. intros H ->. discriminate H. Qed.

(** ** Peers *)

Lemma peerb_sym (i j : nat) : peerb i j = peerb j i.
Proof.
  unfold peerb, sameRowb, sameColb, sameRegionb.
  now rewrite (Nat.eqb_sym (i / 9)), (Nat.eqb_sym (i mod 9)),
    (Nat.eqb_sym (i / 27)), (Nat.eqb_sym (i mod 9 / 3)).
Qed.

Lemma freeAtb_spec (p : list ascii) (i : nat) (c : ascii) :
  freeAtb p i c = true <->
  forall j, j < 81 -> j <> i -> peerb i j = true -> nth_error p j <> Some c.
Proof.
  unfold freeAtb, peerb. rewrite !andb_true_iff, !freeInb_spec. split.
  - intros [[Hr Hc] Hg] j Hj Hne Hp.
    apply orb_prop in Hp as [Hp|Hp]; [apply orb_prop in Hp as [Hp|Hp]|];
      eauto.
  - intros H. repeat split; intros j Hj Hne Hp; apply H; trivial;
      rewrite Hp; now rewrite ?orb_true_r.
Qed.

Lemma freeAtb_setNth (p : list ascii) (i : nat) (w c : ascii) :
  freeAtb (setNth i w p) i c = freeAtb p i c.
Proof.
  apply eq_iff_eq_true. rewrite !freeAtb_spec.
  split; intros H j Hj Hne Hp; specialize (H j Hj Hne Hp);
    now rewrite nth_error_setNth_neq in * by exact Hne.
Qed.

(** ** Fillings *)

Lemma fills_refl (p : list ascii) : fullb p = true -> fills p p.
Proof.
  intros Hf. repeat split; trivial.
  - intros i c H _. exact H.
  - apply (proj1 (fullb_spec p) Hf) in H. congruence.
  - apply (proj1 (fullb_spec p) Hf) in H. congruence.
Qed.

Lemma fills_full (p q : list ascii) :
  fullb p = true -> fills p q -> q = p.
Proof.
  intros Hf (Hlen & _ & Hkeep & _). apply nth_error_eq. intros k.
  destruct (nth_error p k) as [c|] eqn:Hk.
  - apply Hkeep; trivial. exact (proj1 (fullb_spec p) Hf k c Hk).
  - apply nth_error_None. rewrite Hlen. now apply nth_error_None.
Qed.

Section Placement.

Variables (p : list ascii) (i : nat).
Hypothesis Hlen : length p = 81.
Hypothesis Hcell : nth_error p i = Some emptyMarker.

Lemma cell_in_range : i < 81.
Proof. rewrite <- Hlen. apply nth_error_Some. congruence. Qed.

Lemma loopState_init : fullb p = false -> loopState p i p.
Proof.
  intros Hf. left. split; trivial. exists emptyMarker.
  symmetry. now apply setNth_same.
Qed.

Lemma loopState_length (arr : list ascii) :
  loopState p i arr -> length arr = 81.
Proof.
  intros [[_ (w & ->)]|(H & _)]; [now rewrite length_setNth|congruence].
Qed.

(** Writing a checked digit at cell [i] of a filling gives a filling. *)
Lemma fills_overwrite (arr : list ascii) (v : ascii) :
  fills p arr -> freeAtb arr i v = true -> isPlacedDigit v = true ->
  fills p (setNth i v arr).
Proof.
  intros (Hl & Hf & Hkeep & Hnew) Hfree Hv.
  pose proof cell_in_range as Hi.
  assert (Hil : i < length arr) by lia.
  split; [now rewrite length_setNth|].
  split; [apply fullb_setNth; auto using placed_not_empty|].
  split.
  - intros k c Hk Hc.
    assert (k <> i) by (intros ->; congruence).
    rewrite nth_error_setNth_neq by assumption. auto.
  - intros k c Hk Hq.
    destruct (Nat.eq_dec k i) as [->|Hne].
    + rewrite nth_error_setNth_eq in Hq by exact Hil.
      injection Hq as <-. split; trivial.
      now rewrite freeAtb_setNth.
    + rewrite nth_error_setNth_neq in Hq by exact Hne.
      destruct (Hnew k c Hk Hq) as [Hd Hfk]. split; trivial.
      apply freeAtb_spec. intros j Hj Hjk Hpeer.
      destruct (Nat.eq_dec j i) as [->|Hji].
      * rewrite nth_error_setNth_eq by exact Hil.
        intros Heq. injection Heq as ->.
        assert (Hk81 : k < 81).
        { rewrite <- Hlen. apply nth_error_Some. congruence. }
        rewrite peerb_sym in Hpeer.
        exact (proj1 (freeAtb_spec arr i c) Hfree k Hk81 Hne Hpeer Hq).
      * rewrite nth_error_setNth_neq by exact Hji.
        exact (proj1 (freeAtb_spec arr k c) Hfk j Hj Hjk Hpeer).
Qed.

(** A filling of [p] with a checked digit written at [i] is a filling
    of [p]. *)
Lemma fills_after_place (v : ascii) (q : list ascii) :
  freeAtb p i v = true -> isPlacedDigit v = true ->
  fills (setNth i v p) q -> fills p q.
Proof.
  intros Hfree Hv (Hl & Hf & Hkeep & Hnew).
  pose proof cell_in_range as Hi.
  assert (Hil : i < length p) by lia.
  assert (Hqi : nth_error q i = Some v).
  { apply Hkeep; [now apply nth_error_setNth_eq|now apply placed_not_empty]. }
  split; [now rewrite Hl, length_setNth|].
  split; [exact Hf|].
  split.
  - intros k c Hk Hc.
    assert (k <> i) by (intros ->; congruence).
    apply Hkeep; trivial. now rewrite nth_error_setNth_neq.
  - intros k c Hk Hq.
    destruct (Nat.eq_dec k i) as [->|Hne].
    + assert (c = v) by congruence. subst c. split; trivial.
      apply freeAtb_spec. intros j Hj Hji Hpeer Hqj.
      assert (Hjl : j < length p) by lia.
      destruct (nth_error p j) as [d|] eqn:Hpj;
        [|apply nth_error_None in Hpj; lia].
      destruct (Ascii.eqb_spec d emptyMarker) as [->|Hd].
      * assert (Hsj : nth_error (setNth i v p) j = Some emptyMarker)
          by now rewrite nth_error_setNth_neq.
        destruct (Hnew j v Hsj Hqj) as [_ Hfj].
        rewrite peerb_sym in Hpeer.
        apply (proj1 (freeAtb_spec q j v) Hfj i Hi); auto.
      * assert (Hsj : nth_error (setNth i v p) j = Some d)
          by now rewrite nth_error_setNth_neq.
        apply Hkeep in Hsj. specialize (Hsj Hd).
        assert (d = v) by congruence. subst d.
        exact (proj1 (freeAtb_spec p i v) Hfree j Hj Hji Hpeer Hpj).
    + apply Hnew; trivial. now rewrite nth_error_setNth_neq.
Qed.

(** One turn of the loop that places [v] and recurses keeps the loop
    state. *)
Lemma place_step (arr : list ascii) (v : ascii) (res : SolveResult)
    (q : list ascii) :
  loopState p i arr -> freeAtb arr i v = true -> isPlacedDigit v = true ->
  solveOutcome (setNth i v arr) res q ->
  loopState p i q.
Proof.
  intros [[Hnf (w & ->)]|Hfill] Hfree Hv Hout.
  - rewrite setNth_setNth in Hout. rewrite freeAtb_setNth in Hfree.
    destruct Hout as [(_ & -> & Hnf')|[_ Hq]].
    + left. split; eauto.
    + right. now apply (fills_after_place v).
  - pose proof (fills_overwrite arr v Hfill Hfree Hv) as Hfill'.
    destruct Hout as [(_ & _ & Hnf')|[_ Hq]].
    + destruct Hfill' as (_ & Hf & _). congruence.
    + right. apply fills_full in Hq; [now subst q|].
      now destruct Hfill' as (_ & Hf & _).
Qed.

End Placement.

(** ** Candidates *)

Lemma In_digits19 (v : ascii) : In v digits19 <-> isPlacedDigit v = true.
Proof.
  split.
  - unfold digits19, oneToNine. simpl.
    intros H. repeat (destruct H as [<-|H]; [reflexivity|]). destruct H.
  - unfold isPlacedDigit. intros H. apply andb_prop in H as [H1 H2].
    apply Nat.leb_le in H1, H2. rewrite <- (ascii_nat_embedding v).
    set (n := nat_of_ascii v) in *.
    assert (Hn : n = 49 \/ n = 50 \/ n = 51 \/ n = 52 \/ n = 53 \/ n = 54
                 \/ n = 55 \/ n = 56 \/ n = 57) by lia.
    repeat (destruct Hn as [->|Hn]; [vm_compute; tauto|]).
    rewrite Hn. vm_compute; tauto.
Qed.

Lemma candidates_spec (p : list ascii) (i : nat) (v : ascii) :
  In v (candidates p i) <-> isPlacedDigit v = true /\ freeAtb p i v = true.
Proof. unfold candidates. now rewrite filter_In, In_digits19. Qed.

Lemma candidates_placed (p : list ascii) (i : nat) :
  Forall (fun v => isPlacedDigit v = true) (candidates p i).
Proof. apply Forall_forall. intros v Hv. now apply candidates_spec in Hv. Qed.

Lemma placed_not_comma (v : ascii) :
  isPlacedDigit v = true -> v <> ","%char.
Proof. intros H ->. discriminate H. Qed.

Lemma checkPlacementArr_spec (p : list ascii) (i : nat) (v : ascii) :
  i < 81 -> isPlacedDigit v = true ->
  checkPlacementArr p (rowLetterAt i) (columnAt i) [v]
  = Returns (mkCheck (freeAtb p i v)).
Proof.
  intros Hi Hv. rewrite checkPlacementArr_string by now apply placed_not_comma.
  apply checkPlacement_spec; [exact Hi|now apply coord_at].
Qed.

(** ** The search: what a call leaves behind *)

Section Loop.

Variable rec : list ascii -> outcome (SolveResult * list ascii).
Variables (p : list ascii) (i : nat).
Hypothesis Hlen : length p = 81.
Hypothesis Hcell : nth_error p i = Some emptyMarker.
Hypothesis Hrec : forall p' res q,
  length p' = 81 -> rec p' = Returns (res, q) -> solveOutcome p' res q.

Lemma solveLoop_inv (values : list ascii) (arr arr' : list ascii) :
  Forall (fun v => isPlacedDigit v = true) values ->
  loopState p i arr ->
  solveLoop rec (rowLetterAt i) (columnAt i) i values arr = Returns arr' ->
  loopState p i arr'.
Proof.
  intros Hvs. revert arr.
  induction Hvs as [|v values Hv Hvs IH]; intros arr Hst H.
  - injection H as <-. exact Hst.
  - cbn [solveLoop] in H.
    rewrite checkPlacementArr_spec in H
      by (trivial; now apply (cell_in_range p)).
    cbn [bind valid] in H.
    destruct (freeAtb arr i v) eqn:Hfree; [|now apply (IH arr)].
    destruct (rec (setNth i v arr)) as [[res q]| |] eqn:Hr;
      cbn [bind snd] in H; try discriminate.
    apply (IH q); trivial.
    apply (place_step p i Hlen Hcell arr v res q); trivial.
    apply Hrec; trivial.
    rewrite length_setNth. now apply (loopState_length p i).
Qed.

End Loop.

Lemma solveArr_inv (fuel : nat) (p : list ascii) (res : SolveResult)
    (q : list ascii) :
  length p = 81 -> solveArr fuel p = Returns (res, q) ->
  solveOutcome p res q.
Proof.
  revert p res q; induction fuel as [|fuel IH]; intros p res q Hlen H;
    [discriminate|].
  cbn [solveArr] in H. rewrite getNextEmptyCell_spec in H by lia.
  destruct (firstEmpty p) as [i|] eqn:Hfe; cbn [option_map bind cellAt] in H.
  - destruct (firstEmpty_Some p i Hfe) as (Hcell & Hi & Hnf).
    match type of H with
    | bind ?m _ = _ => assert (Hm : forall arr, m = Returns arr ->
                                                 loopState p i arr);
                       [|destruct m as [arr| |]; try discriminate]
    end.
    { intros arr Harr.
      pose proof (candidates_placed p i) as Hplaced.
      destruct (candidates p i) as [|v [|v' vs]] eqn:Hc.
      - injection Harr as <-. now apply loopState_init.
      - destruct (solveArr fuel (setNth i v p)) as [[res' q']| |] eqn:Hr;
          cbn [bind snd] in Harr; try discriminate.
        injection Harr as <-.
        assert (Hv : In v (candidates p i)) by (rewrite Hc; now left).
        apply candidates_spec in Hv as [Hv Hfree].
        apply (place_step p i Hlen Hcell p v res' q'); trivial.
        + now apply loopState_init.
        + apply IH; trivial. now rewrite length_setNth.
      - apply (solveLoop_inv (solveArr fuel) p i Hlen Hcell IH
                 (v :: v' :: vs) p arr); trivial.
        now apply loopState_init. }
    specialize (Hm arr eq_refl). cbn [bind] in H.
    rewrite getNextEmptyCell_spec in H
      by (rewrite (loopState_length p i Hlen arr Hm); lia).
    destruct Hm as [[Hnf' (w & ->)]|Hfill].
    + destruct (firstEmpty (setNth i w p)) eqn:Hfe'.
      * cbn [option_map bind] in H. rewrite setNth_setNth in H.
        change (setNth i "."%char p) with (setNth i emptyMarker p) in H.
        rewrite (setNth_same i emptyMarker p Hcell) in H.
        rewrite arrIncludes_empty, Hnf in H. cbn [negb] in H.
        injection H as <- <-. left. auto.
      * apply firstEmpty_None in Hfe'. congruence.
    + pose proof Hfill as (_ & Hf & _).
      rewrite (proj2 (firstEmpty_None arr) Hf) in H.
      cbn [option_map bind] in H. rewrite arrIncludes_empty, Hf in H.
      cbn [negb] in H. injection H as <- <-. right. auto.
  - injection H as <- <-. right. split; trivial.
    apply fills_refl. now apply firstEmpty_None.
Qed.

(** ** The search returns *)

Lemma countEmpty_full (p : list ascii) :
  countEmpty p = 0 <-> fullb p = true.
Proof.
  unfold countEmpty, fullb. induction p as [|c p IH]; [easy|].
  cbn [filter forallb]. destruct (isEmptyb c); simpl; [split|exact IH].
  - discriminate.
  - discriminate.
Qed.

Lemma countEmpty_setNth (p : list ascii) (i : nat) (v : ascii) :
  nth_error p i = Some emptyMarker -> v <> emptyMarker ->
  S (countEmpty (setNth i v p)) = countEmpty p.
Proof.
  unfold countEmpty. intros Hc Hv. revert i Hc.
  induction p as [|c p IH]; intros [|i] Hc; simpl in Hc; try discriminate.
  - injection Hc as ->. cbn [setNth filter].
    assert (Hv' : isEmptyb v = false) by now apply Ascii.eqb_neq.
    assert (He : isEmptyb emptyMarker = true) by reflexivity.
    now rewrite Hv', He.
  - cbn [setNth filter]. destruct (isEmptyb c); simpl; rewrite (IH i Hc);
      reflexivity.
Qed.

Section LoopReturns.

Variable rec : list ascii -> outcome (SolveResult * list ascii).
Variables (p : list ascii) (i : nat).
Hypothesis Hlen : length p = 81.
Hypothesis Hcell : nth_error p i = Some emptyMarker.
Hypothesis Hrec : forall p' res q,
  length p' = 81 -> rec p' = Returns (res, q) -> solveOutcome p' res q.
Hypothesis Hreturns : forall p',
  length p' = 81 -> countEmpty p' < countEmpty p ->
  exists r, rec p' = Returns r.

Lemma countEmpty_after_place (arr : list ascii) (v : ascii) :
  loopState p i arr -> isPlacedDigit v = true ->
  length (setNth i v arr) = 81 /\
  countEmpty (setNth i v arr) < countEmpty p.
Proof.
  intros Hst Hv. split.
  - rewrite length_setNth. now apply (loopState_length p i).
  - pose proof (countEmpty_setNth p i v Hcell (placed_not_empty v Hv)) as Hp.
    destruct Hst as [[_ (w & ->)]|(_ & Hf & _)].
    + rewrite setNth_setNth. lia.
    + apply (fullb_setNth arr i v) in Hf; [|now apply placed_not_empty].
      apply countEmpty_full in Hf. lia.
Qed.

Lemma solveLoop_returns (values : list ascii) (arr : list ascii) :
  Forall (fun v => isPlacedDigit v = true) values ->
  loopState p i arr ->
  exists arr',
    solveLoop rec (rowLetterAt i) (columnAt i) i values arr = Returns arr'.
Proof.
  intros Hvs. revert arr.
  induction Hvs as [|v values Hv Hvs IH]; intros arr Hst; [now eexists|].
  cbn [solveLoop].
  rewrite checkPlacementArr_spec by (trivial; now apply (cell_in_range p)).
  cbn [bind valid].
  destruct (freeAtb arr i v) eqn:Hfree; [|now apply IH].
  destruct (countEmpty_after_place arr v Hst Hv) as [Hl Hcount].
  destruct (Hreturns _ Hl Hcount) as ([res q] & Hr). rewrite Hr.
  cbn [bind snd]. apply IH.
  apply (place_step p i Hlen Hcell arr v res q); auto.
Qed.

End LoopReturns.

Lemma solveArr_returns (fuel : nat) (p : list ascii) :
  length p = 81 -> countEmpty p < fuel ->
  exists res q, solveArr fuel p = Returns (res, q).
Proof.
  revert p; induction fuel as [|fuel IH]; intros p Hlen Hfuel; [lia|].
  cbn [solveArr]. rewrite getNextEmptyCell_spec by lia.
  destruct (firstEmpty p) as [i|] eqn:Hfe; cbn [option_map bind cellAt];
    [|now eauto].
  destruct (firstEmpty_Some p i Hfe) as (Hcell & Hi & Hnf).
  assert (Hrec : forall p', length p' = 81 -> countEmpty p' < countEmpty p ->
                            exists r, solveArr fuel p' = Returns r).
  { intros p' Hl Hc. destruct (IH p' Hl) as (res & q & Hr); [lia|eauto]. }
  pose proof (loopState_init p i Hcell Hnf) as Hinit.
  match goal with
  | |- exists _ _, bind ?m _ = _ =>
      assert (Hm : exists arr, m = Returns arr /\ loopState p i arr)
  end.
  { pose proof (candidates_placed p i) as Hplaced.
    destruct (candidates p i) as [|v [|v' vs]] eqn:Hc.
    - exists p. split; [reflexivity|exact Hinit].
    - assert (Hv : In v (candidates p i)) by (rewrite Hc; now left).
      apply candidates_spec in Hv as [Hv Hfree].
      destruct (countEmpty_after_place p i Hlen Hcell p v Hinit Hv)
        as [Hl Hcount].
      destruct (Hrec _ Hl Hcount) as ([res q] & Hr). rewrite Hr.
      cbn [bind snd]. eexists. split; [reflexivity|].
      apply (place_step p i Hlen Hcell p v res q); trivial.
      apply (solveArr_inv fuel); trivial.
    - destruct (solveLoop_returns (solveArr fuel) p i Hlen Hcell
                  (solveArr_inv fuel) Hrec (v :: v' :: vs) p Hplaced Hinit)
        as (arr & Harr).
      exists arr. split; [exact Harr|].
      apply (solveLoop_inv (solveArr fuel) p i Hlen Hcell (solveArr_inv fuel)
               (v :: v' :: vs) p arr); trivial. }
  destruct Hm as (arr & -> & Hst). cbn [bind].
  rewrite getNextEmptyCell_spec
    by (rewrite (loopState_length p i Hlen arr Hst); lia).
  cbn [bind].
  match goal with
  | |- exists _ _, (if ?b then _ else _) = _ => destruct b; eauto
  end.
Qed.

(** ** The search finds a completion when one exists *)

Lemma conflictFreeb_spec (g : list ascii) :
  conflictFreeb g = true <->
  forall i c, i < 81 -> nth_error g i = Some c -> c <> emptyMarker ->
              freeAtb g i c = true.
Proof.
  unfold conflictFreeb. rewrite forallb_forall. split.
  - intros H i c Hi Hnth Hc.
    assert (Hin : In i (seq 0 81)) by (apply in_seq; lia).
    specialize (H i Hin). rewrite Hnth in H.
    apply orb_prop in H as [H|H]; trivial.
    apply Ascii.eqb_eq in H. contradiction.
  - intros H i Hin. apply in_seq in Hin.
    destruct (nth_error g i) as [c|] eqn:Hnth; trivial.
    unfold isEmptyb.
    destruct (Ascii.eqb_spec c emptyMarker); [reflexivity|].
    apply H; trivial. lia.
Qed.

Lemma NoDup_digits19 : NoDup digits19.
Proof.
  unfold digits19, oneToNine. simpl.
  repeat (constructor; [simpl; intuition discriminate|]). constructor.
Qed.

Lemma NoDup_candidates (p : list ascii) (i : nat) : NoDup (candidates p i).
Proof. apply NoDup_filter, NoDup_digits19. Qed.

Lemma forallb_nth_error {A} (f : A -> bool) (l : list A) (k : nat) (a : A) :
  forallb f l = true -> nth_error l k = Some a -> f a = true.
Proof.
  intros H Hk. apply nth_error_In in Hk.
  exact (proj1 (forallb_forall f l) H a Hk).
Qed.

Section Completion.

Variables (p g : list ascii) (i : nat) (d : ascii).
Hypothesis Hcomp : completion p g.
Hypothesis Hcell : nth_error p i = Some emptyMarker.
Hypothesis Hd : nth_error g i = Some d.

Lemma completion_digit : isPlacedDigit d = true.
Proof.
  destruct Hcomp as (_ & _ & Hdig & _). exact (forallb_nth_error _ _ _ _ Hdig Hd).
Qed.

Lemma completion_free (w : ascii) : freeAtb (setNth i w p) i d = true.
Proof.
  rewrite freeAtb_setNth.
  destruct Hcomp as (Hlg & Hlp & Hdig & Hcf & Hkeep).
  pose proof completion_digit as Hpd.
  apply freeAtb_spec. intros j Hj Hji Hpeer Hpj.
  apply Hkeep in Hpj. specialize (Hpj (placed_not_empty d Hpd)).
  assert (Hi : i < 81).
  { rewrite <- Hlp. apply nth_error_Some. congruence. }
  pose proof (proj1 (conflictFreeb_spec g) Hcf i d Hi Hd
                (placed_not_empty d Hpd)) as Hfree.
  exact (proj1 (freeAtb_spec g i d) Hfree j Hj Hji Hpeer Hpj).
Qed.

Lemma completion_place : completion (setNth i d p) g.
Proof.
  destruct Hcomp as (Hlg & Hlp & Hdig & Hcf & Hkeep).
  split; [exact Hlg|]. split; [now rewrite length_setNth|].
  split; [exact Hdig|]. split; [exact Hcf|].
  intros k c Hk Hc. destruct (Nat.eq_dec k i) as [->|Hne].
  - rewrite nth_error_setNth_eq in Hk by (apply nth_error_Some; congruence).
    congruence.
  - rewrite nth_error_setNth_neq in Hk by exact Hne. auto.
Qed.

End Completion.

Section LoopComplete.

Variable rec : list ascii -> outcome (SolveResult * list ascii).
Variables (p g : list ascii) (i : nat) (d : ascii).
Hypothesis Hcomp : completion p g.
Hypothesis Hcell : nth_error p i = Some emptyMarker.
Hypothesis Hd : nth_error g i = Some d.
Hypothesis Hrec : forall p' res q,
  length p' = 81 -> rec p' = Returns (res, q) -> solveOutcome p' res q.
Hypothesis Hfinds : forall p' res q,
  completion p' g -> countEmpty p' < countEmpty p ->
  rec p' = Returns (res, q) -> res = Solution q.

Lemma solveLoop_complete (values : list ascii) (arr arr' : list ascii) :
  NoDup values ->
  Forall (fun v => isPlacedDigit v = true) values ->
  loopState p i arr ->
  fullb arr = true \/
    (In d values /\ exists w, w <> d /\ arr = setNth i w p) ->
  solveLoop rec (rowLetterAt i) (columnAt i) i values arr = Returns arr' ->
  fullb arr' = true.
Proof.
  assert (Hlen : length p = 81) by now destruct Hcomp as (_ & ? & _).
  intros Hnd Hvs. revert arr.
  induction Hvs as [|v values Hv Hvs IH]; intros arr Hst Hcase H.
  - injection H as <-. destruct Hcase as [|[[] _]]. assumption.
  - apply NoDup_cons_iff in Hnd as [Hnotin Hnd].
    cbn [solveLoop] in H.
    rewrite checkPlacementArr_spec in H
      by (trivial; now apply (cell_in_range p)).
    cbn [bind valid] in H.
    destruct (freeAtb arr i v) eqn:Hfree.
    + destruct (rec (setNth i v arr)) as [[res q]| |] eqn:Hr;
        cbn [bind snd] in H; try discriminate.
      assert (Hl : length (setNth i v arr) = 81).
      { rewrite length_setNth. now apply (loopState_length p i). }
      pose proof (Hrec _ _ _ Hl Hr) as Hout.
      pose proof (place_step p i Hlen Hcell arr v res q Hst Hfree Hv Hout)
        as Hst'.
      apply (IH Hnd q Hst'); trivial.
      destruct Hcase as [Hfull|(Hin & w & Hw & ->)].
      * left. destruct Hout as [(_ & _ & Hnf)|[_ (_ & Hf & _)]]; trivial.
        rewrite fullb_setNth in Hnf;
          [discriminate|assumption|now apply placed_not_empty].
      * rewrite setNth_setNth in *.
        destruct Hin as [->|Hin].
        -- left.
           assert (Hsol : res = Solution q).
           { apply (Hfinds (setNth i d p)); trivial.
             - now apply completion_place.
             - pose proof (countEmpty_setNth p i d Hcell
                             (placed_not_empty d Hv)). lia. }
           destruct Hout as [(He & _)|[_ (_ & Hf & _)]]; trivial.
           congruence.
        -- destruct Hout as [(_ & -> & Hnf)|[_ (_ & Hf & _)]]; [|now left].
           right. split; trivial. exists v. split; trivial.
           intros ->. contradiction.
    + apply (IH Hnd arr Hst); trivial.
      destruct Hcase as [Hfull|(Hin & w & Hw & ->)]; [now left|].
      destruct Hin as [->|Hin].
      * rewrite (completion_free p g i d Hcomp Hcell Hd w) in Hfree.
        discriminate.
      * right. eauto.
Qed.

End LoopComplete.

Lemma completion_at (p g : list ascii) (i : nat) :
  completion p g -> i < 81 -> exists d, nth_error g i = Some d.
Proof.
  intros (Hlg & _) Hi.
  destruct (nth_error g i) as [d|] eqn:Hd; [eauto|].
  apply nth_error_None in Hd. lia.
Qed.

Lemma solveArr_complete (fuel : nat) (p g : list ascii) (res : SolveResult)
    (q : list ascii) :
  completion p g -> solveArr fuel p = Returns (res, q) -> res = Solution q.
Proof.
  revert p res q; induction fuel as [|fuel IH]; intros p res q Hcomp H;
    [discriminate|].
  assert (Hlen : length p = 81) by now destruct Hcomp as (_ & ? & _).
  pose proof (solveArr_inv (S fuel) p res q Hlen H) as Hout.
  destruct Hout as [(-> & -> & Hnf)|[Hres _]]; [exfalso|exact Hres].
  cbn [solveArr] in H. rewrite getNextEmptyCell_spec in H by lia.
  destruct (firstEmpty p) as [i|] eqn:Hfe; cbn [option_map bind cellAt] in H;
    [|discriminate].
  destruct (firstEmpty_Some p i Hfe) as (Hcell & Hi & _).
  destruct (completion_at p g i Hcomp) as (d & Hd); [lia|].
  pose proof (loopState_init p i Hcell Hnf) as Hinit.
  assert (Hrec : forall p' res q, completion p' g ->
            countEmpty p' < countEmpty p ->
            solveArr fuel p' = Returns (res, q) -> res = Solution q)
    by (intros; eapply IH; eauto).
  match type of H with
  | bind ?m _ = _ =>
      assert (Hm : forall arr, m = Returns arr ->
                               loopState p i arr /\ fullb arr = true);
      [|destruct m as [arr| |]; try discriminate]
  end.
  { intros arr Harr.
    pose proof (candidates_placed p i) as Hplaced.
    pose proof (NoDup_candidates p i) as Hnd.
    assert (Hin : In d (candidates p i)).
    { apply candidates_spec. split.
      - exact (completion_digit p g i d Hcomp Hd).
      - rewrite <- (freeAtb_setNth p i emptyMarker).
        exact (completion_free p g i d Hcomp Hcell Hd emptyMarker). }
    assert (Hd' : d <> emptyMarker).
    { apply placed_not_empty. exact (completion_digit p g i d Hcomp Hd). }
    destruct (candidates p i) as [|v [|v' vs]] eqn:Hc.
    - destruct Hin.
    - destruct Hin as [->|[]].
      destruct (solveArr fuel (setNth i d p)) as [[res' q']| |] eqn:Hr;
        cbn [bind snd] in Harr; try discriminate.
      injection Harr as <-.
      assert (Hsol : res' = Solution q').
      { apply (Hrec (setNth i d p)); trivial.
        - now apply completion_place.
        - pose proof (countEmpty_setNth p i d Hcell Hd'). lia. }
      assert (Hout : solveOutcome (setNth i d p) res' q').
      { apply (solveArr_inv fuel); trivial. now rewrite length_setNth. }
      split.
      + assert (Hv' : In d (candidates p i)) by (rewrite Hc; now left).
        apply candidates_spec in Hv' as [Hv Hfree].
        apply (place_step p i Hlen Hcell p d res' q'); trivial.
      + destruct Hout as [(He & _)|[_ (_ & Hf & _)]]; [congruence|trivial].
    - split.
      + apply (solveLoop_inv (solveArr fuel) p i Hlen Hcell
                 (solveArr_inv fuel) (v :: v' :: vs) p arr); trivial.
      + apply (solveLoop_complete (solveArr fuel) p g i d Hcomp Hcell Hd
                 (solveArr_inv fuel) Hrec (v :: v' :: vs) p arr); trivial.
        right. split; trivial. exists emptyMarker. split; [congruence|].
        symmetry. now apply setNth_same. }
  destruct (Hm arr eq_refl) as [Hst Hf]. cbn [bind] in H.
  rewrite getNextEmptyCell_spec in H
    by (rewrite (loopState_length p i Hlen arr Hst); lia).
  rewrite (proj2 (firstEmpty_None arr) Hf) in H.
  cbn [option_map bind] in H. rewrite arrIncludes_empty, Hf in H.
  discriminate H.
Qed.

(** ** Validation *)

Lemma validate_ok_iff (p : jsstring) :
  validate p = ValidateOk <->
  length p = 81 /\ forallb isPuzzleChar p = true.
Proof.
  unfold validate, validPuzzleRegex_test.
  destruct p as [|c p]; [split; [discriminate|intros [H _]; discriminate H]|].
  destruct (Nat.eqb_spec (length (c :: p)) 81) as [Hl|Hl]; cbn [negb andb].
  - destruct (forallb isPuzzleChar (c :: p)); cbn [negb]; split; auto;
      try discriminate. intros [_ H]. discriminate H.
  - split; [discriminate|]. intros [H _]. contradiction.
Qed.

Lemma placed_puzzleChar (c : ascii) :
  isPlacedDigit c = true -> isPuzzleChar c = true.
Proof.
  unfold isPlacedDigit, isPuzzleChar, isDecimalDigit. intros H.
  apply andb_prop in H as [H1 H2]. apply Nat.leb_le in H1. rewrite H2.
  replace (48 <=? nat_of_ascii c) with true
    by (symmetry; apply Nat.leb_le; lia).
  apply orb_true_r.
Qed.

Lemma fills_valid (p q : list ascii) :
  validate p = ValidateOk -> fills p q -> validate q = ValidateOk.
Proof.
  rewrite !validate_ok_iff. intros [Hl Hch] (Hlq & _ & Hkeep & Hnew).
  split; [congruence|]. apply forallb_forall. intros c Hin.
  apply In_nth_error in Hin as (k & Hk).
  destruct (nth_error p k) as [e|] eqn:He.
  - destruct (Ascii.eqb_spec e emptyMarker) as [->|Hne].
    + apply placed_puzzleChar. now apply (Hnew k c).
    + pose proof (Hkeep k e He Hne) as Hq.
      assert (c = e) by congruence. subst c.
      exact (forallb_nth_error _ _ _ _ Hch He).
  - apply nth_error_None in He.
    assert (k < length q) by (apply nth_error_Some; congruence). lia.
Qed.

Lemma fills_conflictFree (p q : list ascii) :
  length p = 81 -> conflictFreeb p = true -> fills p q ->
  conflictFreeb q = true.
Proof.
  intros Hl Hcf (Hlq & Hf & Hkeep & Hnew).
  apply conflictFreeb_spec. intros k c Hk Hq Hc.
  destruct (nth_error p k) as [e|] eqn:He;
    [|apply nth_error_None in He; lia].
  destruct (Ascii.eqb_spec e emptyMarker) as [->|Hne];
    [now apply (Hnew k c)|].
  pose proof (Hkeep k e He Hne) as Hq'.
  assert (c = e) by congruence. subst e.
  apply freeAtb_spec. intros j Hj Hjk Hpeer Hqj.
  destruct (nth_error p j) as [e|] eqn:Hej;
    [|apply nth_error_None in Hej; lia].
  destruct (Ascii.eqb_spec e emptyMarker) as [->|Hnej].
  - destruct (Hnew j c Hej Hqj) as [_ Hfj].
    rewrite peerb_sym in Hpeer.
    exact (proj1 (freeAtb_spec q j c) Hfj k Hk (not_eq_sym Hjk) Hpeer Hq).
  - pose proof (Hkeep j e Hej Hnej) as Hqj'.
    assert (e = c) by congruence. subst e.
    pose proof (proj1 (conflictFreeb_spec p) Hcf k c Hk He Hc) as Hfree.
    exact (proj1 (freeAtb_spec p k c) Hfree j Hj Hjk Hpeer Hej).
Qed.

(** ** [solve] on a puzzle string *)

Lemma countEmpty_le (p : list ascii) : countEmpty p <= length p.
Proof. apply filter_length_le. Qed.

Lemma solve_returns (x : jsstring) : exists res, solve x = Returns res.
Proof.
  unfold solve. destruct (validate x) eqn:Hv; [|eauto].
  apply validate_ok_iff in Hv as [Hl _].
  destruct (solveArr_returns solveFuel x Hl) as (res & q & Hr).
  - pose proof (countEmpty_le x). unfold solveFuel. lia.
  - rewrite Hr. cbn [bind fst]. eauto.
Qed.

Lemma solve_solution (x s : jsstring) :
  solve x = Returns (Solution s) ->
  validate x = ValidateOk /\ fills x s.
Proof.
  unfold solve. destruct (validate x) eqn:Hv; [|discriminate].
  intros H. split; trivial.
  apply validate_ok_iff in Hv as [Hl _].
  destruct (solveArr solveFuel x) as [[res q]| |] eqn:Hr;
    cbn [bind fst] in H; try discriminate.
  injection H as ->.
  destruct (solveArr_inv solveFuel x _ q Hl Hr) as [(He & _)|[Hs Hfill]];
    [discriminate|].
  injection Hs as ->. exact Hfill.
Qed.

Lemma solveArr_full (fuel : nat) (s : list ascii) :
  length s = 81 -> fullb s = true ->
  solveArr (S fuel) s = Returns (Solution s, s).
Proof.
  intros Hl Hf. cbn [solveArr]. rewrite getNextEmptyCell_spec by lia.
  now rewrite (proj2 (firstEmpty_None s) Hf).
Qed.

Lemma solve_full (s : jsstring) :
  validate s = ValidateOk -> fullb s = true ->
  solve s = Returns (Solution s).
Proof.
  intros Hv Hf. unfold solve. rewrite Hv.
  apply validate_ok_iff in Hv as [Hl _].
  change solveFuel with (S 81). now rewrite solveArr_full.
Qed.

(** ** The completed-puzzle checker *)

Lemma digit_text (c : ascii) :
  isDecimalDigit c = true -> jsnumText (unaryPlus c) = [c].
Proof.
  intros H. unfold unaryPlus. rewrite H.
  unfold isDecimalDigit in H. apply andb_prop in H as [H1 H2].
  apply Nat.leb_le in H1, H2. unfold charCode.
  rewrite <- (ascii_nat_embedding c) at 2.
  set (n := nat_of_ascii c) in *.
  assert (Hn : n = 48 \/ n = 49 \/ n = 50 \/ n = 51 \/ n = 52 \/ n = 53
               \/ n = 54 \/ n = 55 \/ n = 56 \/ n = 57) by lia.
  repeat (destruct Hn as [->|Hn]; [reflexivity|]).
  rewrite Hn. reflexivity.
Qed.

Lemma puzzleChar_digit (c : ascii) :
  isPuzzleChar c = true -> c <> emptyMarker -> isDecimalDigit c = true.
Proof.
  unfold isPuzzleChar. intros H Hc. apply orb_prop in H as [H|H]; trivial.
  apply Ascii.eqb_eq in H. contradiction.
Qed.

Lemma checkSolveFrom_cons (p : jsstring) (k : nat) (c : ascii)
    (rest : jsstring) :
  k < 81 -> isDecimalDigit c = true ->
  checkSolveFrom p k (c :: rest)
  = if 0 <? length (conflictsAt p k c)
    then Returns (mkCheckSolved false
                    (Some (conflictMessage (rowLetterAt k) (columnAt k)))
                    (Some (conflictsAt p k c)))
    else checkSolveFrom p (S k) rest.
Proof.
  intros Hk Hc. cbn [checkSolveFrom].
  assert (Hne : Ascii.eqb c "." = false).
  { apply Ascii.eqb_neq. intros ->. discriminate Hc. }
  rewrite Hne. destruct (coord_at k Hk) as [Hl Hcoord].
  rewrite Hl. cbn [ofOption bind]. rewrite (digit_text c Hc).
  rewrite (checkRegionPlacement_spec p k _ _ c Hk Hcoord). cbn [bind valid].
  rewrite (checkRowPlacement_spec p k _ _ c Hk Hcoord).
  rewrite (checkColPlacement_spec p k _ _ c Hk Hcoord).
  reflexivity.
Qed.

Lemma conflictsAt_nil (p : jsstring) (k : nat) (c : ascii) :
  freeAtb p k c = true -> conflictsAt p k c = [].
Proof.
  unfold freeAtb, conflictsAt. intros H.
  apply andb_prop in H as [H H3]. apply andb_prop in H as [H1 H2].
  now rewrite H1, H2, H3.
Qed.

Lemma conflictsAt_cons (p : jsstring) (k : nat) (c : ascii) :
  freeAtb p k c = false -> 0 < length (conflictsAt p k c).
Proof.
  unfold freeAtb, conflictsAt. intros H.
  destruct (freeInb sameRowb p k c), (freeInb sameColb p k c),
    (freeInb sameRegionb p k c); simpl in *; try discriminate; lia.
Qed.

(** The checker walks the cells up to the first one that is empty or in
    conflict. *)
Lemma checkSolveFrom_free (p : jsstring) (rest : jsstring) (k : nat) :
  k + length rest = 81 ->
  (forall j c, nth_error rest j = Some c -> nth_error p (k + j) = Some c) ->
  forallb isPuzzleChar rest = true ->
  forall n, firstEmptyFrom k rest = n ->
  (forall j c, k <= j -> (match n with Some e => j < e | None => True end) ->
               nth_error p j = Some c -> freeAtb p j c = true) ->
  checkSolveFrom p k rest
  = Returns (match n with Some _ => notSolvedResult | None => solvedResult end).
Proof.
  revert k; induction rest as [|c rest IH]; intros k Hk Hsub Hch n Hn Hfree.
  - simpl in Hn. now subst n.
  - cbn [firstEmptyFrom] in Hn. cbn [forallb] in Hch.
    apply andb_prop in Hch as [Hc Hch]. unfold isEmptyb in Hn.
    destruct (Ascii.eqb_spec c emptyMarker) as [->|Hne].
    + subst n. reflexivity.
    + simpl in Hk.
      rewrite checkSolveFrom_cons by (try lia; now apply puzzleChar_digit).
      assert (Hpk : nth_error p k = Some c).
      { rewrite <- (Nat.add_0_r k). now apply Hsub. }
      rewrite conflictsAt_nil.
      * cbn [length Nat.ltb Nat.leb]. apply IH; trivial; try lia.
        -- intros j d Hj. replace (S k + j) with (k + S j) by lia.
           now apply Hsub.
        -- intros j d Hj Hb. apply Hfree; trivial. lia.
      * apply Hfree; trivial. subst n. destruct (firstEmptyFrom (S k) rest)
          as [e|] eqn:He; trivial.
        apply firstEmptyFrom_Some in He. lia.
Qed.

(** ** The generator *)

Lemma getRandomValue_range (r : Q) (min max : Z) :
  (0 <= r)%Q -> (r < 1)%Q -> (min <= max)%Z ->
  (min <= getRandomValue r min max <= max)%Z.
Proof.
  intros H0 H1 Hm. unfold getRandomValue.
  assert (Hn : (0 < inject_Z (max - min + 1))%Q).
  { change 0%Q with (inject_Z 0). rewrite <- Zlt_Qlt. lia. }
  set (n := inject_Z (max - min + 1)) in *.
  split.
  - rewrite <- (Qfloor_Z min) at 1. apply Qfloor_resp_le.
    assert (0 <= r * n)%Q by (apply Qmult_le_0_compat; lra). lra.
  - assert (Hlt : (inject_Z (Qfloor (r * n + inject_Z min))
                   < inject_Z (max + 1))%Q).
    { apply Qle_lt_trans with (r * n + inject_Z min)%Q; [apply Qfloor_le|].
      assert (Hrn : (r * n < 1 * n)%Q) by (apply Qmult_lt_compat_r; assumption).
      replace (max + 1)%Z with ((max - min + 1) + min)%Z by lia.
      rewrite inject_Z_plus. fold n. lra. }
    rewrite <- Zlt_Qlt in Hlt. lia.
Qed.

Lemma join_digits (zs : list Z) :
  Forall (fun z => 1 <= z <= 9)%Z zs ->
  join (map JNum zs) = map digitChar zs.
Proof.
  induction 1 as [|z zs Hz _ IH]; [reflexivity|].
  cbn [map join flat_map]. fold (join (map JNum zs)). rewrite IH.
  cbn [templateText]. now rewrite numText_digit by lia.
Qed.

Lemma digitChar_placed (z : Z) :
  (1 <= z <= 9)%Z -> isPlacedDigit (digitChar z) = true.
Proof.
  intros Hz.
  assert (H : (z = 1 \/ z = 2 \/ z = 3 \/ z = 4 \/ z = 5 \/ z = 6
               \/ z = 7 \/ z = 8 \/ z = 9)%Z) by lia.
  repeat (destruct H as [->|H]; [reflexivity|]). now subst z.
Qed.

Lemma conflictFreeb_snoc (g : list ascii) (c : ascii) :
  length g < 81 -> conflictFreeb g = true ->
  freeAtb g (length g) c = true ->
  conflictFreeb (g ++ [c]) = true.
Proof.
  intros Hl Hcf Hfree. apply conflictFreeb_spec. intros i e Hi He Hne.
  apply freeAtb_spec. intros j Hj Hji Hpeer Hje.
  assert (Hlast : nth_error (g ++ [c]) (length g) = Some c).
  { rewrite nth_error_app2 by lia. now rewrite Nat.sub_diag. }
  assert (Hin : forall k d, nth_error (g ++ [c]) k = Some d ->
                            k <> length g -> nth_error g k = Some d).
  { intros k d Hk Hkl.
    assert (k < length (g ++ [c])) by (apply nth_error_Some; congruence).
    rewrite length_app in *. simpl in *.
    rewrite nth_error_app1 in Hk by lia. exact Hk. }
  destruct (Nat.eq_dec i (length g)) as [->|Hig].
  - assert (e = c) by congruence. subst e.
    apply Hin in Hje; [|exact Hji].
    exact (proj1 (freeAtb_spec g _ c) Hfree j Hj Hji Hpeer Hje).
  - apply Hin in He; [|exact Hig].
    destruct (Nat.eq_dec j (length g)) as [->|Hjg].
    + assert (e = c) by congruence. subst e.
      rewrite peerb_sym in Hpeer.
      exact (proj1 (freeAtb_spec g _ c) Hfree i Hi Hig Hpeer He).
    + apply Hin in Hje; [|exact Hjg].
      pose proof (proj1 (conflictFreeb_spec g) Hcf i e Hi He Hne) as Hf.
      exact (proj1 (freeAtb_spec g i e) Hf j Hj Hji Hpeer Hje).
Qed.

Lemma genState_init : genState [] 0.
Proof. exists []. repeat split; constructor. Qed.

Lemma genState_push (puzzle : list jsval) (cursor : nat) (z : Z) :
  cursor < 81 -> (1 <= z <= 9)%Z ->
  genState puzzle cursor ->
  freeAtb (join puzzle) cursor (digitChar z) = true ->
  genState (puzzle ++ [JNum z]) (S cursor).
Proof.
  intros Hc Hz (zs & -> & Hzs & Hl & Hcf) Hfree.
  rewrite join_digits in Hfree by exact Hzs.
  exists (zs ++ [z]). split; [now rewrite map_app|].
  split; [apply Forall_app; split; [exact Hzs|now constructor]|].
  split; [rewrite length_app; simpl; lia|].
  rewrite map_app. cbn [map]. apply conflictFreeb_snoc.
  - rewrite length_map. lia.
  - exact Hcf.
  - now rewrite length_map, Hl.
Qed.

Lemma spliceOne_In {A} (l : list A) (start : Z) (a : A) :
  In a (spliceOne l start) -> In a l.
Proof.
  unfold spliceOne.
  set (from := Z.to_nat (relIndex (Z.of_nat (length l)) start)).
  intros H. apply in_app_or in H as [H|H].
  - rewrite <- (firstn_skipn from l). apply in_or_app. now left.
  - rewrite <- (firstn_skipn (S from) l). apply in_or_app. now right.
Qed.

Section Draw.

Variable rnd : nat -> Q.
Hypothesis Hrnd : unitInterval rnd.
Variables (puzzle : list jsval) (hidden : list nat) (cursor : nat).
Hypothesis Hcursor : cursor < 81.
Hypothesis Hstate : genState puzzle cursor.

Lemma drawLoop_inv (fuel pos : nat) (digits : list Z) (d : DrawResult) :
  Forall (fun z => 1 <= z <= 9)%Z digits -> digits <> [] ->
  drawLoop fuel rnd pos digits puzzle hidden cursor
           (rowLetterAt cursor) (columnAt cursor) = Returns d ->
  solvable d = true ->
  genState (puzzleAfter d) (S cursor).
Proof.
  revert pos digits; induction fuel as [|fuel IH];
    intros pos digits Hdig Hne H Hsolv; [discriminate|].
  cbn [drawLoop] in H.
  destruct (Hrnd pos) as [H0 H1].
  assert (Hlen : 0 < length digits) by (destruct digits; simpl; [congruence|lia]).
  pose proof (getRandomValue_range (rnd pos) 0 (Z.of_nat (length digits) - 1)
                H0 H1 ltac:(lia)) as Hidx.
  set (randomIndex := getRandomValue (rnd pos) 0
                        (Z.of_nat (length digits) - 1)) in *.
  assert (Hget : exists z, getZ digits randomIndex = Some z /\ In z digits).
  { replace randomIndex with (Z.of_nat (Z.to_nat randomIndex)) by lia.
    rewrite getZ_of_nat.
    destruct (nth_error digits (Z.to_nat randomIndex)) as [z|] eqn:Hz.
    - exists z. split; trivial. now apply nth_error_In in Hz.
    - apply nth_error_None in Hz. lia. }
  destruct Hget as (z & Hz & Hin). rewrite Hz in H.
  assert (Hzr : (1 <= z <= 9)%Z)
    by exact (proj1 (Forall_forall _ _) Hdig z Hin).
  cbn [templateText] in H. rewrite numText_digit in H by lia.
  rewrite (checkPlacement_spec (join puzzle) cursor _ _ (digitChar z) Hcursor
             (proj2 (coord_at cursor Hcursor))) in H.
  cbn [bind valid] in H.
  destruct (freeAtb (join puzzle) cursor (digitChar z)) eqn:Hfree.
  - injection H as <-. cbn [puzzleAfter]. now apply genState_push.
  - destruct (length (spliceOne digits randomIndex) =? 0) eqn:Hempty.
    + injection H as <-. discriminate Hsolv.
    + apply (IH (S pos) (spliceOne digits randomIndex)); trivial.
      * apply Forall_forall. intros a Ha. apply spliceOne_In in Ha.
        exact (proj1 (Forall_forall _ _) Hdig a Ha).
      * intros He. rewrite He in Hempty. discriminate Hempty.
Qed.

End Draw.

Lemma oneToNine_digits : Forall (fun z => 1 <= z <= 9)%Z oneToNine.
Proof. unfold oneToNine. repeat constructor; lia. Qed.

Lemma generateLoop_inv (rnd : nat -> Q) (fuel pos : nat)
    (puzzle : list jsval) (hidden : list nat) (cursor : nat)
    (res : list jsval * list nat) :
  unitInterval rnd ->
  genState puzzle cursor -> cursor <= 81 ->
  generateLoop fuel rnd pos puzzle hidden cursor = Returns res ->
  genState (fst res) 81.
Proof.
  intros Hrnd. revert pos puzzle hidden cursor.
  induction fuel as [|fuel IH]; intros pos puzzle hidden cursor Hst Hc H.
  - cbn [generateLoop] in H.
    destruct (Nat.leb_spec 81 cursor); [|discriminate].
    injection H as <-. now replace 81 with cursor by lia.
  - cbn [generateLoop] in H.
    destruct (Nat.leb_spec 81 cursor).
    { injection H as <-. now replace 81 with cursor by lia. }
    rewrite (proj1 (coord_at cursor ltac:(lia))) in H. cbn [ofOption bind] in H.
    destruct (drawLoop (length oneToNine) rnd pos oneToNine puzzle hidden
                cursor (rowLetterAt cursor) (columnAt cursor))
      as [d| |] eqn:Hd; cbn [bind] in H; try discriminate.
    destruct (solvable d) eqn:Hs; cbn [negb] in H.
    + refine (IH _ _ _ _ _ _ H); [|lia].
      apply (drawLoop_inv rnd Hrnd puzzle hidden cursor ltac:(lia) Hst
               (length oneToNine) pos oneToNine d); trivial.
      * apply oneToNine_digits.
      * discriminate.
    + refine (IH _ _ _ _ _ _ H); [apply genState_init|lia].
Qed.

Lemma hiddenFrom_init (zs : list Z) : hiddenFrom zs (map JNum zs).
Proof.
  split; [apply length_map|]. intros k z Hk. left.
  rewrite nth_error_map, Hk. reflexivity.
Qed.

Lemma hiddenFrom_hide (zs : list Z) (hidden : list nat) (a : list jsval) :
  hiddenFrom zs a -> hiddenFrom zs (hide a hidden).
Proof.
  unfold hide. revert a. induction hidden as [|h hidden IH]; intros a Ha;
    [exact Ha|].
  cbn [fold_left]. apply IH. destruct Ha as [Hl Hc].
  split; [now rewrite length_setNth|]. intros k z Hk.
  destruct (Nat.eq_dec k h) as [->|Hne].
  - right. apply nth_error_setNth_eq. rewrite Hl.
    apply nth_error_Some. congruence.
  - rewrite nth_error_setNth_neq by exact Hne. auto.
Qed.

Lemma hiddenFrom_join (zs : list Z) (a : list jsval) :
  Forall (fun z => 1 <= z <= 9)%Z zs ->
  hiddenFrom zs a -> join a = map cellChar a.
Proof.
  intros Hzs [Hl Hc].
  assert (Hall : Forall (fun v => templateText v = [cellChar v]
                                  /\ v <> JUndefined) a).
  { apply Forall_forall. intros v Hin. apply In_nth_error in Hin as (k & Hk).
    destruct (nth_error zs k) as [z|] eqn:Hz.
    - pose proof (proj1 (Forall_forall _ _) Hzs z (nth_error_In _ _ Hz)) as Hr.
      cbn beta in Hr.
      destruct (Hc k z Hz) as [H|H]; rewrite H in Hk; injection Hk as <-.
      + cbn [templateText cellChar]. split; [|discriminate].
        apply numText_digit. lia.
      + split; [reflexivity|discriminate].
    - apply nth_error_None in Hz.
      assert (k < length a) by (apply nth_error_Some; congruence). lia. }
  clear Hl Hc. induction Hall as [|v a [Hv Hu] _ IH]; [reflexivity|].
  cbn [join flat_map map]. fold (join a). rewrite IH.
  destruct v; try contradiction; now rewrite Hv.
Qed.

Lemma generated_completion (zs : list Z) (a : list jsval) :
  Forall (fun z => 1 <= z <= 9)%Z zs -> length zs = 81 ->
  conflictFreeb (map digitChar zs) = true ->
  hiddenFrom zs a ->
  completion (map cellChar a) (map digitChar zs) /\
  validate (map cellChar a) = ValidateOk.
Proof.
  intros Hzs Hl Hcf [Hla Hc].
  assert (Hcell : forall k c, nth_error (map cellChar a) k = Some c ->
            c = emptyMarker \/
            (isPlacedDigit c = true /\
             nth_error (map digitChar zs) k = Some c)).
  { intros k c Hk. rewrite nth_error_map in Hk.
    destruct (nth_error a k) as [v|] eqn:Hv; [|discriminate].
    injection Hk as <-.
    destruct (nth_error zs k) as [z|] eqn:Hz.
    - pose proof (proj1 (Forall_forall _ _) Hzs z (nth_error_In _ _ Hz)) as Hr.
      cbn beta in Hr.
      destruct (Hc k z Hz) as [H|H]; rewrite H in Hv; injection Hv as <-.
      + right. split; [now apply digitChar_placed|].
        now rewrite nth_error_map, Hz.
      + now left.
    - apply nth_error_None in Hz.
      assert (k < length a) by (apply nth_error_Some; congruence). lia. }
  split.
  - split; [now rewrite length_map|]. split; [rewrite length_map; lia|].
    split; [|split; [exact Hcf|]].
    + apply forallb_forall. intros c Hin. apply in_map_iff in Hin.
      destruct Hin as (z & <- & Hin). apply digitChar_placed.
      exact (proj1 (Forall_forall _ _) Hzs z Hin).
    + intros k c Hk Hne. destruct (Hcell k c Hk) as [->|[_ H]];
        [contradiction|exact H].
  - apply validate_ok_iff. split; [rewrite length_map; lia|].
    apply forallb_forall. intros c Hin. apply In_nth_error in Hin as (k & Hk).
    destruct (Hcell k c Hk) as [->|[H _]];
      [reflexivity|now apply placed_puzzleChar].
Qed.

Lemma solve_completion (p g : list ascii) :
  validate p = ValidateOk -> completion p g ->
  exists s, solve p = Returns (Solution s).
Proof.
  intros Hv Hcomp. unfold solve. rewrite Hv.
  apply validate_ok_iff in Hv as [Hl _].
  destruct (solveArr_returns solveFuel p Hl) as (res & q & Hr).
  { pose proof (countEmpty_le p). unfold solveFuel. lia. }
  rewrite Hr. cbn [bind fst].
  rewrite (solveArr_complete solveFuel p g res q Hcomp Hr). eauto.
Qed.

Lemma testRandom_unitInterval : unitInterval testRandom.
Proof.
  intros n. unfold testRandom.
  destruct (Nat.even n).
  - destruct (nth_error testSolution (n / 2)) as [c|] eqn:Hc;
      [|split; [apply Qle_refl|reflexivity]].
    assert (Hd : isPlacedDigit c = true).
    { apply (forallb_nth_error isPlacedDigit testSolution (n / 2)); trivial. }
    unfold isPlacedDigit in Hd. apply andb_prop in Hd as [H1 H2].
    apply Nat.leb_le in H1, H2. unfold charCode, Qle, Qlt. simpl. lia.
  - destruct (Nat.even (n / 2)); split; try apply Qle_refl; try reflexivity.
    discriminate.
Qed.

(** ** Indices written by the program are in range

    [setNth] leaves an array alone when the index is past its end, where
    JavaScript would extend it; the program never writes there. *)

Lemma drawLoop_hidden (rnd : nat -> Q) (fuel pos : nat) (digits : list Z)
    (puzzle : list jsval) (hidden : list nat) (cursor : nat) (r : ascii)
    (c : Z) (d : DrawResult) :
  Forall (fun h => h < S cursor) hidden ->
  drawLoop fuel rnd pos digits puzzle hidden cursor r c = Returns d ->
  Forall (fun h => h < S cursor) (hiddenAfter d).
Proof.
  intros Hh. revert pos digits.
  induction fuel as [|fuel IH]; intros pos digits H; [discriminate|].
  cbn [drawLoop] in H.
  match type of H with
  | bind ?m _ = _ => destruct m as [[v]| |]; cbn [bind valid] in H;
                     try discriminate
  end.
  destruct v.
  - injection H as <-. cbn [hiddenAfter].
    match goal with
    | |- Forall _ (if ?b then _ else _) => destruct b; trivial
    end.
    apply Forall_app. split; trivial. constructor; [lia|constructor].
  - match type of H with
    | (if ?b then _ else _) = _ => destruct b
    end.
    + injection H as <-. exact Hh.
    + exact (IH _ _ H).
Qed.

Lemma generateLoop_hidden (rnd : nat -> Q) (fuel pos : nat)
    (puzzle : list jsval) (hidden : list nat) (cursor : nat)
    (res : list jsval * list nat) :
  cursor <= 81 ->
  Forall (fun h => h < cursor) hidden ->
  generateLoop fuel rnd pos puzzle hidden cursor = Returns res ->
  Forall (fun h => h < 81) (snd res).
Proof.
  revert pos puzzle hidden cursor.
  induction fuel as [|fuel IH]; intros pos puzzle hidden cursor Hc Hh H;
    cbn [generateLoop] in H.
  - destruct (Nat.leb_spec 81 cursor); [|discriminate].
    injection H as <-. now replace 81 with cursor by lia.
  - destruct (Nat.leb_spec 81 cursor).
    { injection H as <-. now replace 81 with cursor by lia. }
    destruct (toLetterNumberCoordinate (Z.of_nat cursor)) as [[r|] c];
      cbn [ofOption bind] in H; [|discriminate].
    destruct (drawLoop (length oneToNine) rnd pos oneToNine puzzle hidden
                cursor r c) as [d| |] eqn:Hd; cbn [bind] in H;
      try discriminate.
    destruct (solvable d); cbn [negb] in H.
    + refine (IH _ _ _ _ _ _ H); [lia|].
      apply (drawLoop_hidden rnd (length oneToNine) pos oneToNine puzzle
               hidden cursor r c); trivial.
      apply Forall_forall. intros h Hin.
      pose proof (proj1 (Forall_forall _ _) Hh h Hin) as Hlt.
      cbn beta in Hlt. lia.
    + refine (IH _ _ _ _ _ _ H); [lia|constructor].
Qed.

(** The solver writes at the index of an empty cell it has found. *)
Lemma firstEmpty_in_range (p : list ascii) (i : nat) :
  firstEmpty p = Some i -> i < length p.
Proof. intros H. now apply firstEmpty_Some in H. Qed.

(** ** Scenarios of the test suite *)

Example scenario_solves_reference_puzzle :
  solve testPuzzle = Returns (Solution testSolution).
Proof. vm_compute. reflexivity. Qed.

Example scenario_row_conflict_only :
  valid (checkRowPlacement oneAtA1 "A" 4 (numText 1)) = false /\
  valid (checkColPlacement oneAtA1 "A" 4 (numText 1)) = true /\
  checkRegionPlacement oneAtA1 "A" 4 (numText 1) = Returns (mkCheck true).
Proof. repeat split; vm_compute; reflexivity. Qed.

Example scenario_region_and_column_conflict :
  valid (checkRowPlacement oneAtA1 "C" 1 (numText 1)) = true /\
  valid (checkColPlacement oneAtA1 "C" 1 (numText 1)) = false /\
  checkRegionPlacement oneAtA1 "C" 1 (numText 1) = Returns (mkCheck false).
Proof. repeat split; vm_compute; reflexivity. Qed.

Example scenario_unsolvable :
  solve unsolvablePuzzle = Returns (Error PuzzleUnsolvable).
Proof. vm_compute. reflexivity. Qed.

Example scenario_invalid_characters :
  validate (setNth 4 "D"%char (repeat "."%char 81))
  = ValidateErr InvalidCharacters.
Proof. reflexivity. Qed.

(** A puzzle that has a completion holds digits of 1..9 and empty
    markers only, and its digits are not in conflict. *)
Lemma completion_digitsOrEmpty (p g : jsstring) :
  completion p g -> digitsOrEmptyb p = true /\ conflictFreeb p = true.
Proof.
  intros (Hlg & Hlp & Hdig & Hcf & Hkeep). split.
  - apply forallb_forall. intros c Hin. apply In_nth_error in Hin as (k & Hk).
    unfold isEmptyb. destruct (Ascii.eqb_spec c emptyMarker); [reflexivity|].
    exact (forallb_nth_error _ _ _ _ Hdig (Hkeep k c Hk n)).
  - apply conflictFreeb_spec. intros i c Hi Hc Hne.
    apply freeAtb_spec. intros j Hj Hji Hpeer Hpj.
    pose proof (Hkeep i c Hc Hne) as Hgi. pose proof (Hkeep j c Hpj Hne) as Hgj.
    pose proof (proj1 (conflictFreeb_spec g) Hcf i c Hi Hgi Hne) as Hfree.
    exact (proj1 (freeAtb_spec g i c) Hfree j Hj Hji Hpeer Hgj).
Qed.

(** * The claims of the specification *)

(** C1, as stated, fails: [solve] returns a grid without empty cells as
    its own solution whatever its conflicts, and [checkSolve] then reports
    them. *)
Lemma solve_checkSolve_counterexample :
  solve allOnes = Returns (Solution allOnes) /\
  checkSolve allOnes
  = Returns (mkCheckSolved false (Some "Cell 'A1' contains conflicts."%string)
               (Some ["row"; "column"; "region"]%string)).
Proof. split; vm_compute; reflexivity. Qed.

(** C1 (amended): when no filled cell of the puzzle [x] is in conflict
    with another and [solve x] returns the solution [s], [checkSolve s]
    returns [solved: true] with no error and no conflict list. *)
Theorem solve_checkSolve (x s : jsstring) :
  conflictFreeb x = true ->
  solve x = Returns (Solution s) ->
  checkSolve s = Returns solvedResult.
Proof.
  intros Hcf Hs. apply solve_solution in Hs as [Hv Hfill].
  pose proof (fills_valid x s Hv Hfill) as Hvs.
  pose proof (proj1 (validate_ok_iff x) Hv) as [Hl _].
  pose proof (fills_conflictFree x s Hl Hcf Hfill) as Hcfs.
  destruct Hfill as (_ & Hf & _).
  unfold checkSolve. rewrite Hvs.
  apply validate_ok_iff in Hvs as [Hls Hch].
  apply (checkSolveFrom_free s s 0 Hls) with (n := None); trivial.
  - now apply firstEmpty_None.
  - intros j c _ _ Hj. apply (proj1 (conflictFreeb_spec s) Hcfs); trivial.
    + rewrite <- Hls. apply nth_error_Some. congruence.
    + exact (proj1 (fullb_spec s) Hf j c Hj).
Qed.

Lemma solve_checkSolve_witness :
  (conflictFreeb testPuzzle = true /\
   solve testPuzzle = Returns (Solution testSolution)) /\
  checkSolve testSolution = Returns solvedResult.
Proof.
  assert (H1 : conflictFreeb testPuzzle = true) by (vm_compute; reflexivity).
  assert (H2 : solve testPuzzle = Returns (Solution testSolution))
    by (vm_compute; reflexivity).
  split; [split; assumption|].
  exact (solve_checkSolve testPuzzle testSolution H1 H2).
Defined.

(** C3: when the recursive call [solve(a, false)] on an array [a] of 81
    cells returns an error, the array is left exactly as it was at the
    call. *)
Theorem solve_failure_restores (fuel : nat) (a q : list ascii) (e : string) :
  length a = 81 ->
  solveArr fuel a = Returns (Error e, q) ->
  q = a.
Proof.
  intros Hl H.
  destruct (solveArr_inv fuel a _ q Hl H) as [(_ & Hq & _)|[Hs _]];
    [exact Hq|discriminate Hs].
Qed.

Lemma solve_failure_restores_witness :
  (length unsolvablePuzzle = 81 /\
   solveArr solveFuel unsolvablePuzzle
   = Returns (Error PuzzleUnsolvable, unsolvablePuzzle)) /\
  unsolvablePuzzle = unsolvablePuzzle.
Proof.
  assert (H1 : length unsolvablePuzzle = 81) by reflexivity.
  assert (H2 : solveArr solveFuel unsolvablePuzzle
               = Returns (Error PuzzleUnsolvable, unsolvablePuzzle))
    by (vm_compute; reflexivity).
  split; [split; assumption|].
  exact (solve_failure_restores solveFuel unsolvablePuzzle unsolvablePuzzle
           PuzzleUnsolvable H1 H2).
Defined.

(** C4, as stated, fails on the empty string, whose length is not 81:
    [validate] reports the missing puzzle. *)
Lemma validate_length_counterexample :
  length (lit "") <> 81 /\ validate (lit "") = ValidateErr EmptyInput.
Proof. split; [discriminate|reflexivity]. Qed.

(** C4 (amended): for every non-empty string whose length is not 81,
    [validate] fails with [WrongLength]. *)
Theorem validate_wrong_length (p : jsstring) :
  p <> [] -> length p <> 81 -> validate p = ValidateErr WrongLength.
Proof.
  intros Hp Hl. unfold validate. destruct p as [|c p]; [contradiction|].
  now destruct (Nat.eqb_spec (length (c :: p)) 81).
Qed.

Lemma validate_wrong_length_witness :
  (repeat "."%char 80 <> [] /\ length (repeat "."%char 80) <> 81) /\
  validate (repeat "."%char 80) = ValidateErr WrongLength.
Proof.
  assert (H1 : repeat "."%char 80 <> []) by discriminate.
  assert (H2 : length (repeat "."%char 80) <> 81) by discriminate.
  split; [split; assumption|].
  exact (validate_wrong_length (repeat "."%char 80) H1 H2).
Defined.

(** C5, as stated, fails: a conflict in a cell before the first empty
    cell is reported, with its conflict list, before the empty cell is
    reached. *)
Lemma checkSolve_empty_counterexample :
  validate twoOnes = ValidateOk /\ In "."%char twoOnes /\
  checkSolve twoOnes
  = Returns (mkCheckSolved false (Some "Cell 'A1' contains conflicts."%string)
               (Some ["row"; "region"]%string)).
Proof.
  split; [reflexivity|]. split; [|vm_compute; reflexivity].
  unfold twoOnes. simpl. tauto.
Qed.

(** C5 (amended): for every structurally valid puzzle string with an
    empty cell, when no cell before the first empty cell is in conflict
    [checkSolve] returns [solved: false] with [PuzzleNotSolved] and no
    conflict list. *)
Theorem checkSolve_empty (p : jsstring) (k : nat) :
  validate p = ValidateOk ->
  firstEmpty p = Some k ->
  prefixFreeb p k = true ->
  checkSolve p = Returns notSolvedResult.
Proof.
  intros Hv Hk Hfree. unfold checkSolve. rewrite Hv.
  apply validate_ok_iff in Hv as [Hl Hch].
  apply (checkSolveFrom_free p p 0 Hl) with (n := Some k); trivial.
  intros j c _ Hj Hc. unfold prefixFreeb in Hfree.
  assert (Hin : In j (seq 0 k)) by (apply in_seq; lia).
  pose proof (proj1 (forallb_forall _ _) Hfree j Hin) as H.
  cbn beta in H. now rewrite Hc in H.
Qed.

Lemma checkSolve_empty_witness :
  (validate almostSolved = ValidateOk /\
   firstEmpty almostSolved = Some 40 /\
   prefixFreeb almostSolved 40 = true) /\
  checkSolve almostSolved = Returns notSolvedResult.
Proof.
  assert (H1 : validate almostSolved = ValidateOk) by reflexivity.
  assert (H2 : firstEmpty almostSolved = Some 40) by reflexivity.
  assert (H3 : prefixFreeb almostSolved 40 = true) by (vm_compute; reflexivity).
  split; [repeat split; assumption|].
  exact (checkSolve_empty almostSolved 40 H1 H2 H3).
Defined.

(** C6: when the cell at row [r] of A..I and column [c] of 1..9 of an
    81-character grid holds the digit [v] of 1..9 and no other cell of
    that row holds it, [checkRowPlacement] is valid: the digit does not
    conflict with its own occurrence. *)
Theorem checkRowPlacement_own_digit (grid : jsstring) (r : ascii) (c v : Z)
    (x y cell : Z) :
  length grid = 81 ->
  In r rowLetters -> (1 <= c <= 9)%Z -> (1 <= v <= 9)%Z ->
  toBaseZeroCoordinate r c = Some (x, y, cell) ->
  strictEq (getZ grid cell) (numText v) = true ->
  (forall k, (0 <= k < 9)%Z -> k <> x ->
     strictEq (getZ grid (9 * y + k)%Z) (numText v) = false) ->
  valid (checkRowPlacement grid r c (numText v)) = true.
Proof.
  intros Hl Hr Hc Hv Hxy Hcell Hrow.
  assert (Hcode : (65 <= charCode r <= 73)%Z).
  { unfold rowLetters in Hr. simpl in Hr.
    repeat (destruct Hr as [<-|Hr]; [vm_compute; split; discriminate|]).
    destruct Hr. }
  rewrite toBaseZeroCoordinate_in_range in Hxy by assumption.
  injection Hxy as <- <- <-.
  set (i := Z.to_nat (9 * (charCode r - 65) + (c - 1))).
  assert (Hi : i < 81) by lia.
  assert (Hcoord : toBaseZeroCoordinate r c
                   = Some (Z.of_nat (i mod 9), Z.of_nat (i / 9), Z.of_nat i)).
  { rewrite toBaseZeroCoordinate_in_range by assumption.
    repeat f_equal; lia. }
  rewrite numText_digit in * by lia.
  rewrite (checkRowPlacement_spec grid i r c (digitChar v) Hi Hcoord).
  apply freeInb_spec. intros j Hj Hji Hsame Hnth.
  unfold sameRowb in Hsame. apply Nat.eqb_eq in Hsame.
  assert (Hk : strictEq (getZ grid (9 * (charCode r - 65)
                                    + Z.of_nat (j mod 9))%Z)
                 [digitChar v] = false) by (apply Hrow; lia).
  replace (9 * (charCode r - 65) + Z.of_nat (j mod 9))%Z
    with (Z.of_nat j) in Hk by lia.
  rewrite getZ_of_nat, Hnth in Hk.
  rewrite (proj2 (strictEq_single _ _) eq_refl) in Hk. discriminate Hk.
Qed.

Lemma checkRowPlacement_own_digit_witness :
  (length testSolution = 81 /\ In "A"%char rowLetters /\
   toBaseZeroCoordinate "A" 3 = Some (2, 0, 2)%Z /\
   strictEq (getZ testSolution 2%Z) (numText 9) = true) /\
  valid (checkRowPlacement testSolution "A" 3 (numText 9)) = true.
Proof.
  assert (H1 : length testSolution = 81) by reflexivity.
  assert (H2 : In "A"%char rowLetters) by (now left).
  assert (H3 : toBaseZeroCoordinate "A" 3 = Some (2, 0, 2)%Z) by reflexivity.
  assert (H4 : strictEq (getZ testSolution 2%Z) (numText 9) = true)
    by reflexivity.
  split; [repeat split; assumption|].
  apply (checkRowPlacement_own_digit testSolution "A" 3 9 2 0 2 H1 H2);
    [lia|lia|exact H3|exact H4|].
  intros k Hk Hne.
  assert (H : (k = 0 \/ k = 1 \/ k = 3 \/ k = 4 \/ k = 5 \/ k = 6 \/ k = 7
               \/ k = 8)%Z) by lia.
  repeat (destruct H as [->|H]; [reflexivity|]). subst k. reflexivity.
Defined.

(** C7: [solve] is idempotent: when [solve x] returns the solution [s],
    [solve s] returns the solution [s]. *)
Theorem solve_idempotent (x s : jsstring) :
  solve x = Returns (Solution s) ->
  solve s = Returns (Solution s).
Proof.
  intros H. apply solve_solution in H as [Hv Hfill].
  apply solve_full.
  - exact (fills_valid x s Hv Hfill).
  - now destruct Hfill as (_ & Hf & _).
Qed.

Lemma solve_idempotent_witness :
  solve testPuzzle = Returns (Solution testSolution) /\
  solve testSolution = Returns (Solution testSolution).
Proof.
  assert (H : solve testPuzzle = Returns (Solution testSolution))
    by (vm_compute; reflexivity).
  split; [exact H|].
  exact (solve_idempotent testPuzzle testSolution H).
Defined.

(** C8: every string of exactly 81 characters drawn from ['.'] and the
    digits ['0'] to ['9'] passes [validate], the digit ['0'] included,
    although ['0'] is never among the values the solver places. *)
Theorem validate_accepts_zero (p : jsstring) :
  length p = 81 ->
  Forall (fun c => c = "."%char \/ In c (lit "0123456789")) p ->
  validate p = ValidateOk /\
  forall q i, ~ In "0"%char (candidates q i).
Proof.
  intros Hl Hch. split.
  - apply validate_ok_iff. split; trivial.
    apply forallb_forall. intros c Hin.
    apply (proj1 (Forall_forall _ _) Hch) in Hin.
    destruct Hin as [->|Hin]; [reflexivity|].
    simpl in Hin.
    repeat (destruct Hin as [<-|Hin]; [reflexivity|]). destruct Hin.
  - intros q i Hin. apply candidates_spec in Hin as [Hd _]. discriminate Hd.
Qed.

Lemma validate_accepts_zero_witness :
  (length allZeros = 81 /\
   Forall (fun c => c = "."%char \/ In c (lit "0123456789")) allZeros) /\
  validate allZeros = ValidateOk.
Proof.
  assert (H1 : length allZeros = 81) by reflexivity.
  assert (H2 : Forall (fun c => c = "."%char \/ In c (lit "0123456789"))
                 allZeros).
  { apply Forall_forall. intros c Hc. apply repeat_spec in Hc. subst c.
    right. now left. }
  split; [split; assumption|].
  exact (proj1 (validate_accepts_zero allZeros H1 H2)).
Defined.

Lemma rowLetters_code (r : ascii) :
  In r rowLetters <-> (65 <= charCode r <= 73)%Z.
Proof.
  split.
  - unfold rowLetters. simpl. intros H.
    repeat (destruct H as [<-|H]; [vm_compute; split; discriminate|]).
    destruct H.
  - unfold charCode. intros H. rewrite <- (ascii_nat_embedding r).
    set (n := nat_of_ascii r) in *.
    assert (Hn : n = 65 \/ n = 66 \/ n = 67 \/ n = 68 \/ n = 69 \/ n = 70
                 \/ n = 71 \/ n = 72 \/ n = 73) by lia.
    repeat (destruct Hn as [->|Hn]; [vm_compute; tauto|]).
    rewrite Hn. vm_compute; tauto.
Qed.

Lemma rowLetters_nth (r : ascii) :
  In r rowLetters ->
  nth_error rowLetters (Z.to_nat (charCode r - 65)) = Some r.
Proof.
  unfold rowLetters. simpl. intros H.
  repeat (destruct H as [<-|H]; [reflexivity|]). destruct H.
Qed.

(** C9: on a row letter of A..I and a column number of 1..9,
    [toBaseZeroCoordinate] returns [(x, y, idx)] with [idx = 9 y + x] in
    0..80 and [toLetterNumberCoordinate idx] gives the letter and the
    number back; on any other letter or number it returns [false]. *)
Theorem coordinate_conversion (r : ascii) (c : Z) :
  (In r rowLetters /\ (1 <= c <= 9)%Z ->
   exists x y idx,
     toBaseZeroCoordinate r c = Some (x, y, idx) /\
     (idx = 9 * y + x)%Z /\ (0 <= idx <= 80)%Z /\
     toLetterNumberCoordinate idx = (Some r, c)) /\
  (~ In r rowLetters \/ ~ (1 <= c <= 9)%Z ->
   toBaseZeroCoordinate r c = None).
Proof.
  split.
  - intros [Hr Hc]. pose proof (proj1 (rowLetters_code r) Hr) as Hcode.
    exists (c - 1)%Z, (charCode r - 65)%Z,
      (9 * (charCode r - 65) + (c - 1))%Z.
    split; [now apply toBaseZeroCoordinate_in_range|].
    split; [reflexivity|]. split; [lia|].
    unfold toLetterNumberCoordinate. f_equal.
    + replace ((9 * (charCode r - 65) + (c - 1)) / 9)%Z
        with (Z.of_nat (Z.to_nat (charCode r - 65))) by lia.
      rewrite getZ_of_nat. now apply rowLetters_nth.
    + rewrite Z.rem_mod_nonneg by lia. lia.
  - intros H. unfold toBaseZeroCoordinate.
    change (charCode "A") with 65%Z.
    rewrite rowLetters_code in H.
    destruct (Z.ltb_spec (charCode r - 65) 0); trivial.
    destruct (Z.gtb_spec (charCode r - 65) 8); trivial.
    destruct (Z.ltb_spec (c - 1) 0); trivial.
    destruct (Z.gtb_spec (c - 1) 8); trivial.
    lia.
Qed.

Lemma coordinate_conversion_witness :
  (exists x y idx,
     toBaseZeroCoordinate "C" 4 = Some (x, y, idx) /\
     (idx = 9 * y + x)%Z /\ (0 <= idx <= 80)%Z /\
     toLetterNumberCoordinate idx = (Some "C"%char, 4%Z)) /\
  toBaseZeroCoordinate "J" 4 = None /\
  toBaseZeroCoordinate "C" 10 = None.
Proof.
  split; [|split].
  - apply (proj1 (coordinate_conversion "C" 4)).
    split; [right; right; now left|lia].
  - apply (proj2 (coordinate_conversion "J" 4)). left.
    unfold rowLetters. simpl. intuition discriminate.
  - apply (proj2 (coordinate_conversion "C" 10)). right. lia.
Defined.

(** C10: [solve] keeps the givens: when [solve p] returns the solution
    [s], every position of [p] that holds a character other than ['.']
    holds the same character in [s]. *)
Theorem solve_keeps_givens (p s : jsstring) (i : nat) (c : ascii) :
  solve p = Returns (Solution s) ->
  i <= 80 -> nth_error p i = Some c -> c <> "."%char ->
  nth_error s i = Some c.
Proof.
  intros H _ Hi Hc. apply solve_solution in H as [_ (_ & _ & Hkeep & _)].
  now apply Hkeep.
Qed.

Lemma solve_keeps_givens_witness :
  (solve testPuzzle = Returns (Solution testSolution) /\
   nth_error testPuzzle 2 = Some "9"%char) /\
  nth_error testSolution 2 = Some "9"%char.
Proof.
  assert (H1 : solve testPuzzle = Returns (Solution testSolution))
    by (vm_compute; reflexivity).
  assert (H2 : nth_error testPuzzle 2 = Some "9"%char) by reflexivity.
  split; [split; assumption|].
  apply (solve_keeps_givens testPuzzle testSolution 2 "9" H1);
    [lia|exact H2|discriminate].
Defined.

(** C2: whatever the random outcomes, when [generate] returns a puzzle
    string, [solve] returns a solution for it, and so not the error
    [PuzzleUnsolvable]: a string of 81 cells without an empty marker that
    keeps every digit the puzzle shows and on which [checkSolve] returns
    [solved: true] with no error and no conflict list. *)
Theorem generate_solvable (rnd : nat -> Q) (fuel : nat) (s : jsstring) :
  unitInterval rnd ->
  generate fuel rnd = Returns s ->
  (exists sol,
     solve s = Returns (Solution sol) /\
     length sol = 81 /\
     ~ In "."%char sol /\
     (forall i c, nth_error s i = Some c -> c <> "."%char ->
                  nth_error sol i = Some c) /\
     checkSolve sol = Returns solvedResult) /\
  solve s <> Returns (Error PuzzleUnsolvable).
Proof.
  intros Hrnd H. unfold generate in H.
  destruct (generateLoop fuel rnd 0 [] [] 0) as [res| |] eqn:Hg;
    cbn [bind] in H; try discriminate.
  injection H as <-.
  apply generateLoop_inv in Hg; trivial; [|apply genState_init|lia].
  destruct Hg as (zs & Hres & Hzs & Hl & Hcf). rewrite Hres.
  pose proof (hiddenFrom_hide zs (snd res) _ (hiddenFrom_init zs)) as Hh.
  rewrite (hiddenFrom_join zs _ Hzs Hh).
  destruct (generated_completion zs _ Hzs Hl Hcf Hh) as [Hcomp Hv].
  set (p := map cellChar (hide (map JNum zs) (snd res))) in *.
  destruct (solve_completion p _ Hv Hcomp) as (sol & Hsol).
  split; [|rewrite Hsol; discriminate].
  exists sol. split; [exact Hsol|].
  destruct (completion_digitsOrEmpty p _ Hcomp) as [_ Hcfp].
  apply solve_solution in Hsol as [_ Hfill].
  pose proof (fills_valid p sol Hv Hfill) as Hvs.
  pose proof (proj1 (validate_ok_iff p) Hv) as [Hlp _].
  pose proof (fills_conflictFree p sol Hlp Hcfp Hfill) as Hcfs.
  destruct Hfill as (Hlen & Hf & Hkeep & _).
  pose proof (proj1 (validate_ok_iff sol) Hvs) as [Hls Hch].
  split; [exact Hls|]. split; [|split; [exact Hkeep|]].
  - intros Hin. apply In_nth_error in Hin as (k & Hk).
    exact (proj1 (fullb_spec sol) Hf k _ Hk eq_refl).
  - unfold checkSolve. rewrite Hvs.
    apply (checkSolveFrom_free sol sol 0 Hls) with (n := None); trivial.
    + now apply firstEmpty_None.
    + intros j c _ _ Hj. apply (proj1 (conflictFreeb_spec sol) Hcfs); trivial.
      * rewrite <- Hls. apply nth_error_Some. congruence.
      * exact (proj1 (fullb_spec sol) Hf j c Hj).
Qed.

Lemma generate_solvable_witness :
  (unitInterval testRandom /\
   generate 81 testRandom = Returns generatedPuzzle) /\
  (exists sol,
     solve generatedPuzzle = Returns (Solution sol) /\
     length sol = 81 /\
     ~ In "."%char sol /\
     (forall i c, nth_error generatedPuzzle i = Some c -> c <> "."%char ->
                  nth_error sol i = Some c) /\
     checkSolve sol = Returns solvedResult) /\
  solve generatedPuzzle <> Returns (Error PuzzleUnsolvable).
Proof.
  assert (H1 : unitInterval testRandom) by exact testRandom_unitInterval.
  assert (H2 : generate 81 testRandom = Returns generatedPuzzle)
    by (vm_compute; reflexivity).
  split; [split; assumption|].
  exact (generate_solvable testRandom 81 generatedPuzzle H1 H2).
Defined.

(** * Further properties of the code *)

(** ** Validator and grid model *)

(** X1: a string of 81 characters one of which is neither ['.'] nor a
    decimal digit is rejected with [InvalidCharacters]. *)
Theorem validate_invalid_characters (p : jsstring) (c : ascii) :
  length p = 81 -> In c p -> isPuzzleChar c = false ->
  validate p = ValidateErr InvalidCharacters.
Proof.
  intros Hl Hin Hc. unfold validate, validPuzzleRegex_test.
  destruct p as [|d p]; [destruct Hin|].
  rewrite Hl. cbn [Nat.eqb negb andb].
  replace (forallb isPuzzleChar (d :: p)) with false; [reflexivity|].
  symmetry. apply not_true_iff_false. intros Hall.
  rewrite forallb_forall in Hall. specialize (Hall c Hin). congruence.
Qed.

Lemma validate_invalid_characters_witness :
  (length (setNth 4 "D"%char (repeat "."%char 81)) = 81 /\
   In "D"%char (setNth 4 "D"%char (repeat "."%char 81)) /\
   isPuzzleChar "D" = false) /\
  validate (setNth 4 "D"%char (repeat "."%char 81))
  = ValidateErr InvalidCharacters.
Proof.
  assert (H1 : length (setNth 4 "D"%char (repeat "."%char 81)) = 81)
    by reflexivity.
  assert (H2 : In "D"%char (setNth 4 "D"%char (repeat "."%char 81)))
    by (simpl; tauto).
  assert (H3 : isPuzzleChar "D" = false) by reflexivity.
  split; [repeat split; assumption|].
  exact (validate_invalid_characters _ "D" H1 H2 H3).
Defined.

(** X2: for every cell number of 0..80, [toLetterNumberCoordinate] gives
    a row letter of A..I and a column number of 1..9 from which
    [toBaseZeroCoordinate] gives the cell number back, with its column
    [n mod 9] and its row [n / 9]. *)
Theorem index_coordinate_roundtrip (n : Z) :
  (0 <= n <= 80)%Z ->
  exists r c,
    toLetterNumberCoordinate n = (Some r, c) /\
    In r rowLetters /\ (1 <= c <= 9)%Z /\
    toBaseZeroCoordinate r c = Some (n mod 9, n / 9, n)%Z.
Proof.
  intros Hn. destruct (coord_of_index (Z.to_nat n)) as (r & H1 & H2); [lia|].
  rewrite Z2Nat.id in H1, H2 by lia.
  exists r, (Z.of_nat (Z.to_nat n mod 9 + 1)).
  split; [exact H1|]. split.
  - unfold toLetterNumberCoordinate in H1. injection H1 as H1 _.
    unfold getZ in H1. destruct (n / 9 <? 0)%Z; [discriminate|].
    exact (nth_error_In _ _ H1).
  - split; [lia|]. rewrite H2. repeat f_equal; lia.
Qed.

Lemma index_coordinate_roundtrip_witness :
  exists r c,
    toLetterNumberCoordinate 40 = (Some r, c) /\
    In r rowLetters /\ (1 <= c <= 9)%Z /\
    toBaseZeroCoordinate r c = Some (40 mod 9, 40 / 9, 40)%Z.
Proof. apply (index_coordinate_roundtrip 40). lia. Defined.

(** X3: [toLetterNumberCoordinate] has no row letter ([undefined])
    exactly for the cell numbers outside 0..80. *)
Theorem toLetterNumberCoordinate_undefined (n : Z) :
  fst (toLetterNumberCoordinate n) = None <-> (n < 0 \/ 80 < n)%Z.
Proof.
  unfold toLetterNumberCoordinate, getZ. cbn [fst].
  destruct (Z.ltb_spec (n / 9) 0) as [Hneg|Hpos].
  - split; [lia|reflexivity].
  - rewrite nth_error_None. change (length rowLetters) with 9. lia.
Qed.

(** ** Placement checks *)

Lemma toBaseZeroCoordinate_Some (r : ascii) (c x y cell : Z) :
  toBaseZeroCoordinate r c = Some (x, y, cell) ->
  (0 <= x <= 8 /\ 0 <= y <= 8 /\ cell = 9 * y + x)%Z /\
  toBaseZeroCoordinate r c
  = Some (Z.of_nat (Z.to_nat cell mod 9), Z.of_nat (Z.to_nat cell / 9),
          Z.of_nat (Z.to_nat cell)).
Proof.
  intros Hxy.
  assert (Hr : (65 <= charCode r <= 73 /\ 1 <= c <= 9)%Z).
  { unfold toBaseZeroCoordinate in Hxy. change (charCode "A") with 65%Z in Hxy.
    destruct (Z.ltb_spec (charCode r - 65) 0); [discriminate|].
    destruct (Z.gtb_spec (charCode r - 65) 8); [discriminate|].
    destruct (Z.ltb_spec (c - 1) 0); [discriminate|].
    destruct (Z.gtb_spec (c - 1) 8); [discriminate|]. lia. }
  destruct Hr as [Hr Hc].
  rewrite toBaseZeroCoordinate_in_range in * by assumption.
  assert (Hx : x = (c - 1)%Z) by congruence.
  assert (Hy : y = (charCode r - 65)%Z) by congruence.
  assert (Hcell : cell = (9 * (charCode r - 65) + (c - 1))%Z) by congruence.
  clear Hxy. subst x y cell.
  split; [lia|]. repeat f_equal; lia.
Qed.

Lemma strictEq_false (e : option ascii) (c : ascii) :
  strictEq e [c] = false <-> e <> Some c.
Proof.
  rewrite <- not_true_iff_false. now rewrite strictEq_single.
Qed.

(** X4: on a coordinate in range and a digit value, the row check is
    valid exactly when no cell of the row other than the target cell
    holds the digit, whether the target cell is empty or holds it. *)
Theorem checkRowPlacement_iff (grid : jsstring) (r : ascii) (c v x y cell : Z) :
  (0 <= v <= 9)%Z ->
  toBaseZeroCoordinate r c = Some (x, y, cell) ->
  valid (checkRowPlacement grid r c (numText v)) = true <->
  (forall k, (0 <= k < 9)%Z -> k <> x ->
     strictEq (getZ grid (9 * y + k)%Z) (numText v) = false).
Proof.
  intros Hv Hxy. destruct (toBaseZeroCoordinate_Some _ _ _ _ _ Hxy)
    as [(Hx & Hy & Hcell) Hcoord].
  rewrite numText_digit by exact Hv.
  rewrite (checkRowPlacement_spec grid (Z.to_nat cell) r c (digitChar v))
    by (trivial; lia).
  rewrite freeInb_spec. unfold sameRowb. split.
  - intros H k Hk Hkx. apply strictEq_false. intros Hs.
    apply (H (Z.to_nat (9 * y + k))); try lia.
    + apply Nat.eqb_eq. lia.
    + now rewrite <- getZ_of_nat, Z2Nat.id by lia.
  - intros H j Hj Hji Hsame Hnth. apply Nat.eqb_eq in Hsame.
    assert (Hk : strictEq (getZ grid (9 * y + Z.of_nat (j mod 9))%Z)
                   [digitChar v] = false) by (apply H; lia).
    apply strictEq_false in Hk. apply Hk.
    replace (9 * y + Z.of_nat (j mod 9))%Z with (Z.of_nat j) by lia.
    now rewrite getZ_of_nat.
Qed.

Lemma checkRowPlacement_iff_witness :
  toBaseZeroCoordinate "A" 1 = Some (0, 0, 0)%Z /\
  (valid (checkRowPlacement testPuzzle "A" 1 (numText 7)) = true <->
   (forall k, (0 <= k < 9)%Z -> k <> 0%Z ->
      strictEq (getZ testPuzzle (9 * 0 + k)%Z) (numText 7) = false)).
Proof.
  assert (H : toBaseZeroCoordinate "A" 1 = Some (0, 0, 0)%Z) by reflexivity.
  split; [exact H|].
  apply (checkRowPlacement_iff testPuzzle "A" 1 7 0 0 0); [lia|exact H].
Defined.

(** X5: on a coordinate in range and a digit value, the column check is
    valid exactly when no cell of the column other than the target cell
    holds the digit. *)
Theorem checkColPlacement_iff (grid : jsstring) (r : ascii) (c v x y cell : Z) :
  (0 <= v <= 9)%Z ->
  toBaseZeroCoordinate r c = Some (x, y, cell) ->
  valid (checkColPlacement grid r c (numText v)) = true <->
  (forall k, (0 <= k < 9)%Z -> k <> y ->
     strictEq (getZ grid (x + k * 9)%Z) (numText v) = false).
Proof.
  intros Hv Hxy. destruct (toBaseZeroCoordinate_Some _ _ _ _ _ Hxy)
    as [(Hx & Hy & Hcell) Hcoord].
  rewrite numText_digit by exact Hv.
  rewrite (checkColPlacement_spec grid (Z.to_nat cell) r c (digitChar v))
    by (trivial; lia).
  rewrite freeInb_spec. unfold sameColb. split.
  - intros H k Hk Hky. apply strictEq_false. intros Hs.
    apply (H (Z.to_nat (x + k * 9))); try lia.
    + apply Nat.eqb_eq. lia.
    + now rewrite <- getZ_of_nat, Z2Nat.id by lia.
  - intros H j Hj Hji Hsame Hnth. apply Nat.eqb_eq in Hsame.
    assert (Hk : strictEq (getZ grid (x + Z.of_nat (j / 9) * 9)%Z)
                   [digitChar v] = false) by (apply H; lia).
    apply strictEq_false in Hk. apply Hk.
    replace (x + Z.of_nat (j / 9) * 9)%Z with (Z.of_nat j) by lia.
    now rewrite getZ_of_nat.
Qed.

Lemma checkColPlacement_iff_witness :
  toBaseZeroCoordinate "A" 1 = Some (0, 0, 0)%Z /\
  (valid (checkColPlacement testPuzzle "A" 1 (numText 7)) = true <->
   (forall k, (0 <= k < 9)%Z -> k <> 0%Z ->
      strictEq (getZ testPuzzle (0 + k * 9)%Z) (numText 7) = false)).
Proof.
  assert (H : toBaseZeroCoordinate "A" 1 = Some (0, 0, 0)%Z) by reflexivity.
  split; [exact H|].
  apply (checkColPlacement_iff testPuzzle "A" 1 7 0 0 0); [lia|exact H].
Defined.

(** X6: on a coordinate in range and a digit value, the region check
    returns, and is valid exactly when no cell of the 3x3 region of the
    target cell other than that cell holds the digit. *)
Theorem checkRegionPlacement_iff (grid : jsstring) (r : ascii)
    (c v x y cell : Z) :
  (0 <= v <= 9)%Z ->
  toBaseZeroCoordinate r c = Some (x, y, cell) ->
  exists res,
    checkRegionPlacement grid r c (numText v) = Returns res /\
    (valid res = true <->
     (forall a b, (0 <= a < 3)%Z -> (0 <= b < 3)%Z ->
        (9 * (y / 3 * 3 + a) + (x / 3 * 3 + b) <> cell)%Z ->
        strictEq (getZ grid (9 * (y / 3 * 3 + a) + (x / 3 * 3 + b))%Z)
          (numText v) = false)).
Proof.
  intros Hv Hxy. destruct (toBaseZeroCoordinate_Some _ _ _ _ _ Hxy)
    as [(Hx & Hy & Hcell) Hcoord].
  rewrite numText_digit by exact Hv.
  rewrite (checkRegionPlacement_spec grid (Z.to_nat cell) r c (digitChar v))
    by (trivial; lia).
  eexists. split; [reflexivity|]. cbn [valid].
  rewrite freeInb_spec. unfold sameRegionb. split.
  - intros H a b Ha Hb Hne. apply strictEq_false. intros Hs.
    apply (H (Z.to_nat (9 * (y / 3 * 3 + a) + (x / 3 * 3 + b)))); try lia.
    + apply andb_true_intro. split; apply Nat.eqb_eq; lia.
    + now rewrite <- getZ_of_nat, Z2Nat.id by lia.
  - intros H j Hj Hji Hsame Hnth. apply andb_prop in Hsame as [H1 H2].
    apply Nat.eqb_eq in H1, H2.
    assert (Hk : strictEq
                   (getZ grid (9 * (y / 3 * 3 + Z.of_nat (j / 9 mod 3))
                               + (x / 3 * 3 + Z.of_nat (j mod 3)))%Z)
                   [digitChar v] = false) by (apply H; lia).
    apply strictEq_false in Hk. apply Hk.
    replace (9 * (y / 3 * 3 + Z.of_nat (j / 9 mod 3))
             + (x / 3 * 3 + Z.of_nat (j mod 3)))%Z
      with (Z.of_nat j) by lia.
    now rewrite getZ_of_nat.
Qed.

Lemma checkRegionPlacement_iff_witness :
  toBaseZeroCoordinate "E" 5 = Some (4, 4, 40)%Z /\
  exists res,
    checkRegionPlacement testPuzzle "E" 5 (numText 7) = Returns res /\
    (valid res = true <->
     (forall a b, (0 <= a < 3)%Z -> (0 <= b < 3)%Z ->
        (9 * (4 / 3 * 3 + a) + (4 / 3 * 3 + b) <> 40)%Z ->
        strictEq (getZ testPuzzle (9 * (4 / 3 * 3 + a) + (4 / 3 * 3 + b))%Z)
          (numText 7) = false)).
Proof.
  assert (H : toBaseZeroCoordinate "E" 5 = Some (4, 4, 40)%Z) by reflexivity.
  split; [exact H|].
  apply (checkRegionPlacement_iff testPuzzle "E" 5 7 4 4 40); [lia|exact H].
Defined.

(** X7: on an array of one-character strings the row check takes the
    detour of a comma-joined text, and the combined check still gives,
    for every digit value, the verdict it gives on the string. *)
Theorem checkPlacement_array_string (p : list ascii) (r : ascii) (c v : Z) :
  (0 <= v <= 9)%Z ->
  checkRowPlacementArr p r c (numText v) = checkRowPlacement p r c (numText v)
  /\ checkPlacementArr p r c (numText v) = checkPlacement p r c (numText v).
Proof.
  intros Hv. rewrite numText_digit by exact Hv.
  pose proof (digitChar_not_comma v Hv) as Hc.
  split; [now apply checkRowPlacementArr_string|].
  now apply checkPlacementArr_string.
Qed.

Lemma checkPlacement_array_string_witness :
  checkRowPlacementArr testSolution "A" 3 (numText 9)
  = checkRowPlacement testSolution "A" 3 (numText 9)
  /\ checkPlacementArr testSolution "A" 3 (numText 9)
     = checkPlacement testSolution "A" 3 (numText 9).
Proof. apply (checkPlacement_array_string testSolution "A" 3 9). lia. Defined.



(** ** The scan and the search *)

(** X9: on an array of at most 81 cells, [getNextEmptyCell] returns
    [false] when no cell is empty; otherwise it returns the first empty
    cell in row-major order, with its row letter and column number, and as
    candidates the digits of 1..9, in ascending order, that no other cell
    of its row, column and region holds. *)
Theorem getNextEmptyCell_first_empty (p : list ascii) :
  length p <= 81 ->
  (fullb p = true -> getNextEmptyCell p = Returns None) /\
  (fullb p = false ->
   exists cell,
     getNextEmptyCell p = Returns (Some cell) /\
     nth_error p (index cell) = Some "."%char /\
     (forall j, j < index cell -> nth_error p j <> Some "."%char) /\
     toLetterNumberCoordinate (Z.of_nat (index cell))
     = (Some (row cell), col cell) /\
     possible cell = filter (freeAtb p (index cell)) (lit "123456789")).
Proof.
  intros Hl. rewrite (getNextEmptyCell_spec p Hl). split.
  - intros Hf. now rewrite (proj2 (firstEmpty_None p) Hf).
  - intros Hf. destruct (firstEmpty p) as [i|] eqn:Hi.
    + exists (cellAt p i). split; [reflexivity|]. cbn [cellAt index row col possible].
      pose proof (firstEmpty_Some p i Hi) as (_ & Hil & _).
      apply firstEmptyFrom_Some in Hi as (_ & Hnth & Hbefore).
      rewrite Nat.sub_0_r in *.
      split; [exact Hnth|]. split; [exact Hbefore|].
      split; [apply coord_at; lia|reflexivity].
    + apply firstEmpty_None in Hi. congruence.
Qed.

Lemma getNextEmptyCell_first_empty_witness :
  length testPuzzle <= 81 /\
  (fullb testPuzzle = true -> getNextEmptyCell testPuzzle = Returns None) /\
  (fullb testPuzzle = false ->
   exists cell,
     getNextEmptyCell testPuzzle = Returns (Some cell) /\
     nth_error testPuzzle (index cell) = Some "."%char /\
     (forall j, j < index cell -> nth_error testPuzzle j <> Some "."%char) /\
     toLetterNumberCoordinate (Z.of_nat (index cell))
     = (Some (row cell), col cell) /\
     possible cell
     = filter (freeAtb testPuzzle (index cell)) (lit "123456789")).
Proof.
  assert (H : length testPuzzle <= 81) by (vm_compute; lia).
  split; [exact H|]. exact (getNextEmptyCell_first_empty testPuzzle H).
Defined.

Lemma getNextEmptyCellFrom_throws (p : list ascii) (rest : list ascii)
    (k i : nat) :
  firstEmptyFrom k rest = Some i -> 81 <= i ->
  getNextEmptyCellFrom p k rest = Throws.
Proof.
  revert k; induction rest as [|c rest IH]; intros k H Hi; [discriminate|].
  cbn [firstEmptyFrom getNextEmptyCellFrom] in *.
  unfold isEmptyb, emptyMarker in H.
  destruct (Ascii.eqb c "."); [|now apply IH].
  injection H as ->. unfold toLetterNumberCoordinate.
  replace (getZ rowLetters (Z.of_nat i / 9)) with (@None ascii);
    [reflexivity|].
  symmetry. replace (Z.of_nat i / 9)%Z with (Z.of_nat (i / 9)) by lia.
  rewrite getZ_of_nat. apply nth_error_None.
  change (length rowLetters) with 9. lia.
Qed.

(** X10: when the first empty cell of an array lies at index 81 or
    beyond, it has no row letter and [getNextEmptyCell] throws. *)
Theorem getNextEmptyCell_throws (p : list ascii) (i : nat) :
  firstEmpty p = Some i -> 81 <= i -> getNextEmptyCell p = Throws.
Proof. intros H Hi. now apply (getNextEmptyCellFrom_throws p p 0 i). Qed.

Lemma getNextEmptyCell_throws_witness :
  (firstEmpty tooLong = Some 81 /\ 81 <= 81) /\
  getNextEmptyCell tooLong = Throws.
Proof.
  assert (H1 : firstEmpty tooLong = Some 81) by reflexivity.
  assert (H2 : 81 <= 81) by lia.
  split; [split; assumption|].
  exact (getNextEmptyCell_throws tooLong 81 H1 H2).
Defined.

Lemma validate_errors (p : jsstring) (e : string) :
  validate p = ValidateErr e ->
  e = EmptyInput \/ e = WrongLength \/ e = InvalidCharacters.
Proof.
  unfold validate. destruct p as [|c p].
  - intros H. injection H as <-. auto.
  - destruct (negb (length (c :: p) =? 81)).
    + intros H. injection H as <-. auto.
    + destruct (negb (validPuzzleRegex_test (c :: p))); [|discriminate].
      intros H. injection H as <-. auto.
Qed.

(** X11: [solve] returns on every string, within its recursion budget
    and without throwing: the error of [validate] when validation fails,
    and otherwise a solution or the error [PuzzleUnsolvable]. *)
Theorem solve_result (p : jsstring) :
  (forall e, validate p = ValidateErr e -> solve p = Returns (Error e)) /\
  (validate p = ValidateOk ->
   (exists s, solve p = Returns (Solution s)) \/
   solve p = Returns (Error PuzzleUnsolvable)).
Proof.
  split.
  - intros e He. unfold solve. now rewrite He.
  - intros Hv. unfold solve. rewrite Hv.
    apply validate_ok_iff in Hv as [Hl _].
    destruct (solveArr_returns solveFuel p Hl) as (res & q & Hr).
    { pose proof (countEmpty_le p). unfold solveFuel. lia. }
    rewrite Hr. cbn [bind fst].
    destruct (solveArr_inv solveFuel p res q Hl Hr) as [(-> & _)|[-> _]];
      eauto.
Qed.

Lemma solve_result_witness :
  (validate testPuzzle = ValidateOk /\
   validate (lit "..") = ValidateErr WrongLength) /\
  ((exists s, solve testPuzzle = Returns (Solution s)) \/
   solve testPuzzle = Returns (Error PuzzleUnsolvable)) /\
  solve (lit "..") = Returns (Error WrongLength).
Proof.
  assert (H1 : validate testPuzzle = ValidateOk) by reflexivity.
  assert (H2 : validate (lit "..") = ValidateErr WrongLength) by reflexivity.
  split; [split; assumption|]. split.
  - exact (proj2 (solve_result testPuzzle) H1).
  - exact (proj1 (solve_result (lit "..")) WrongLength H2).
Defined.

(** X12: a recursive call [solve(arr, false)] on an array of 81 cells
    returns within a recursion depth of the number of empty cells plus
    one; it leaves the array unchanged with the error [PuzzleUnsolvable],
    or it leaves the array without empty cell and returns it as the
    solution. *)
Theorem solveArr_depth (fuel : nat) (a : list ascii) :
  length a = 81 -> countEmpty a < fuel ->
  exists res q,
    solveArr fuel a = Returns (res, q) /\
    ((res = Error PuzzleUnsolvable /\ q = a) \/
     (res = Solution q /\ fullb q = true)).
Proof.
  intros Hl Hf. destruct (solveArr_returns fuel a Hl Hf) as (res & q & Hr).
  exists res, q. split; [exact Hr|].
  destruct (solveArr_inv fuel a res q Hl Hr)
    as [(He & Hq & _)|[Hs (_ & Hfull & _)]]; auto.
Qed.

Lemma solveArr_depth_witness :
  (length testPuzzle = 81 /\ countEmpty testPuzzle < 52) /\
  exists res q,
    solveArr 52 testPuzzle = Returns (res, q) /\
    ((res = Error PuzzleUnsolvable /\ q = testPuzzle) \/
     (res = Solution q /\ fullb q = true)).
Proof.
  assert (H1 : length testPuzzle = 81) by reflexivity.
  assert (H2 : countEmpty testPuzzle < 52) by (vm_compute; lia).
  split; [split; assumption|].
  exact (solveArr_depth 52 testPuzzle H1 H2).
Defined.

(** X13: a solution returned by [solve] has 81 cells, none of them empty,
    and every cell that was empty in the puzzle holds a digit of 1..9
    that no other cell of its row, column and region holds. *)
Theorem solve_solution_sound (p s : jsstring) :
  solve p = Returns (Solution s) ->
  length s = 81 /\ ~ In "."%char s /\
  forall i, nth_error p i = Some "."%char ->
    exists c, nth_error s i = Some c /\ isPlacedDigit c = true /\
              freeAtb s i c = true.
Proof.
  intros H. apply solve_solution in H as [Hv (Hl & Hf & _ & Hnew)].
  apply validate_ok_iff in Hv as [Hlp _].
  split; [congruence|]. split.
  - intros Hin. apply In_nth_error in Hin as (k & Hk).
    exact (proj1 (fullb_spec s) Hf k _ Hk eq_refl).
  - intros i Hi.
    destruct (nth_error s i) as [c|] eqn:Hc.
    + exists c. split; [reflexivity|]. now apply (Hnew i c).
    + apply nth_error_None in Hc.
      assert (i < length p) by (apply nth_error_Some; congruence). lia.
Qed.

Lemma solve_solution_sound_witness :
  solve testPuzzle = Returns (Solution testSolution) /\
  length testSolution = 81 /\ ~ In "."%char testSolution /\
  forall i, nth_error testPuzzle i = Some "."%char ->
    exists c, nth_error testSolution i = Some c /\ isPlacedDigit c = true /\
              freeAtb testSolution i c = true.
Proof.
  assert (H : solve testPuzzle = Returns (Solution testSolution))
    by (vm_compute; reflexivity).
  split; [exact H|]. exact (solve_solution_sound testPuzzle testSolution H).
Defined.

(** X14: [solve] reports [PuzzleUnsolvable] only when the puzzle has no
    completion: no grid of digits 1..9 without conflicts keeps its filled
    cells. *)
Theorem solve_unsolvable_no_completion (p g : jsstring) :
  solve p = Returns (Error PuzzleUnsolvable) -> ~ completion p g.
Proof.
  intros H Hcomp. destruct (validate p) as [|e] eqn:Hv.
  - destruct (solve_completion p g Hv Hcomp) as (s & Hs). congruence.
  - unfold solve in H. rewrite Hv in H. injection H as ->.
    apply validate_errors in Hv as [Hv|[Hv|Hv]]; discriminate Hv.
Qed.

Lemma solve_unsolvable_no_completion_witness :
  solve unsolvablePuzzle = Returns (Error PuzzleUnsolvable) /\
  ~ completion unsolvablePuzzle testSolution.
Proof.
  assert (H : solve unsolvablePuzzle = Returns (Error PuzzleUnsolvable))
    by (vm_compute; reflexivity).
  split; [exact H|].
  exact (solve_unsolvable_no_completion unsolvablePuzzle testSolution H).
Defined.

Lemma solution_completion (p s : jsstring) :
  digitsOrEmptyb p = true -> conflictFreeb p = true ->
  solve p = Returns (Solution s) -> completion p s.
Proof.
  intros Hd Hcf H. apply solve_solution in H as [Hv Hfill].
  apply validate_ok_iff in Hv as [Hl _].
  pose proof (fills_conflictFree p s Hl Hcf Hfill) as Hcfs.
  destruct Hfill as (Hls & Hf & Hkeep & Hnew).
  split; [congruence|]. split; [exact Hl|].
  split; [|split; [exact Hcfs|exact Hkeep]].
  apply forallb_forall. intros c Hin. apply In_nth_error in Hin as (k & Hk).
  destruct (nth_error p k) as [e|] eqn:He.
  - destruct (Ascii.eqb_spec e emptyMarker) as [->|Hne].
    + now apply (Hnew k c).
    + pose proof (Hkeep k e He Hne) as Hq.
      assert (c = e) by congruence. subst c.
      pose proof (forallb_nth_error _ _ _ _ Hd He) as Hde. cbn beta in Hde.
      apply orb_prop in Hde as [Hde|Hde]; trivial.
      apply Ascii.eqb_eq in Hde. contradiction.
  - apply nth_error_None in He.
    assert (k < length s) by (apply nth_error_Some; congruence). lia.
Qed.

(** X15: when the filled cells of the puzzle are digits of 1..9 without
    conflicts, a solution returned by [solve] is a completion of the
    puzzle: a full grid of digits 1..9 without conflicts that keeps the
    filled cells. *)
Theorem solve_solution_completion (p s : jsstring) :
  digitsOrEmptyb p = true -> conflictFreeb p = true ->
  solve p = Returns (Solution s) ->
  completion p s.
Proof. apply solution_completion. Qed.

Lemma solve_solution_completion_witness :
  (digitsOrEmptyb testPuzzle = true /\ conflictFreeb testPuzzle = true /\
   solve testPuzzle = Returns (Solution testSolution)) /\
  completion testPuzzle testSolution.
Proof.
  assert (H1 : digitsOrEmptyb testPuzzle = true) by reflexivity.
  assert (H2 : conflictFreeb testPuzzle = true) by (vm_compute; reflexivity).
  assert (H3 : solve testPuzzle = Returns (Solution testSolution))
    by (vm_compute; reflexivity).
  split; [repeat split; assumption|].
  exact (solve_solution_completion testPuzzle testSolution H1 H2 H3).
Defined.

(** X16: when the puzzle has exactly one completion, [solve] returns
    it. *)
Theorem solve_unique_completion (p g : jsstring) :
  validate p = ValidateOk ->
  completion p g ->
  (forall g', completion p g' -> g' = g) ->
  solve p = Returns (Solution g).
Proof.
  intros Hv Hcomp Huniq.
  destruct (solve_completion p g Hv Hcomp) as (s & Hs).
  destruct (completion_digitsOrEmpty p g Hcomp) as [Hd Hcf].
  pose proof (solution_completion p s Hd Hcf Hs) as Hcs.
  now rewrite <- (Huniq s Hcs).
Qed.

Lemma completion_full (p g : jsstring) :
  fullb p = true -> completion p g -> g = p.
Proof.
  intros Hf (Hlg & Hlp & _ & _ & Hkeep). apply nth_error_eq. intros k.
  destruct (nth_error p k) as [c|] eqn:Hk.
  - apply Hkeep; trivial. exact (proj1 (fullb_spec p) Hf k c Hk).
  - apply nth_error_None in Hk. apply nth_error_None. lia.
Qed.

Lemma solve_unique_completion_witness :
  (validate almostSolved = ValidateOk /\
   completion almostSolved testSolution) /\
  solve almostSolved = Returns (Solution testSolution).
Proof.
  assert (H1 : validate almostSolved = ValidateOk) by reflexivity.
  assert (H2 : completion almostSolved testSolution).
  { split; [reflexivity|]. split; [reflexivity|].
    split; [reflexivity|]. split; [vm_compute; reflexivity|].
    intros i c Hi Hc. destruct (Nat.eq_dec i 40) as [->|Hne].
    - vm_compute in Hi. injection Hi as <-. now elim Hc.
    - unfold almostSolved in Hi.
      now rewrite nth_error_setNth_neq in Hi by exact Hne. }
  split; [split; assumption|].
  apply (solve_unique_completion almostSolved testSolution H1 H2).
  intros g' Hg'.
  destruct Hg' as (Hlg & _ & Hdig & Hcf & Hkeep).
  apply nth_error_eq. intros k.
  destruct (Nat.eq_dec k 40) as [->|Hne].
  - destruct (nth_error g' 40) as [c|] eqn:Hc;
      [|apply nth_error_None in Hc; lia].
    pose proof (forallb_nth_error _ _ _ _ Hdig Hc) as Hd.
    pose proof (proj1 (conflictFreeb_spec g') Hcf 40 c ltac:(lia) Hc
                  (placed_not_empty c Hd)) as Hfree.
    assert (Hrow : forall j d, 36 <= j < 45 -> j <> 40 ->
                     nth_error testSolution j = Some d -> c <> d).
    { intros j d Hj Hj40 Hd' ->.
      apply (proj1 (freeAtb_spec g' 40 d) Hfree j); try lia.
      - unfold peerb, sameRowb.
        replace (40 / 9 =? j / 9) with true; [reflexivity|].
        symmetry. apply Nat.eqb_eq. lia.
      - apply Hkeep; [|intros ->; discriminate Hd].
        unfold almostSolved. rewrite nth_error_setNth_neq by exact Hj40.
        exact Hd'. }
    apply In_digits19 in Hd. vm_compute in Hd.
    pose proof (Hrow 36 _ ltac:(lia) ltac:(lia) eq_refl).
    pose proof (Hrow 37 _ ltac:(lia) ltac:(lia) eq_refl).
    pose proof (Hrow 38 _ ltac:(lia) ltac:(lia) eq_refl).
    pose proof (Hrow 39 _ ltac:(lia) ltac:(lia) eq_refl).
    pose proof (Hrow 41 _ ltac:(lia) ltac:(lia) eq_refl).
    pose proof (Hrow 42 _ ltac:(lia) ltac:(lia) eq_refl).
    pose proof (Hrow 43 _ ltac:(lia) ltac:(lia) eq_refl).
    pose proof (Hrow 44 _ ltac:(lia) ltac:(lia) eq_refl).
    repeat (destruct Hd as [<-|Hd]; [try congruence; reflexivity|]).
    destruct Hd.
  - destruct (nth_error testSolution k) as [c|] eqn:Hc.
    + apply Hkeep.
      * unfold almostSolved. now rewrite nth_error_setNth_neq by exact Hne.
      * intros ->. apply nth_error_In in Hc.
        revert Hc. vm_compute. intuition discriminate.
    + apply nth_error_None in Hc. apply nth_error_None.
      change (length testSolution) with 81 in Hc. lia.
Defined.

(** ** The completed-puzzle checker, in full *)

Lemma checkSolveFrom_cases (p rest : jsstring) (k : nat) :
  k + length rest = 81 ->
  (forall j c, nth_error rest j = Some c -> nth_error p (k + j) = Some c) ->
  forallb isPuzzleChar rest = true ->
  (checkSolveFrom p k rest = Returns solvedResult /\
   forall j c, nth_error rest j = Some c ->
               c <> emptyMarker /\ freeAtb p (k + j) c = true)
  \/
  (exists j,
     checkSolveFrom p k rest = Returns notSolvedResult /\
     nth_error rest j = Some emptyMarker /\
     forall j' c, j' < j -> nth_error rest j' = Some c ->
                  c <> emptyMarker /\ freeAtb p (k + j') c = true)
  \/
  (exists j c,
     checkSolveFrom p k rest
     = Returns (mkCheckSolved false
                  (Some (conflictMessage (rowLetterAt (k + j))
                           (columnAt (k + j))))
                  (Some (conflictsAt p (k + j) c))) /\
     nth_error rest j = Some c /\ c <> emptyMarker /\
     freeAtb p (k + j) c = false /\
     forall j' d, j' < j -> nth_error rest j' = Some d ->
                  d <> emptyMarker /\ freeAtb p (k + j') d = true).
Proof.
  revert k; induction rest as [|c rest IH]; intros k Hk Hsub Hch.
  - left. split; [reflexivity|]. intros [|j] d Hd; discriminate Hd.
  - cbn [forallb] in Hch. apply andb_prop in Hch as [Hc Hch].
    simpl in Hk.
    destruct (Ascii.eqb_spec c emptyMarker) as [->|Hne].
    + right. left. exists 0. split; [reflexivity|]. split; [reflexivity|].
      intros j' d Hj'. lia.
    + rewrite checkSolveFrom_cons by (try lia; now apply puzzleChar_digit).
      assert (Hpk : nth_error p k = Some c).
      { rewrite <- (Nat.add_0_r k). now apply Hsub. }
      destruct (freeAtb p k c) eqn:Hfree.
      * rewrite (conflictsAt_nil p k c Hfree). cbn [length Nat.ltb Nat.leb].
        assert (Hsub' : forall j d, nth_error rest j = Some d ->
                                    nth_error p (S k + j) = Some d).
        { intros j d Hj. replace (S k + j) with (k + S j) by lia.
          now apply Hsub. }
        assert (Hhead : forall j' d, nth_error (c :: rest) j' = Some d ->
                  (j' = 0 /\ d = c) \/
                  (exists j, j' = S j /\ nth_error rest j = Some d)).
        { intros [|j'] d Hd; [left; simpl in Hd; split; congruence|].
          right. exists j'. auto. }
        destruct (IH (S k) ltac:(lia) Hsub' Hch)
          as [[Hr Hall]|[(j & Hr & Hj & Hbefore)|(j & d & Hr & Hj & Hd & Hf & Hbefore)]].
        -- left. split; [exact Hr|]. intros j' d Hd.
           destruct (Hhead j' d Hd) as [[-> ->]|(j & -> & Hj)].
           ++ rewrite Nat.add_0_r. auto.
           ++ replace (k + S j) with (S k + j) by lia. now apply Hall.
        -- right. left. exists (S j). split; [exact Hr|].
           split; [exact Hj|]. intros j' d Hlt Hd.
           destruct (Hhead j' d Hd) as [[-> ->]|(j0 & -> & Hj0)].
           ++ rewrite Nat.add_0_r. auto.
           ++ replace (k + S j0) with (S k + j0) by lia.
              apply Hbefore; trivial. lia.
        -- right. right. exists (S j), d.
           replace (k + S j) with (S k + j) by lia.
           split; [exact Hr|]. split; [exact Hj|]. split; [exact Hd|].
           split; [exact Hf|]. intros j' e Hlt He.
           destruct (Hhead j' e He) as [[-> ->]|(j0 & -> & Hj0)].
           ++ rewrite Nat.add_0_r. auto.
           ++ replace (k + S j0) with (S k + j0) by lia.
              apply Hbefore; trivial. lia.
      * right. right. exists 0, c. rewrite Nat.add_0_r.
        pose proof (conflictsAt_cons p k c Hfree) as Hlen.
        apply Nat.ltb_lt in Hlen. rewrite Hlen.
        split; [reflexivity|]. split; [reflexivity|]. split; [exact Hne|].
        split; [exact Hfree|]. intros j' d Hlt. lia.
Qed.

Lemma checkSolve_cases (p : jsstring) :
  validate p = ValidateOk ->
  (checkSolve p = Returns solvedResult /\
   forall j c, nth_error p j = Some c ->
               c <> emptyMarker /\ freeAtb p j c = true)
  \/
  (exists j,
     checkSolve p = Returns notSolvedResult /\
     nth_error p j = Some emptyMarker /\
     forall j' c, j' < j -> nth_error p j' = Some c ->
                  c <> emptyMarker /\ freeAtb p j' c = true)
  \/
  (exists j c,
     checkSolve p
     = Returns (mkCheckSolved false
                  (Some (conflictMessage (rowLetterAt j) (columnAt j)))
                  (Some (conflictsAt p j c))) /\
     nth_error p j = Some c /\ c <> emptyMarker /\
     freeAtb p j c = false /\
     forall j' d, j' < j -> nth_error p j' = Some d ->
                  d <> emptyMarker /\ freeAtb p j' d = true).
Proof.
  intros Hv. unfold checkSolve. rewrite Hv.
  apply validate_ok_iff in Hv as [Hl Hch].
  exact (checkSolveFrom_cases p p 0 Hl (fun j c H => H) Hch).
Qed.

(** X17: [checkSolve] reports [solved: true] exactly for the strings that
    pass [validate], have no empty cell and have no cell in conflict with
    another cell of its row, column or region. *)
Theorem checkSolve_solved_iff (p : jsstring) :
  (exists r, checkSolve p = Returns r /\ solved r = true) <->
  validate p = ValidateOk /\ fullb p = true /\ conflictFreeb p = true.
Proof.
  split.
  - intros (r & Hr & Hs). destruct (validate p) as [|e] eqn:Hv.
    + split; [reflexivity|].
      destruct (checkSolve_cases p Hv)
        as [[_ Hall]|[(j & Hr' & _)|(j & c & Hr' & _)]].
      * split.
        -- apply fullb_spec. intros k c Hk. now apply (Hall k c).
        -- apply conflictFreeb_spec. intros k c _ Hk _. now apply (Hall k c).
      * rewrite Hr' in Hr. injection Hr as <-. discriminate Hs.
      * rewrite Hr' in Hr. injection Hr as <-. discriminate Hs.
    + unfold checkSolve in Hr. rewrite Hv in Hr. injection Hr as <-.
      discriminate Hs.
  - intros (Hv & Hf & Hcf). exists solvedResult. split; [|reflexivity].
    pose proof (proj1 (validate_ok_iff p) Hv) as [Hl _].
    destruct (checkSolve_cases p Hv)
      as [[Hr _]|[(j & _ & Hj & _)|(j & c & _ & Hj & Hc & Hfree & _)]].
    + exact Hr.
    + exfalso. exact (proj1 (fullb_spec p) Hf j _ Hj eq_refl).
    + exfalso.
      assert (Hj81 : j < 81).
      { rewrite <- Hl. apply nth_error_Some. congruence. }
      rewrite (proj1 (conflictFreeb_spec p) Hcf j c Hj81 Hj Hc) in Hfree.
      discriminate Hfree.
Qed.

(** X18: on a string that passes [validate], when cell [k] holds a
    character in conflict and no cell before it is empty or in conflict,
    [checkSolve] reports that cell: the error names its coordinate and
    the conflict list holds, in this order, those of ["row"], ["column"]
    and ["region"] whose check fails; it is not empty. *)
Theorem checkSolve_first_conflict (p : jsstring) (k : nat) (c : ascii) :
  validate p = ValidateOk ->
  nth_error p k = Some c -> c <> "."%char -> freeAtb p k c = false ->
  (forall j d, j < k -> nth_error p j = Some d ->
               d <> "."%char /\ freeAtb p j d = true) ->
  checkSolve p
  = Returns (mkCheckSolved false
               (Some (conflictMessage (rowLetterAt k) (columnAt k)))
               (Some (conflictsAt p k c))) /\
  conflictsAt p k c <> [].
Proof.
  intros Hv Hk Hc Hfree Hbefore. split.
  - destruct (checkSolve_cases p Hv)
      as [[_ Hall]|[(j & _ & Hj & Hclean)|(j & d & Hr & Hj & Hd & Hf & Hclean)]].
    + destruct (Hall k c Hk) as [_ H]. congruence.
    + exfalso. destruct (Nat.lt_trichotomy j k) as [Hlt|[->|Hgt]].
      * destruct (Hbefore j _ Hlt Hj) as [H _]. now apply H.
      * unfold emptyMarker in Hj. congruence.
      * destruct (Hclean k c Hgt Hk) as [_ H]. congruence.
    + destruct (Nat.lt_trichotomy j k) as [Hlt|[->|Hgt]].
      * destruct (Hbefore j d Hlt Hj) as [_ H]. congruence.
      * assert (d = c) by congruence. subst d. exact Hr.
      * destruct (Hclean k c Hgt Hk) as [_ H]. congruence.
  - intros Hnil. pose proof (conflictsAt_cons p k c Hfree) as Hlen.
    rewrite Hnil in Hlen. simpl in Hlen. lia.
Qed.

Lemma checkSolve_first_conflict_witness :
  (validate twoOnes = ValidateOk /\ nth_error twoOnes 0 = Some "1"%char /\
   freeAtb twoOnes 0 "1" = false) /\
  checkSolve twoOnes
  = Returns (mkCheckSolved false
               (Some (conflictMessage (rowLetterAt 0) (columnAt 0)))
               (Some (conflictsAt twoOnes 0 "1"))) /\
  conflictsAt twoOnes 0 "1" <> [].
Proof.
  assert (H1 : validate twoOnes = ValidateOk) by reflexivity.
  assert (H2 : nth_error twoOnes 0 = Some "1"%char) by reflexivity.
  assert (H3 : freeAtb twoOnes 0 "1" = false) by (vm_compute; reflexivity).
  split; [repeat split; assumption|].
  apply (checkSolve_first_conflict twoOnes 0 "1" H1 H2); [discriminate|exact H3|].
  intros j d Hj. lia.
Defined.

(** X19: [checkSolve] returns on every string without throwing; a result
    that is not solved carries an error message, and a conflict list
    comes only with a result that is not solved. *)
Theorem checkSolve_returns (p : jsstring) :
  exists r, checkSolve p = Returns r /\
            (solved r = false -> serror r <> None) /\
            (conflict r <> None -> solved r = false).
Proof.
  destruct (validate p) as [|e] eqn:Hv.
  - destruct (checkSolve_cases p Hv)
      as [[Hr _]|[(j & Hr & _)|(j & c & Hr & _)]];
      rewrite Hr; eexists; (split; [reflexivity|]); cbn; split;
        intros H; congruence.
  - unfold checkSolve. rewrite Hv. eexists. split; [reflexivity|]. cbn.
    split; intros H; congruence.
Qed.

Lemma checkSolve_solved_iff_witness :
  (validate testSolution = ValidateOk /\ fullb testSolution = true /\
   conflictFreeb testSolution = true) /\
  exists r, checkSolve testSolution = Returns r /\ solved r = true.
Proof.
  assert (H1 : validate testSolution = ValidateOk) by reflexivity.
  assert (H2 : fullb testSolution = true) by reflexivity.
  assert (H3 : conflictFreeb testSolution = true) by (vm_compute; reflexivity).
  split; [repeat split; assumption|].
  apply (proj2 (checkSolve_solved_iff testSolution)). auto.
Defined.

(** ** The generator, further *)

Local Open Scope Z_scope.

Lemma roundHalfEven_bounds (n s : Z) :
  n / 2 ^ s <= roundHalfEven n s <= n / 2 ^ s + 1.
Proof.
  unfold roundHalfEven.
  destruct (2 * (n mod 2 ^ s) <? 2 ^ s); [lia|].
  destruct (2 ^ s <? 2 * (n mod 2 ^ s)); [lia|].
  destruct (Z.even (n / 2 ^ s)); lia.
Qed.

Lemma roundHalfEven_mono (n m s : Z) :
  0 <= s -> n <= m -> roundHalfEven n s <= roundHalfEven m s.
Proof.
  intros Hs Hnm.
  assert (HP : 0 < 2 ^ s) by (apply Z.pow_pos_nonneg; lia).
  pose proof (Z.div_le_mono n m (2 ^ s) HP Hnm) as Hq.
  pose proof (Z.div_mod n (2 ^ s) ltac:(lia)) as Hn.
  pose proof (Z.div_mod m (2 ^ s) ltac:(lia)) as Hm.
  pose proof (Z.mod_pos_bound n (2 ^ s) HP) as Hrn.
  pose proof (Z.mod_pos_bound m (2 ^ s) HP) as Hrm.
  assert (Hr : n / 2 ^ s = m / 2 ^ s -> n mod 2 ^ s <= m mod 2 ^ s).
  { intros He. rewrite He in Hn. lia. }
  unfold roundHalfEven.
  destruct (Z.eq_dec (n / 2 ^ s) (m / 2 ^ s)) as [He|Hne].
  - specialize (Hr He). rewrite He.
    destruct (Z.ltb_spec (2 * (n mod 2 ^ s)) (2 ^ s));
    destruct (Z.ltb_spec (2 * (m mod 2 ^ s)) (2 ^ s)); try lia;
    destruct (Z.ltb_spec (2 ^ s) (2 * (n mod 2 ^ s)));
    destruct (Z.ltb_spec (2 ^ s) (2 * (m mod 2 ^ s))); try lia;
    destruct (Z.even (m / 2 ^ s)); lia.
  - pose proof (roundHalfEven_bounds n s) as Hbn.
    pose proof (roundHalfEven_bounds m s) as Hbm.
    unfold roundHalfEven in Hbn, Hbm. lia.
Qed.

Lemma roundDouble_nonneg_eq (a : Z) :
  0 <= a ->
  roundDouble a
  = roundHalfEven a (Z.max (Z.log2 a - 52) 0) * 2 ^ Z.max (Z.log2 a - 52) 0.
Proof.
  intros Ha. unfold roundDouble. rewrite (Z.abs_eq a Ha).
  destruct (Z.eq_dec a 0) as [->|Hne]; [reflexivity|].
  rewrite Z.sgn_pos by lia. lia.
Qed.

Lemma roundDouble_opp (n : Z) : roundDouble (- n) = - roundDouble n.
Proof.
  unfold roundDouble. rewrite Z.abs_opp, Z.sgn_opp. ring.
Qed.

Lemma roundDouble_nonneg (a : Z) : 0 <= a -> 0 <= roundDouble a.
Proof.
  intros Ha. rewrite roundDouble_nonneg_eq by exact Ha.
  set (s := Z.max (Z.log2 a - 52) 0).
  assert (HP : 0 < 2 ^ s) by (apply Z.pow_pos_nonneg; lia).
  pose proof (roundHalfEven_bounds a s) as Hb.
  pose proof (Z.div_pos a (2 ^ s) Ha HP). nia.
Qed.

(** Rounding keeps the order: within a binade by the rounding of the
    quotient, across binades because a power of two is a double. *)
Lemma roundDouble_mono_nonneg (a b : Z) :
  0 <= a <= b -> roundDouble a <= roundDouble b.
Proof.
  intros [Ha Hab].
  destruct (Z.eq_dec a 0) as [->|Hne].
  { apply (roundDouble_nonneg b). lia. }
  rewrite !roundDouble_nonneg_eq by lia.
  pose proof (Z.log2_le_mono a b Hab) as Hlog.
  set (sa := Z.max (Z.log2 a - 52) 0). set (sb := Z.max (Z.log2 b - 52) 0).
  assert (Hsa : 0 <= sa) by lia. assert (Hsb : 0 <= sb) by lia.
  assert (Hs : sa <= sb) by lia.
  assert (HPa : 0 < 2 ^ sa) by (apply Z.pow_pos_nonneg; lia).
  assert (HPb : 0 < 2 ^ sb) by (apply Z.pow_pos_nonneg; lia).
  destruct (Z.eq_dec sa sb) as [He|Hlt].
  - rewrite He. apply Z.mul_le_mono_nonneg_r; [lia|].
    now apply roundHalfEven_mono.
  - assert (Hup : roundHalfEven a sa * 2 ^ sa <= 2 ^ (sa + 53)).
    { destruct (Z.log2_spec a ltac:(lia)) as [_ Hlt2].
      assert (Hlt3 : a < 2 ^ (sa + 53)).
      { eapply Z.lt_le_trans; [exact Hlt2|].
        apply Z.pow_le_mono_r; lia. }
      rewrite Z.pow_add_r in Hlt3 by lia.
      assert (a / 2 ^ sa < 2 ^ 53)
        by (apply Z.div_lt_upper_bound; [lia|]; lia).
      pose proof (roundHalfEven_bounds a sa).
      rewrite Z.pow_add_r by lia. nia. }
    assert (Hlow : 2 ^ (sb + 52) <= roundHalfEven b sb * 2 ^ sb).
    { assert (Hsb' : sb = Z.log2 b - 52) by lia.
      destruct (Z.log2_spec b ltac:(lia)) as [Hge _].
      replace (Z.log2 b) with (sb + 52) in Hge by lia.
      rewrite Z.pow_add_r in * by lia.
      assert (2 ^ 52 <= b / 2 ^ sb)
        by (apply Z.div_le_lower_bound; [lia|]; lia).
      pose proof (roundHalfEven_bounds b sb). nia. }
    assert (2 ^ (sa + 53) <= 2 ^ (sb + 52))
      by (apply Z.pow_le_mono_r; lia).
    lia.
Qed.

Lemma roundDouble_mono (n m : Z) : n <= m -> roundDouble n <= roundDouble m.
Proof.
  intros H. destruct (Z.le_gt_cases 0 n) as [Hn|Hn].
  - apply roundDouble_mono_nonneg. lia.
  - destruct (Z.le_gt_cases 0 m) as [Hm|Hm].
    + pose proof (roundDouble_nonneg m Hm).
      pose proof (roundDouble_nonneg (- n) ltac:(lia)) as H1.
      rewrite roundDouble_opp in H1. lia.
    + pose proof (roundDouble_mono_nonneg (- m) (- n) ltac:(lia)) as H1.
      rewrite !roundDouble_opp in H1. lia.
Qed.

(** A double below 1 is at most [1 - 2^-53]. *)
Lemma double_below_one (f : Z) :
  isDouble f -> 0 <= f < doubleUnit -> f <= largestBelowOne.
Proof.
  unfold isDouble, doubleUnit, largestBelowOne. intros Hd [H0 H1].
  assert (Hu : 0 < 2 ^ 1021) by (apply Z.pow_pos_nonneg; lia).
  assert (E74 : 2 ^ 1074 = 2 ^ 53 * 2 ^ 1021)
    by (rewrite <- Z.pow_add_r by lia; reflexivity).
  assert (E73 : 2 ^ 1073 = 2 ^ 52 * 2 ^ 1021)
    by (rewrite <- Z.pow_add_r by lia; reflexivity).
  destruct (Z.lt_ge_cases f (2 ^ 1073)) as [Hs|Hb].
  - rewrite E74. rewrite E73 in Hs.
    set (u := 2 ^ 1021) in *. change (2 ^ 53) with 9007199254740992.
    change (2 ^ 52) with 4503599627370496 in Hs. lia.
  - assert (Hlog : Z.log2 f = 1073)
      by (apply Z.log2_unique; [lia|]; split; [exact Hb|exact H1]).
    rewrite roundDouble_nonneg_eq in Hd by exact H0.
    rewrite Hlog in Hd. change (Z.max (1073 - 52) 0) with 1021 in Hd.
    rewrite E74 in *. set (u := 2 ^ 1021) in *.
    set (k := roundHalfEven f 1021) in *.
    change (2 ^ 53) with 9007199254740992 in *. nia.
Qed.

(** The value grows with the outcome of [Math.random()]. *)
Lemma getRandomValueDouble_mono (f g min max : Z) :
  0 <= roundInteger (roundInteger (max - min) + 1) ->
  f <= g ->
  getRandomValueDouble f min max <= getRandomValueDouble g min max.
Proof.
  intros Hr Hfg. unfold getRandomValueDouble.
  apply Z.div_le_mono; [reflexivity|].
  apply roundDouble_mono. apply Z.add_le_mono_r.
  apply roundDouble_mono. now apply Z.mul_le_mono_nonneg_r.
Qed.

Lemma getRandomValueDouble_between (f min max : Z) :
  isDouble f -> 0 <= f < doubleUnit ->
  0 <= roundInteger (roundInteger (max - min) + 1) ->
  getRandomValueDouble 0 min max
  <= getRandomValueDouble f min max
  <= getRandomValueDouble largestBelowOne min max.
Proof.
  intros Hd Hf Hr. pose proof (double_below_one f Hd Hf).
  split; apply getRandomValueDouble_mono; trivial; lia.
Qed.

(** Every integer of the range is a value of the exact formula. *)
Lemma getRandomValue_attains (min max k : Z) :
  min <= k <= max ->
  exists r, (0 <= r)%Q /\ (r < 1)%Q /\ getRandomValue r min max = k.
Proof.
  intros Hk.
  exists ((k - min) # Z.to_pos (max - min + 1)).
  assert (Hn : Z.pos (Z.to_pos (max - min + 1)) = max - min + 1)
    by (apply Z2Pos.id; lia).
  split; [unfold Qle; simpl; lia|].
  split; [unfold Qlt; simpl; lia|].
  unfold getRandomValue. rewrite <- (Qfloor_Z k) at 2.
  apply Qfloor_comp.
  unfold Qeq, Qplus, Qmult, inject_Z. cbn [Qnum Qden].
  rewrite !Pos.mul_1_r, !Z.mul_1_r, Hn. ring.
Qed.

(** At the two calls of [generate] the value computed in doubles is in
    range. *)
Lemma getRandomValueDouble_index (f len : Z) :
  isDouble f -> (0 <= f < doubleUnit)%Z -> (1 <= len <= 9)%Z ->
  (0 <= getRandomValueDouble f 0 (len - 1) <= len - 1)%Z.
Proof.
  intros Hd Hf Hlen.
  assert (Hall :
    forall l, In l [1; 2; 3; 4; 5; 6; 7; 8; 9]%Z ->
      (0 <= roundInteger (roundInteger (l - 1 - 0) + 1))%Z /\
      getRandomValueDouble 0 0 (l - 1) = 0%Z /\
      getRandomValueDouble largestBelowOne 0 (l - 1) = (l - 1)%Z).
  { intros l Hl. simpl in Hl.
    repeat (destruct Hl as [<-|Hl];
            [split; [vm_compute; discriminate|
                     split; vm_compute; reflexivity]|]).
    destruct Hl. }
  assert (Hin : In len [1; 2; 3; 4; 5; 6; 7; 8; 9]%Z) by (simpl; lia).
  destruct (Hall len Hin) as (Hr & H0 & H1).
  pose proof (getRandomValueDouble_between f 0 (len - 1) Hd Hf Hr). lia.
Qed.

Lemma getRandomValueDouble_thousand (f : Z) :
  isDouble f -> (0 <= f < doubleUnit)%Z ->
  (1 <= getRandomValueDouble f 1 1000 <= 1000)%Z.
Proof.
  intros Hd Hf.
  assert (Hr : (0 <= roundInteger (roundInteger (1000 - 1) + 1))%Z)
    by (vm_compute; discriminate).
  assert (H0 : getRandomValueDouble 0 1 1000 = 1%Z)
    by (vm_compute; reflexivity).
  assert (H1 : getRandomValueDouble largestBelowOne 1 1000 = 1000%Z)
    by (vm_compute; reflexivity).
  pose proof (getRandomValueDouble_between f 1 1000 Hd Hf Hr). lia.
Qed.

(** X20: computed in doubles as the source does, [getRandomValue] stays
    within its bounds at the two calls of [generate]: for every double
    [f] of [0, 1) returned by [Math.random()], the index drawn from a pool
    of 1 to 9 digits lies in the pool, and the number drawn between 1 and
    1000 lies between 1 and 1000; each is also the value of the exact
    formula for some rational of [0, 1).  The bounds are not kept for all
    arguments: with [min = max = 4] the outcome [1 - 2^-52] yields 5. *)
Theorem getRandomValue_double (f : Z) :
  isDouble f -> 0 <= f < doubleUnit ->
  (forall len, 1 <= len <= 9 ->
     0 <= getRandomValueDouble f 0 (len - 1) <= len - 1 /\
     exists r, (0 <= r)%Q /\ (r < 1)%Q /\
       getRandomValue r 0 (len - 1) = getRandomValueDouble f 0 (len - 1)) /\
  (1 <= getRandomValueDouble f 1 1000 <= 1000 /\
   exists r, (0 <= r)%Q /\ (r < 1)%Q /\
     getRandomValue r 1 1000 = getRandomValueDouble f 1 1000) /\
  (exists g, isDouble g /\ 0 <= g < doubleUnit /\
             getRandomValueDouble g 4 4 = 5).
Proof.
  intros Hd Hf. split; [|split].
  - intros len Hlen.
    pose proof (getRandomValueDouble_index f len Hd Hf Hlen) as Hb.
    split; [exact Hb|]. apply getRandomValue_attains. lia.
  - pose proof (getRandomValueDouble_thousand f Hd Hf) as Hb.
    split; [exact Hb|]. apply getRandomValue_attains. lia.
  - exists (2 ^ 1074 - 2 ^ 1022).
    split; [vm_compute; reflexivity|].
    split; [split; vm_compute; [discriminate|reflexivity]|].
    vm_compute; reflexivity.
Qed.

Lemma getRandomValue_double_witness :
  (isDouble (2 ^ 1073) /\ 0 <= 2 ^ 1073 < doubleUnit) /\
  (forall len, 1 <= len <= 9 ->
     0 <= getRandomValueDouble (2 ^ 1073) 0 (len - 1) <= len - 1 /\
     exists r, (0 <= r)%Q /\ (r < 1)%Q /\
       getRandomValue r 0 (len - 1)
       = getRandomValueDouble (2 ^ 1073) 0 (len - 1)) /\
  (1 <= getRandomValueDouble (2 ^ 1073) 1 1000 <= 1000 /\
   exists r, (0 <= r)%Q /\ (r < 1)%Q /\
     getRandomValue r 1 1000 = getRandomValueDouble (2 ^ 1073) 1 1000) /\
  (exists g, isDouble g /\ 0 <= g < doubleUnit /\
             getRandomValueDouble g 4 4 = 5).
Proof.
  assert (H1 : isDouble (2 ^ 1073)) by (vm_compute; reflexivity).
  assert (H2 : 0 <= 2 ^ 1073 < doubleUnit)
    by (split; vm_compute; [discriminate|reflexivity]).
  split; [split; assumption|].
  exact (getRandomValue_double (2 ^ 1073) H1 H2).
Defined.

Local Close Scope Z_scope.

Lemma generate_completion (rnd : nat -> Q) (fuel : nat) (s : jsstring) :
  unitInterval rnd -> generate fuel rnd = Returns s ->
  exists g, completion s g /\ validate s = ValidateOk.
Proof.
  intros Hrnd H. unfold generate in H.
  destruct (generateLoop fuel rnd 0 [] [] 0) as [res| |] eqn:Hg;
    cbn [bind] in H; try discriminate.
  injection H as <-.
  apply generateLoop_inv in Hg; trivial; [|apply genState_init|lia].
  destruct Hg as (zs & Hres & Hzs & Hl & Hcf). rewrite Hres.
  pose proof (hiddenFrom_hide zs (snd res) _ (hiddenFrom_init zs)) as Hh.
  rewrite (hiddenFrom_join zs _ Hzs Hh).
  exists (map digitChar zs). now apply generated_completion.
Qed.

Lemma checkSolve_conflictFree (s : jsstring) :
  validate s = ValidateOk -> fullb s = true -> conflictFreeb s = true ->
  checkSolve s = Returns solvedResult.
Proof.
  intros Hv Hf Hcf.
  pose proof (proj1 (validate_ok_iff s) Hv) as [Hl _].
  destruct (checkSolve_cases s Hv)
    as [[Hr _]|[(j & _ & Hj & _)|(j & c & _ & Hj & Hc & Hfree & _)]].
  - exact Hr.
  - exfalso. exact (proj1 (fullb_spec s) Hf j _ Hj eq_refl).
  - exfalso.
    assert (Hj81 : j < 81).
    { rewrite <- Hl. apply nth_error_Some. congruence. }
    rewrite (proj1 (conflictFreeb_spec s) Hcf j c Hj81 Hj Hc) in Hfree.
    discriminate Hfree.
Qed.

(** X21: a puzzle returned by [generate] passes [validate], holds only
    digits of 1..9 and empty markers, and none of its digits is in
    conflict with another digit of its row, column or region. *)
Theorem generate_valid_puzzle (rnd : nat -> Q) (fuel : nat) (s : jsstring) :
  unitInterval rnd -> generate fuel rnd = Returns s ->
  validate s = ValidateOk /\ digitsOrEmptyb s = true /\
  conflictFreeb s = true.
Proof.
  intros Hrnd H. destruct (generate_completion rnd fuel s Hrnd H)
    as (g & Hcomp & Hv).
  split; [exact Hv|]. now apply (completion_digitsOrEmpty s g).
Qed.

Lemma generate_valid_puzzle_witness :
  (unitInterval testRandom /\
   generate 81 testRandom = Returns generatedPuzzle) /\
  validate generatedPuzzle = ValidateOk /\
  digitsOrEmptyb generatedPuzzle = true /\
  conflictFreeb generatedPuzzle = true.
Proof.
  assert (H1 : unitInterval testRandom) by exact testRandom_unitInterval.
  assert (H2 : generate 81 testRandom = Returns generatedPuzzle)
    by (vm_compute; reflexivity).
  split; [split; assumption|].
  exact (generate_valid_puzzle testRandom 81 generatedPuzzle H1 H2).
Defined.

(** X22: the solution [solve] returns for a generated puzzle keeps the
    digits the generator left visible and passes [checkSolve]. *)
Theorem generate_solve_checkSolve (rnd : nat -> Q) (fuel : nat)
    (s : jsstring) :
  unitInterval rnd -> generate fuel rnd = Returns s ->
  exists sol,
    solve s = Returns (Solution sol) /\
    checkSolve sol = Returns solvedResult /\
    forall i c, nth_error s i = Some c -> c <> "."%char ->
                nth_error sol i = Some c.
Proof.
  intros Hrnd H. destruct (generate_completion rnd fuel s Hrnd H)
    as (g & Hcomp & Hv).
  destruct (solve_completion s g Hv Hcomp) as (sol & Hsol).
  destruct (completion_digitsOrEmpty s g Hcomp) as [Hd Hcf].
  pose proof (solution_completion s sol Hd Hcf Hsol) as Hcs.
  exists sol. split; [exact Hsol|].
  apply solve_solution in Hsol as [_ Hfill].
  pose proof (fills_valid s sol Hv Hfill) as Hvs.
  destruct Hfill as (_ & Hf & Hkeep & _).
  destruct Hcs as (_ & _ & _ & Hcfs & _).
  split; [now apply checkSolve_conflictFree|exact Hkeep].
Qed.

Lemma generate_solve_checkSolve_witness :
  (unitInterval testRandom /\
   generate 81 testRandom = Returns generatedPuzzle) /\
  exists sol,
    solve generatedPuzzle = Returns (Solution sol) /\
    checkSolve sol = Returns solvedResult /\
    forall i c, nth_error generatedPuzzle i = Some c -> c <> "."%char ->
                nth_error sol i = Some c.
Proof.
  assert (H1 : unitInterval testRandom) by exact testRandom_unitInterval.
  assert (H2 : generate 81 testRandom = Returns generatedPuzzle)
    by (vm_compute; reflexivity).
  split; [split; assumption|].
  exact (generate_solve_checkSolve testRandom 81 generatedPuzzle H1 H2).
Defined.

Lemma completion_solved (p g : jsstring) :
  completion p g -> checkSolve g = Returns solvedResult.
Proof.
  intros (Hlg & _ & Hdig & Hcf & _). apply checkSolve_conflictFree; trivial.
  - apply validate_ok_iff. split; [exact Hlg|].
    apply forallb_forall. intros c Hin. apply placed_puzzleChar.
    exact (proj1 (forallb_forall _ _) Hdig c Hin).
  - apply fullb_spec. intros k c Hk. apply placed_not_empty.
    exact (forallb_nth_error _ _ _ _ Hdig Hk).
Qed.

(** X23: a puzzle returned by [generate] is a solved grid with some cells
    replaced by the empty marker: there is a grid that passes
    [checkSolve] and agrees with the puzzle at every cell the puzzle does
    not show as empty. *)
Theorem generate_masks_solved_grid (rnd : nat -> Q) (fuel : nat)
    (s : jsstring) :
  unitInterval rnd -> generate fuel rnd = Returns s ->
  exists g,
    checkSolve g = Returns solvedResult /\ length g = length s /\
    forall i c, nth_error s i = Some c ->
                c = "."%char \/ nth_error g i = Some c.
Proof.
  intros Hrnd H. destruct (generate_completion rnd fuel s Hrnd H)
    as (g & Hcomp & Hv).
  exists g. split; [exact (completion_solved s g Hcomp)|].
  destruct Hcomp as (Hlg & Hls & _ & _ & Hkeep).
  split; [congruence|]. intros i c Hi.
  destruct (Ascii.eqb_spec c "."%char) as [->|Hne]; [now left|].
  right. now apply Hkeep.
Qed.

Lemma generate_masks_solved_grid_witness :
  (unitInterval testRandom /\
   generate 81 testRandom = Returns generatedPuzzle) /\
  exists g,
    checkSolve g = Returns solvedResult /\
    length g = length generatedPuzzle /\
    forall i c, nth_error generatedPuzzle i = Some c ->
                c = "."%char \/ nth_error g i = Some c.
Proof.
  assert (H1 : unitInterval testRandom) by exact testRandom_unitInterval.
  assert (H2 : generate 81 testRandom = Returns generatedPuzzle)
    by (vm_compute; reflexivity).
  split; [split; assumption|].
  exact (generate_masks_solved_grid testRandom 81 generatedPuzzle H1 H2).
Defined.

Lemma length_spliceOne {A} (l : list A) (start : Z) :
  (0 <= start < Z.of_nat (length l))%Z ->
  S (length (spliceOne l start)) = length l.
Proof.
  intros Hs. unfold spliceOne, relIndex.
  destruct (Z.ltb_spec start 0); [lia|].
  rewrite Z.min_l by lia. rewrite length_app, length_firstn, length_skipn.
  lia.
Qed.



(** ** The generator on doubles *)

(** The loop reads the stream from [pos] up to the position it returns. *)
Lemma drawLoop_posAfter (rnd : nat -> Q) (fuel pos : nat) (digits : list Z)
    (puzzle : list jsval) (hidden : list nat) (cursor : nat) (row : ascii)
    (col : Z) (d : DrawResult) :
  drawLoop fuel rnd pos digits puzzle hidden cursor row col = Returns d ->
  pos < posAfter d.
Proof.
  revert pos digits; induction fuel as [|fuel IH]; intros pos digits H;
    [discriminate|].
  cbn [drawLoop] in H.
  destruct (checkPlacement _ row col _) as [r| |]; cbn [bind] in H;
    try discriminate.
  destruct (valid r).
  - injection H as <-. cbn [posAfter]. lia.
  - destruct (length (spliceOne digits _) =? 0).
    + injection H as <-. cbn [posAfter]. lia.
    + apply IH in H. lia.
Qed.

Lemma drawLoop_agree (r1 r2 : nat -> Q) (fuel pos : nat) (digits : list Z)
    (puzzle : list jsval) (hidden : list nat) (cursor : nat) (row : ascii)
    (col : Z) (d : DrawResult) :
  drawLoop fuel r1 pos digits puzzle hidden cursor row col = Returns d ->
  (forall n, pos <= n < posAfter d -> r1 n = r2 n) ->
  drawLoop fuel r2 pos digits puzzle hidden cursor row col = Returns d.
Proof.
  revert pos digits; induction fuel as [|fuel IH]; intros pos digits H Hag;
    [discriminate|].
  pose proof (drawLoop_posAfter _ _ _ _ _ _ _ _ _ _ H) as Hpos.
  cbn [drawLoop] in H |- *.
  rewrite <- (Hag pos) by lia.
  destruct (checkPlacement _ row col _) as [r| |]; cbn [bind] in H |- *;
    try discriminate.
  destruct (valid r).
  - injection H as <-. cbn [posAfter] in Hag.
    now rewrite <- (Hag (S pos)) by lia.
  - destruct (length (spliceOne digits _) =? 0); [exact H|].
    apply IH; [exact H|]. intros n Hn. apply Hag. lia.
Qed.

Lemma generateLoop_agree (r1 r2 : nat -> Q) (fuel pos : nat)
    (puzzle : list jsval) (hidden : list nat) (cursor : nat)
    (res : list jsval * list nat) :
  generateLoop fuel r1 pos puzzle hidden cursor = Returns res ->
  (forall n, pos <= n -> r1 n = r2 n) ->
  generateLoop fuel r2 pos puzzle hidden cursor = Returns res.
Proof.
  revert pos puzzle hidden cursor; induction fuel as [|fuel IH];
    intros pos puzzle hidden cursor H Hag.
  - cbn [generateLoop] in H |- *.
    destruct (81 <=? cursor); [exact H|discriminate].
  - cbn [generateLoop] in H |- *.
    destruct (81 <=? cursor); [exact H|].
    destruct (toLetterNumberCoordinate (Z.of_nat cursor)) as [orow col].
    destruct orow as [row|]; cbn [ofOption bind] in H |- *; [|discriminate].
    destruct (drawLoop (length oneToNine) r1 pos oneToNine puzzle hidden
                cursor row col) as [d| |] eqn:Hd; cbn [bind] in H;
      try discriminate.
    pose proof (drawLoop_posAfter _ _ _ _ _ _ _ _ _ _ Hd) as Hpos.
    rewrite (drawLoop_agree r1 r2 _ _ _ _ _ _ _ _ d Hd)
      by (intros n Hn; apply Hag; lia).
    cbn [bind].
    destruct (negb (solvable d)); (apply IH; [exact H|]);
      intros n Hn; apply Hag; lia.
Qed.

Lemma drawLoopDouble_drawLoop (rnd : nat -> Z) (fuel pos : nat)
    (digits : list Z) (puzzle : list jsval) (hidden : list nat)
    (cursor : nat) (row : ascii) (col : Z) (d : DrawResult) :
  doubleStream rnd ->
  1 <= length digits <= 9 ->
  drawLoopDouble fuel rnd pos digits puzzle hidden cursor row col
  = Returns d ->
  exists rq, unitInterval rq /\
    drawLoop fuel rq pos digits puzzle hidden cursor row col = Returns d.
Proof.
  intros Hrnd. revert pos digits; induction fuel as [|fuel IH];
    intros pos digits Hlen H; [discriminate|].
  cbn [drawLoopDouble] in H.
  destruct (Hrnd pos) as [Hd0 Hf0]. destruct (Hrnd (S pos)) as [Hd1 Hf1].
  pose proof (getRandomValueDouble_index (rnd pos) (Z.of_nat (length digits))
                Hd0 Hf0 ltac:(lia)) as Hidx.
  destruct (getRandomValue_attains 0 (Z.of_nat (length digits) - 1) _ Hidx)
    as (r0 & Hr0 & Hr0' & He0).
  pose proof (getRandomValueDouble_thousand (rnd (S pos)) Hd1 Hf1) as Hth.
  destruct (getRandomValue_attains 1 1000 _ Hth) as (r1 & Hr1 & Hr1' & He1).
  set (idx := getRandomValueDouble (rnd pos) 0
                (Z.of_nat (length digits) - 1)) in *.
  destruct (checkPlacement (join puzzle) row col _) as [r| |] eqn:Hcp;
    cbn [bind] in H; try discriminate.
  destruct (valid r) eqn:Hvalid.
  - exists (fun n => if n =? pos then r0 else if n =? S pos then r1 else 0%Q).
    split.
    + intros n. destruct (n =? pos); [auto|].
      destruct (n =? S pos); [auto|]. split; [apply Qle_refl|reflexivity].
    + cbn [drawLoop]. rewrite Nat.eqb_refl.
      replace (S pos =? pos) with false by (symmetry; apply Nat.eqb_neq; lia).
      rewrite Nat.eqb_refl. rewrite He0, Hcp. cbn [bind]. rewrite Hvalid.
      now rewrite He1.
  - destruct (length (spliceOne digits idx) =? 0) eqn:Hex.
    + exists (fun n => if n =? pos then r0 else 0%Q). split.
      * intros n. destruct (n =? pos); [auto|].
        split; [apply Qle_refl|reflexivity].
      * cbn [drawLoop]. rewrite Nat.eqb_refl. rewrite He0, Hcp. cbn [bind].
        now rewrite Hvalid, Hex.
    + pose proof (length_spliceOne digits idx ltac:(lia)) as Hsp.
      apply Nat.eqb_neq in Hex as Hex'.
      destruct (IH (S pos) (spliceOne digits idx) ltac:(lia) H)
        as (rq & Hrq & Hdraw).
      exists (fun n => if n =? pos then r0 else rq n). split.
      * intros n. destruct (n =? pos); [auto|apply Hrq].
      * cbn [drawLoop]. rewrite Nat.eqb_refl. rewrite He0, Hcp. cbn [bind].
        rewrite Hvalid, Hex.
        apply (drawLoop_agree rq); [exact Hdraw|].
        intros n Hn.
        replace (n =? pos) with false by (symmetry; apply Nat.eqb_neq; lia).
        reflexivity.
Qed.

Lemma generateLoopDouble_generateLoop (rnd : nat -> Z) (fuel pos : nat)
    (puzzle : list jsval) (hidden : list nat) (cursor : nat)
    (res : list jsval * list nat) :
  doubleStream rnd ->
  generateLoopDouble fuel rnd pos puzzle hidden cursor = Returns res ->
  exists rq, unitInterval rq /\
    generateLoop fuel rq pos puzzle hidden cursor = Returns res.
Proof.
  intros Hrnd. revert pos puzzle hidden cursor; induction fuel as [|fuel IH];
    intros pos puzzle hidden cursor H.
  - exists (fun _ => 0%Q). split; [intros n; split; [apply Qle_refl|reflexivity]|].
    cbn [generateLoopDouble generateLoop] in H |- *.
    destruct (81 <=? cursor); [exact H|discriminate].
  - cbn [generateLoopDouble] in H.
    destruct (81 <=? cursor) eqn:Hc.
    { exists (fun _ => 0%Q).
      split; [intros n; split; [apply Qle_refl|reflexivity]|].
      cbn [generateLoop]. now rewrite Hc. }
    destruct (toLetterNumberCoordinate (Z.of_nat cursor)) as [orow col] eqn:Hco.
    destruct orow as [row|]; cbn [ofOption bind] in H; [|discriminate].
    destruct (drawLoopDouble (length oneToNine) rnd pos oneToNine puzzle
                hidden cursor row col) as [d| |] eqn:Hd; cbn [bind] in H;
      try discriminate.
    assert (Hnine : 1 <= length oneToNine <= 9) by (simpl; lia).
    destruct (drawLoopDouble_drawLoop rnd _ _ _ _ _ _ _ _ d Hrnd Hnine Hd)
      as (rq1 & Hrq1 & Hdraw).
    assert (Hrest : exists rq2, unitInterval rq2 /\
              (if negb (solvable d)
               then generateLoop fuel rq2 (posAfter d) [] [] 0
               else generateLoop fuel rq2 (posAfter d) (puzzleAfter d)
                      (hiddenAfter d) (S cursor)) = Returns res).
    { destruct (negb (solvable d)); now apply IH. }
    destruct Hrest as (rq2 & Hrq2 & Hgen).
    exists (fun n => if n <? posAfter d then rq1 n else rq2 n). split.
    + intros n. destruct (n <? posAfter d); [apply Hrq1|apply Hrq2].
    + cbn [generateLoop]. rewrite Hc, Hco. cbn [ofOption bind].
      rewrite (drawLoop_agree rq1 _ _ _ _ _ _ _ _ _ d Hdraw).
      2:{ intros n Hn.
          replace (n <? posAfter d) with true
            by (symmetry; apply Nat.ltb_lt; lia).
          reflexivity. }
      cbn [bind].
      assert (Hag : forall n, posAfter d <= n ->
                rq2 n = (if n <? posAfter d then rq1 n else rq2 n)).
      { intros n Hn.
        replace (n <? posAfter d) with false
          by (symmetry; apply Nat.ltb_ge; lia).
        reflexivity. }
      destruct (negb (solvable d));
        exact (generateLoop_agree rq2 _ _ _ _ _ _ _ Hgen Hag).
Qed.

Lemma testRandomDouble_doubleStream : doubleStream testRandomDouble.
Proof.
  assert (Hnine : forall k, (0 <= k <= 8)%Z ->
            isDouble (ninthDouble k) /\
            (0 <= ninthDouble k < doubleUnit)%Z).
  { intros k Hk.
    assert (Hc : In k [0; 1; 2; 3; 4; 5; 6; 7; 8]%Z) by (simpl; lia).
    simpl in Hc.
    repeat (destruct Hc as [<-|Hc];
            [split; [vm_compute; reflexivity|
                     split; vm_compute; [discriminate|reflexivity]]|]).
    destruct Hc. }
  assert (Hzero : isDouble 0 /\ (0 <= 0 < doubleUnit)%Z)
    by (split; [reflexivity|split; vm_compute; [discriminate|reflexivity]]).
  assert (Hhalf : isDouble (2 ^ 1073) /\ (0 <= 2 ^ 1073 < doubleUnit)%Z)
    by (split; [vm_compute; reflexivity|
                split; vm_compute; [discriminate|reflexivity]]).
  intros n. unfold testRandomDouble.
  destruct (Nat.even n).
  - destruct (nth_error testSolution (n / 2)); [|exact Hzero].
    apply Hnine. lia.
  - destruct (Nat.even (n / 2)); assumption.
Qed.

(** X30: the generator run on doubles, as the source computes, is the
    generator of this file run on some stream of rationals of [0, 1):
    whatever doubles of [0, 1) [Math.random()] returns, a puzzle returned
    by [generateDouble] is returned by [generate] for a stream of
    rationals, and [solve] returns for it a solution of 81 cells without
    an empty marker that keeps the digits the puzzle shows and on which
    [checkSolve] returns [solved: true]. *)
Theorem generateDouble_generate (rnd : nat -> Z) (fuel : nat) (s : jsstring) :
  doubleStream rnd ->
  generateDouble fuel rnd = Returns s ->
  (exists rq, unitInterval rq /\ generate fuel rq = Returns s) /\
  exists sol,
    solve s = Returns (Solution sol) /\
    length sol = 81 /\
    ~ In "."%char sol /\
    (forall i c, nth_error s i = Some c -> c <> "."%char ->
                 nth_error sol i = Some c) /\
    checkSolve sol = Returns solvedResult.
Proof.
  intros Hrnd H. unfold generateDouble in H.
  destruct (generateLoopDouble fuel rnd 0 [] [] 0) as [res| |] eqn:Hg;
    cbn [bind] in H; try discriminate.
  injection H as <-.
  destruct (generateLoopDouble_generateLoop rnd fuel 0 [] [] 0 res Hrnd Hg)
    as (rq & Hrq & Hgen).
  assert (Hgq : generate fuel rq = Returns (join (hide (fst res) (snd res))))
    by (unfold generate; now rewrite Hgen).
  split; [eauto|].
  set (s := join (hide (fst res) (snd res))) in *.
  destruct (generate_completion rq fuel s Hrq Hgq) as (g & Hcomp & Hv).
  destruct (solve_completion s g Hv Hcomp) as (sol & Hsol).
  destruct (completion_digitsOrEmpty s g Hcomp) as [Hd Hcf].
  pose proof (solution_completion s sol Hd Hcf Hsol) as Hcs.
  exists sol. split; [exact Hsol|].
  apply solve_solution in Hsol as [_ Hfill].
  pose proof (fills_valid s sol Hv Hfill) as Hvs.
  destruct Hfill as (_ & Hf & Hkeep & _).
  destruct Hcs as (Hls & _ & _ & Hcfs & _).
  split; [exact Hls|]. split; [|split; [exact Hkeep|]].
  - intros Hin. apply In_nth_error in Hin as (k & Hk).
    exact (proj1 (fullb_spec sol) Hf k _ Hk eq_refl).
  - now apply checkSolve_conflictFree.
Qed.

Lemma generateDouble_generate_witness :
  (doubleStream testRandomDouble /\
   generateDouble 81 testRandomDouble = Returns generatedPuzzle) /\
  (exists rq, unitInterval rq /\ generate 81 rq = Returns generatedPuzzle) /\
  exists sol,
    solve generatedPuzzle = Returns (Solution sol) /\
    length sol = 81 /\
    ~ In "."%char sol /\
    (forall i c, nth_error generatedPuzzle i = Some c -> c <> "."%char ->
                 nth_error sol i = Some c) /\
    checkSolve sol = Returns solvedResult.
Proof.
  assert (H1 : doubleStream testRandomDouble)
    by exact testRandomDouble_doubleStream.
  assert (H2 : generateDouble 81 testRandomDouble = Returns generatedPuzzle)
    by (vm_compute; reflexivity).
  split; [split; assumption|].
  exact (generateDouble_generate testRandomDouble 81 generatedPuzzle H1 H2).
Defined.

(** ** The API routes *)

Lemma coordinateRegex_test_spec (s : jsstring) :
  coordinateRegex_test s = true <->
  exists r c, s = [r; c] /\ (65 <= charCode r <= 73)%Z /\
              (49 <= charCode c <= 57)%Z.
Proof.
  unfold coordinateRegex_test, charCode. split.
  - destruct s as [|r [|c [|d s]]]; try discriminate.
    intros H. apply andb_prop in H as [H H4]. apply andb_prop in H as [H H3].
    apply andb_prop in H as [H1 H2]. apply Nat.leb_le in H1, H2, H3, H4.
    exists r, c. split; [reflexivity|lia].
  - intros (r & c & -> & Hr & Hc).
    repeat (apply andb_true_intro; split); apply Nat.leb_le; lia.
Qed.

Lemma digit_column (c : ascii) :
  (49 <= charCode c <= 57)%Z ->
  unaryPlus c = Num (charCode c - 48) /\ (1 <= charCode c - 48 <= 9)%Z.
Proof.
  intros Hc. split; [|lia]. unfold unaryPlus, isDecimalDigit.
  unfold charCode in Hc.
  replace (48 <=? nat_of_ascii c) with true by (symmetry; apply Nat.leb_le; lia).
  replace (nat_of_ascii c <=? 57) with true by (symmetry; apply Nat.leb_le; lia).
  reflexivity.
Qed.

Lemma conflicts_length (p : jsstring) (i : nat) (c : ascii) :
  (length (conflictsAt p i c) =? 0) = freeAtb p i c.
Proof.
  destruct (freeAtb p i c) eqn:Hfree.
  - now rewrite conflictsAt_nil.
  - apply Nat.eqb_neq. pose proof (conflictsAt_cons p i c Hfree). lia.
Qed.

Lemma digit_chars (c : ascii) :
  In c (lit "123456789") <-> (49 <= charCode c <= 57)%Z.
Proof.
  split.
  - simpl. intros H.
    repeat (destruct H as [<-|H]; [vm_compute; split; discriminate|]).
    destruct H.
  - unfold charCode. intros H. rewrite <- (ascii_nat_embedding c).
    set (n := nat_of_ascii c) in *.
    assert (Hn : n = 49 \/ n = 50 \/ n = 51 \/ n = 52 \/ n = 53 \/ n = 54
                 \/ n = 55 \/ n = 56 \/ n = 57) by lia.
    repeat (destruct Hn as [->|Hn]; [vm_compute; tauto|]).
    rewrite Hn. vm_compute; tauto.
Qed.

(** The text of an array of two elements or more holds a comma. *)
Lemma arrayText_comma (s t : jsstring) (a : list jsstring) :
  In ","%char (arrayText (s :: t :: a)).
Proof.
  cbn [arrayText]. apply in_or_app. right. now left.
Qed.

Lemma arrayText_refused (a : list jsstring) :
  length a = 81 -> validPuzzleRegex_test (arrayText a) = false.
Proof.
  intros Hl. destruct a as [|s [|t a]]; try discriminate Hl.
  unfold validPuzzleRegex_test. apply andb_false_iff. right.
  apply not_true_is_false. intros H.
  pose proof (proj1 (forallb_forall _ _) H _ (arrayText_comma s t a)) as Hc.
  discriminate Hc.
Qed.

(** What the handler answers once the fields have passed its tests. *)
Lemma checkRoute_checked (p : jsstring) (r c : ascii) (value : jsfield)
    (v : Z) :
  validate p = ValidateOk ->
  (65 <= charCode r <= 73)%Z -> (49 <= charCode c <= 57)%Z ->
  falsy value = false -> parseIntField value = Num v -> (0 <= v <= 9)%Z ->
  let i := Z.to_nat (9 * (charCode r - 65) + (charCode c - 49)) in
  checkRoute (FStr p) (FStr [r; c]) value
  = Returns (CheckVerdict (freeAtb p i (digitChar v))
               (if freeAtb p i (digitChar v) then None
                else Some (conflictsAt p i (digitChar v)))).
Proof.
  intros Hv Hr Hc Hfalsy Hparse Hrange i. unfold checkRoute.
  assert (Hp : falsy (FStr p) = false).
  { apply validate_ok_iff in Hv as [Hl _]. destruct p; [discriminate|reflexivity]. }
  rewrite Hp, Hfalsy. cbn [falsy orb]. rewrite Hparse.
  destruct (Z.ltb_spec v 0); [lia|]. destruct (Z.gtb_spec v 9); [lia|].
  cbn [orb]. rewrite Hv.
  rewrite (proj2 (coordinateRegex_test_spec [r; c]))
    by (exists r, c; auto).
  cbn [negb]. rewrite numText_digit by exact Hrange.
  assert (Hi : i < 81) by (unfold i; lia).
  assert (Hcoord : toBaseZeroCoordinate r (charCode c - 48)
                   = Some (Z.of_nat (i mod 9), Z.of_nat (i / 9), Z.of_nat i)).
  { rewrite toBaseZeroCoordinate_in_range by lia. unfold i.
    repeat f_equal; lia. }
  rewrite (checkRegionPlacement_spec p i _ _ (digitChar v) Hi Hcoord).
  cbn [bind valid].
  rewrite (checkRowPlacement_spec p i _ _ (digitChar v) Hi Hcoord).
  rewrite (checkColPlacement_spec p i _ _ (digitChar v) Hi Hcoord).
  fold (conflictsAt p i (digitChar v)). now rewrite conflicts_length.
Qed.

(** X25: the handler of [/api/check] answers every request of the
    model: whatever the three fields of the body, each absent, a string,
    an integer number or an array of strings, it returns a response and
    does not throw. *)
Theorem checkRoute_returns (puzzle coordinate value : jsfield) :
  exists response, checkRoute puzzle coordinate value = Returns response.
Proof.
  unfold checkRoute.
  destruct (falsy puzzle || falsy coordinate || falsy value) eqn:Hf;
    [eauto|].
  apply orb_false_elim in Hf as [Hf Hval].
  apply orb_false_elim in Hf as [Hp Hc].
  destruct puzzle as [|p|n|a]; [discriminate Hp| |eauto|eauto].
  destruct coordinate as [|co|n|a]; [discriminate Hc| |eauto|eauto].
  destruct (parseIntField value) as [v|] eqn:Hparse; [|eauto].
  destruct ((v <? 0)%Z || (v >? 9)%Z) eqn:Hrange; [eauto|].
  destruct (validate p) as [|e] eqn:Hv; [|eauto].
  destruct (coordinateRegex_test co) eqn:Hre; [|cbn [negb]; eauto].
  apply coordinateRegex_test_spec in Hre as (r & c & -> & Hr & Hcc).
  assert (Hv09 : (0 <= v <= 9)%Z).
  { apply orb_false_elim in Hrange as [H0 H9].
    apply Z.ltb_ge in H0. rewrite Z.gtb_ltb in H9. apply Z.ltb_ge in H9. lia. }
  pose proof (checkRoute_checked p r c value v Hv Hr Hcc Hval Hparse Hv09)
    as H.
  unfold checkRoute in H. rewrite Hp, Hval, Hparse, Hrange, Hv in H.
  cbn [falsy orb] in H.
  rewrite (proj2 (coordinateRegex_test_spec [r; c])) in H
    by (exists r, c; auto).
  cbn [negb] in *. rewrite H. eauto.
Qed.

(** X26: on a puzzle that passes [validate], a coordinate of a row
    letter A..I and a column digit 1..9, and a value that parses to a
    digit of 0..9, the handler of [/api/check] answers [valid: true]
    with no conflict list exactly when no other cell of the row, the
    column and the region of the cell holds the digit, and otherwise
    [valid: false] with the list of the failing checks. *)
Theorem checkRoute_verdict (p : jsstring) (r c : ascii) (value : jsfield)
    (v x y cell : Z) :
  validate p = ValidateOk ->
  In r rowLetters -> In c (lit "123456789") ->
  toBaseZeroCoordinate r (charCode c - 48) = Some (x, y, cell) ->
  falsy value = false -> parseIntField value = Num v -> (0 <= v <= 9)%Z ->
  checkRoute (FStr p) (FStr [r; c]) value
  = Returns (CheckVerdict (freeAtb p (Z.to_nat cell) (digitChar v))
               (if freeAtb p (Z.to_nat cell) (digitChar v) then None
                else Some (conflictsAt p (Z.to_nat cell) (digitChar v)))).
Proof.
  intros Hv Hr Hc Hxy Hfalsy Hparse Hrange.
  apply rowLetters_code in Hr.
  assert (Hcc : (49 <= charCode c <= 57)%Z).
  { simpl in Hc.
    repeat (destruct Hc as [<-|Hc]; [vm_compute; split; discriminate|]).
    destruct Hc. }
  rewrite toBaseZeroCoordinate_in_range in Hxy by lia.
  assert (Hcell : cell = (9 * (charCode r - 65) + (charCode c - 48 - 1))%Z)
    by congruence.
  rewrite (checkRoute_checked p r c value v Hv Hr Hcc Hfalsy Hparse Hrange).
  replace (Z.to_nat (9 * (charCode r - 65) + (charCode c - 49)))
    with (Z.to_nat cell) by lia.
  reflexivity.
Qed.

Lemma checkRoute_verdict_witness :
  (validate oneAtA1 = ValidateOk /\ In "A"%char rowLetters /\
   In "4"%char (lit "123456789") /\
   toBaseZeroCoordinate "A" (charCode "4" - 48) = Some (3, 0, 3)%Z /\
   falsy (FStr (lit "1")) = false /\
   parseIntField (FStr (lit "1")) = Num 1) /\
  checkRoute (FStr oneAtA1) (FStr (lit "A4")) (FStr (lit "1"))
  = Returns (CheckVerdict false (Some ["row"%string])).
Proof.
  assert (H1 : validate oneAtA1 = ValidateOk) by reflexivity.
  assert (H2 : In "A"%char rowLetters) by (now left).
  assert (H3 : In "4"%char (lit "123456789")) by (simpl; tauto).
  assert (H4 : toBaseZeroCoordinate "A" (charCode "4" - 48)
               = Some (3, 0, 3)%Z) by reflexivity.
  assert (H5 : falsy (FStr (lit "1")) = false) by reflexivity.
  assert (H6 : parseIntField (FStr (lit "1")) = Num 1) by reflexivity.
  split; [repeat split; assumption|].
  refine (eq_trans (checkRoute_verdict oneAtA1 "A" "4" (FStr (lit "1"))
                      1 3 0 3 H1 H2 H3 H4 H5 H6 _) _);
    [lia|vm_compute; reflexivity].
Defined.

(** X27: the handler of [/api/check] gives a verdict only on a request
    it accepts: the puzzle is a string that passes [validate], the
    coordinate is a row letter A..I followed by a digit 1..9, and the
    value is present and [parseInt] reads an integer of 0..9 from its
    text.  A value given as a number below [10^21] in magnitude is then
    one of 1..9; of a larger number [parseInt] reads the first digit of
    the exponential text, so that [1e21] gets the verdict of the digit 1.
    The verdict is [valid: true] exactly when it has no conflict list. *)
Theorem checkRoute_verdict_wellformed (puzzle coordinate value : jsfield)
    (b : bool) (cl : option (list string)) :
  checkRoute puzzle coordinate value = Returns (CheckVerdict b cl) ->
  (exists p r c v,
     puzzle = FStr p /\ validate p = ValidateOk /\
     coordinate = FStr [r; c] /\ In r rowLetters /\
     In c (lit "123456789") /\
     falsy value = false /\ parseIntField value = Num v /\
     (0 <= v <= 9)%Z /\
     (forall n, value = FNum n -> (Z.abs n < 10 ^ 21)%Z ->
                n = v /\ (1 <= n <= 9)%Z)) /\
  (b = true <-> cl = None).
Proof.
  intros H. unfold checkRoute in H.
  destruct (falsy puzzle || falsy coordinate || falsy value) eqn:Hf;
    [discriminate|].
  apply orb_false_elim in Hf as [Hf Hval].
  apply orb_false_elim in Hf as [Hp Hc].
  destruct puzzle as [|p|n|a]; try discriminate.
  destruct coordinate as [|co|n|a]; try discriminate.
  destruct (parseIntField value) as [v|] eqn:Hparse; [|discriminate].
  destruct ((v <? 0)%Z || (v >? 9)%Z) eqn:Hrange; [discriminate|].
  destruct (validate p) as [|e] eqn:Hv; [|discriminate].
  destruct (coordinateRegex_test co) eqn:Hre; [|discriminate].
  apply coordinateRegex_test_spec in Hre as (r & c & -> & Hr & Hcc).
  assert (Hv09 : (0 <= v <= 9)%Z).
  { apply orb_false_elim in Hrange as [H0 H9].
    apply Z.ltb_ge in H0. rewrite Z.gtb_ltb in H9. apply Z.ltb_ge in H9. lia. }
  split.
  - exists p, r, c, v. repeat (split; trivial).
    + now apply rowLetters_code.
    + now apply digit_chars.
    + subst value. cbn [parseIntField] in Hparse.
      destruct (Z.ltb_spec (Z.abs n) (10 ^ 21)); [congruence|lia].
    + subst value. cbn [parseIntField] in Hparse. cbn [falsy] in Hval.
      apply Z.eqb_neq in Hval.
      destruct (Z.ltb_spec (Z.abs n) (10 ^ 21)); [|lia].
      assert (n = v) by congruence. lia.
    + subst value. cbn [parseIntField] in Hparse. cbn [falsy] in Hval.
      apply Z.eqb_neq in Hval.
      destruct (Z.ltb_spec (Z.abs n) (10 ^ 21)); [|lia].
      assert (n = v) by congruence. lia.
  - cbn [negb] in H.
    destruct (checkRegionPlacement p r (charCode c - 48) (numText v))
      as [cg| |]; cbn [bind] in H; try discriminate.
    injection H as <- <-.
    match goal with
    | |- (?x = true) <-> _ => destruct x
    end; split; intros; congruence.
Qed.

Lemma checkRoute_verdict_wellformed_witness :
  checkRoute (FStr oneAtA1) (FStr (lit "C1")) (FNum (10 ^ 21))
  = Returns (CheckVerdict false (Some ["column"; "region"]%string)) /\
  (exists p r c v,
     FStr oneAtA1 = FStr p /\ validate p = ValidateOk /\
     FStr (lit "C1") = FStr [r; c] /\ In r rowLetters /\
     In c (lit "123456789") /\
     falsy (FNum (10 ^ 21)) = false /\
     parseIntField (FNum (10 ^ 21)) = Num v /\
     (0 <= v <= 9)%Z /\
     (forall n, FNum (10 ^ 21) = FNum n -> (Z.abs n < 10 ^ 21)%Z ->
                n = v /\ (1 <= n <= 9)%Z)) /\
  (false = true <-> Some ["column"; "region"]%string = None).
Proof.
  assert (H : checkRoute (FStr oneAtA1) (FStr (lit "C1")) (FNum (10 ^ 21))
              = Returns (CheckVerdict false
                           (Some ["column"; "region"]%string)))
    by (vm_compute; reflexivity).
  split; [exact H|].
  exact (checkRoute_verdict_wellformed _ _ _ _ _ H).
Defined.

(** X28: an error answered by the handler of [/api/check] is one of its
    own five messages or the length or character error of [validate];
    the [EmptyInput] error of [validate] is never answered, an empty
    puzzle being reported as a missing field. *)
Theorem checkRoute_errors (puzzle coordinate value : jsfield) (e : string) :
  checkRoute puzzle coordinate value = Returns (CheckError e) ->
  In e [RequiredFieldsMissing; PuzzleMustBeString; CoordinateMustBeString;
        InvalidValue; WrongLength; InvalidCharacters; InvalidCoordinate] /\
  e <> EmptyInput.
Proof.
  intros H.
  assert (Hin : In e [RequiredFieldsMissing; PuzzleMustBeString;
                      CoordinateMustBeString; InvalidValue; WrongLength;
                      InvalidCharacters; InvalidCoordinate]).
  { unfold checkRoute in H.
    destruct (falsy puzzle || falsy coordinate || falsy value) eqn:Hf.
    { injection H as <-. simpl; tauto. }
    apply orb_false_elim in Hf as [Hf Hval].
    apply orb_false_elim in Hf as [Hp Hc].
    destruct puzzle as [|p|n|a];
      [discriminate Hp| |injection H as <-; simpl; tauto..].
    destruct coordinate as [|co|n|a];
      [discriminate Hc| |injection H as <-; simpl; tauto..].
    destruct (parseIntField value) as [v|]; [|injection H as <-; simpl; tauto].
    destruct ((v <? 0)%Z || (v >? 9)%Z); [injection H as <-; simpl; tauto|].
    destruct (validate p) as [|e'] eqn:Hv.
    - destruct (negb (coordinateRegex_test co));
        [injection H as <-; simpl; tauto|].
      destruct co as [|r [|c co]]; try discriminate.
      destruct (checkRegionPlacement p r (charCode c - 48) (numText v));
        discriminate.
    - injection H as He. subst e. destruct p as [|a p]; [discriminate Hp|].
      destruct (validate_errors _ _ Hv) as [He|[He|He]]; rewrite He in *;
        simpl; try tauto.
      exfalso. revert Hv. unfold validate.
      destruct (negb (length (a :: p) =? 81)); [discriminate|].
      destruct (negb (validPuzzleRegex_test (a :: p))); discriminate. }
  split; [exact Hin|]. intros ->. simpl in Hin.
  repeat (destruct Hin as [Hin|Hin]; [discriminate Hin|]). destruct Hin.
Qed.

Lemma checkRoute_errors_witness :
  checkRoute (FStr (lit "")) (FStr (lit "A1")) (FStr (lit "1"))
  = Returns (CheckError RequiredFieldsMissing) /\
  In RequiredFieldsMissing
     [RequiredFieldsMissing; PuzzleMustBeString; CoordinateMustBeString;
      InvalidValue; WrongLength; InvalidCharacters; InvalidCoordinate] /\
  RequiredFieldsMissing <> EmptyInput.
Proof.
  assert (H : checkRoute (FStr (lit "")) (FStr (lit "A1")) (FStr (lit "1"))
              = Returns (CheckError RequiredFieldsMissing)) by reflexivity.
  split; [exact H|]. exact (checkRoute_errors _ _ _ _ H).
Defined.

(** X29: on a puzzle field that is absent, a string, an integer number
    or an array of strings, the handler of [/api/solve] returns a
    response and does not throw.  It answers a solution only for a string
    puzzle, the one [solve] returns for it; an array is answered with the
    length error, or with the character error when it has 81 elements;
    the [EmptyInput] error is never answered, an absent, empty or zero
    puzzle being reported as a missing field. *)
Theorem solveRoute_response (puzzle : jsfield) :
  exists res,
    solveRoute puzzle = Returns res /\
    (forall s, res = Solution s ->
       exists p, puzzle = FStr p /\ solve p = Returns (Solution s)) /\
    res <> Error EmptyInput /\
    (falsy puzzle = true -> res = Error RequiredFieldMissing) /\
    (forall a, puzzle = FArr a ->
       res = Error (if length a =? 81 then InvalidCharacters
                    else WrongLength)).
Proof.
  unfold solveRoute. destruct puzzle as [|p|n|a].
  - eexists. split; [reflexivity|]. repeat split; try discriminate.
  - destruct p as [|a p].
    + eexists. split; [reflexivity|]. repeat split; try discriminate.
    + cbn [falsy]. destruct (solve_returns (a :: p)) as (res & Hres).
      exists res. split; [exact Hres|].
      split; [|split; [|split; discriminate]].
      * intros s ->. eauto.
      * intros ->. unfold solve in Hres.
        destruct (validate (a :: p)) as [|e] eqn:Hv.
        -- destruct (solveArr solveFuel (a :: p)) as [[res q]| |] eqn:Hr;
             cbn [bind fst] in Hres; try discriminate.
           injection Hres as ->.
           apply validate_ok_iff in Hv as [Hl _].
           destruct (solveArr_inv solveFuel _ _ q Hl Hr)
             as [(He & _)|[He _]]; discriminate He.
        -- injection Hres as ->. revert Hv. unfold validate.
           destruct (negb (length (a :: p) =? 81)); [discriminate|].
           destruct (negb (validPuzzleRegex_test (a :: p))); discriminate.
  - cbn [falsy]. destruct (n =? 0)%Z eqn:Hn.
    + eexists. split; [reflexivity|]. repeat split; try discriminate.
    + eexists. split; [reflexivity|]. repeat split; try discriminate.
  - cbn [falsy]. destruct (length a =? 81) eqn:Hl; cbn [negb].
    + apply Nat.eqb_eq in Hl as Hl'.
      rewrite (arrayText_refused a Hl'). cbn [negb].
      eexists. split; [reflexivity|].
      split; [discriminate|]. split; [discriminate|].
      split; [discriminate|]. intros a' Ha. injection Ha as <-.
      now rewrite Hl.
    + eexists. split; [reflexivity|].
      split; [discriminate|]. split; [discriminate|].
      split; [discriminate|]. intros a' Ha. injection Ha as <-.
      now rewrite Hl.
Qed.
